(** * Relaxed witness complex construction (Gudhi): a shallow embedding

    Source: [src/Witness_complex/include/gudhi/Relaxed_witness_complex.h],
    which holds the class [Relaxed_witness_complex] (the construction that
    rescans every witness row at every dimension) and the class
    [Witness_complex_new] (the construction with witness-to-simplex maps).

    Conventions of the embedding.
    - A [double] is an exact rational ([Q]); [std::numeric_limits<double>::infinity()]
      is the extra point [Infinity] of [xdist].  Rounding is not modelled.
    - A vertex handle / landmark id is a [Z].
    - An iterator into a row is the suffix of the row that starts at it:
      [*it] is the head, [++it] the tail, [it == end] the empty suffix.
    - The rows [distances[w]] and [knn[w]] of one witness have the same length
      (the constructor's documentation asks for it).
    - The candidate [simplex] (a [std::vector] pushed and popped around the
      recursive calls) is passed by value: every call leaves it as it found it.
    - The simplicial complex is shared mutable state: it is threaded through
      every call ([machine]).
    - [nbL], a number of landmarks, is a [nat]; [limD], [dim] and [k] are [Z].
    - The recursion of [add_all_faces_of_dimension] carries a bound on the
      nesting of the calls and the outer loop of the constructor a bound on
      its rounds; [None] means a bound was hit.  Both bounds are shown to be
      large enough. *)

From Stdlib Require Import ZArith QArith Qminmax Lqa.
From stdpp Require Import base option list sorting gmap.

Set Default Proof Using "Type".
Local Open Scope Z_scope.

(** ** Distances *)

(** A distance bound: a rational or +infinity (the initial [norelax_dist]). *)
Inductive xdist : Type :=
| Finite (q : Q)
| Infinity.

(** [q <= x] for a finite [q] and an extended [x]. *)
Definition xle (q : Q) (x : xdist) : bool :=
  match x with
  | Finite r => Qle_bool q r
  | Infinity => true
  end.

(** [q < x]. *)
Definition xlt (q : Q) (x : xdist) : bool :=
  match x with
  | Finite r => negb (Qle_bool r q)
  | Infinity => true
  end.

(** [q > x]. *)
Definition xgt (q : Q) (x : xdist) : bool := negb (xle q x).

(** Equality of extended distances as numbers. *)
Definition xeq (x y : xdist) : Prop :=
  match x, y with
  | Finite a, Finite b => (a == b)%Q
  | Infinity, Infinity => True
  | _, _ => False
  end.

(** [a > b] on doubles. *)
Definition Qgt_bool (a b : Q) : bool := negb (Qle_bool a b).

(** ** The simplicial complex container *)

(** The complex container ([Simplicial_complex], in Gudhi the [Simplex_tree]
    of [gudhi/Simplex_tree.h]) is not part of the sources at hand.  The spec
    gives it the interface
    [insert(vertex_set, filtration) -> already_present|inserted],
    [find(vertex_set) -> present|absent] and the recorded filtration value of
    a present simplex, and fixes the identity of a simplex as its canonical
    sorted vertex tuple.  The container is therefore a finite map from sorted
    vertex tuples to filtration values, [gmap (list Z) Q]. *)

(** Modelled from the spec: the canonical sorted vertex tuple of a vertex
    range, the key of a simplex in the container. *)
Definition sorted_key (s : list Z) : list Z := merge_sort Z.le s.

(** Modelled from the spec: [sc.find(s)], [None] standing for
    [sc.null_simplex()] and [Some f] for a handle whose [sc.filtration] is [f]. *)
Definition find (sc : gmap (list Z) Q) (s : list Z) : option Q :=
  sc !! sorted_key s.

(** Modelled from the spec: the two readings of [insert] on a simplex that is
    already present; the spec does not say what the container records then.
    [Keep_recorded] leaves the recorded value alone, [Lower_recorded] replaces
    it when the new value is strictly smaller. *)
Inductive reinsert_policy : Type :=
| Keep_recorded
| Lower_recorded.

(** Modelled from the spec: the value recorded for a simplex after
    [insert_simplex] with value [f], [old] being what was recorded before. *)
Definition recorded (pol : reinsert_policy) (old : option Q) (f : Q) : Q :=
  match old with
  | None => f
  | Some f0 =>
      match pol with
      | Keep_recorded => f0
      | Lower_recorded => if Qgt_bool f0 f then f else f0
      end
  end.

(** Modelled from the spec: [sc.insert_simplex(s, f)]. *)
Definition insert_simplex (pol : reinsert_policy) (sc : gmap (list Z) Q)
    (s : list Z) (f : Q) : gmap (list Z) Q :=
  <[sorted_key s := recorded pol (sc !! sorted_key s) f]> sc.

(** Modelled from the spec: [sc.num_vertices()], the number of 0-simplices. *)
Definition num_vertices (sc : gmap (list Z) Q) : nat :=
  length (filter (fun kv => length (fst kv) = 1%nat) (map_to_list sc)).

(** The state the construction runs on: the complex, and a count of the
    loop guards that dereferenced a row iterator standing at the end of its
    row (the value read there is not defined; the guard's second conjunct
    [l_it != end] is false at that point, so the loop is left). *)
Record machine : Type := Machine {
  complex : gmap (list Z) Q;
  past_end_reads : nat
}.

Definition note_past_end (st : machine) : machine :=
  Machine (complex st) (S (past_end_reads st)).

Definition with_complex (st : machine) (sc : gmap (list Z) Q) : machine :=
  Machine sc (past_end_reads st).

(** ** [class Relaxed_witness_complex] *)

Module Relaxed.

(** [bool all_faces_in(std::vector<int>& simplex, double* filtration_value)]:
    the loop over [not_it], given as the positions still to be left out.
    The facet that leaves position [i] out is [delete i simplex].  The result
    is the returned flag and the final [*filtration_value]. *)
Fixpoint all_faces_in_from (sc : gmap (list Z) Q) (simplex : list Z)
    (not_its : list nat) (filtration_value : Q) : bool * Q :=
  match not_its with
  | [] => (true, filtration_value)
  | not_it :: rest =>
      match find sc (delete not_it simplex) with
      | None => (false, filtration_value)
      | Some f =>
          all_faces_in_from sc simplex rest
            (if Qgt_bool f filtration_value then f else filtration_value)
      end
  end.

Definition all_faces_in (sc : gmap (list Z) Q) (simplex : list Z)
    (filtration_value : Q) : bool * Q :=
  all_faces_in_from sc simplex (seq 0 (length simplex)) filtration_value.

(** The start value of [filtration_value] in the leaf loop:
    [0], or [*d_it - norelax_dist] when [*d_it > norelax_dist]. *)
Definition relaxation (d : Q) (norelax_dist : xdist) : Q :=
  match norelax_dist with
  | Finite r => if Qgt_bool d r then (d - r)%Q else 0%Q
  | Infinity => 0%Q
  end.

Section Construction.

Variable pol : reinsert_policy.

(** The [for] loop of the branch [dim == 0]. *)
Fixpoint scan_leaf (alpha : Q) (norelax_dist : xdist) (d_it : list Q)
    (l_it : list Z) (simplex : list Z) (will_be_active : bool)
    (st : machine) {struct l_it} : bool * machine :=
  match d_it with
  | [] => (will_be_active, note_past_end st)
  | d :: d_next =>
      if negb (xle (d - alpha)%Q norelax_dist) then (will_be_active, st)
      else
        match l_it with
        | [] => (will_be_active, st)
        | l :: l_next =>
            let candidate := simplex ++ [l] in
            let '(ok, filtration_value) :=
              all_faces_in (complex st) candidate (relaxation d norelax_dist) in
            let '(will_be_active, st) :=
              if ok
              then (true, with_complex st
                            (insert_simplex pol (complex st) candidate filtration_value))
              else (will_be_active, st) in
            let norelax_dist :=
              if xlt d norelax_dist then Finite d else norelax_dist in
            scan_leaf alpha norelax_dist d_next l_next simplex will_be_active st
        end
  end.

(** The [for] loop of the branch [dim > 0]; [rec] is the recursive call
    [add_all_faces_of_dimension(dim-1, alpha, _, d_it+1, l_it+1, _, end)]. *)
Fixpoint scan_inner
    (rec : xdist -> list Q -> list Z -> list Z -> machine -> option (bool * machine))
    (alpha : Q) (norelax_dist : xdist) (d_it : list Q) (l_it : list Z)
    (simplex : list Z) (will_be_active : bool) (st : machine) {struct l_it}
    : option (bool * machine) :=
  match d_it with
  | [] => Some (will_be_active, note_past_end st)
  | d :: d_next =>
      if negb (xle (d - alpha)%Q norelax_dist) then Some (will_be_active, st)
      else
        match l_it with
        | [] => Some (will_be_active, st)
        | l :: l_next =>
            '(will_be_active, st) ←
              (match find (complex st) (simplex ++ [l]) with
               | Some _ =>
                   '(b, st) ← rec norelax_dist d_next l_next (simplex ++ [l]) st;
                   Some (b || will_be_active, st)
               | None => Some (will_be_active, st)
               end);
            let norelax_dist :=
              if xle d norelax_dist then Finite d else norelax_dist in
            '(b, st) ← rec norelax_dist d_next l_next simplex st;
            scan_inner rec alpha norelax_dist d_next l_next simplex
              (b || will_be_active) st
        end
  end.

(** [bool add_all_faces_of_dimension(dim, alpha, norelax_dist, curr_d, curr_l,
    simplex, end)].  [depth] bounds the nesting of recursive calls; [None]
    means the bound was hit. *)
Fixpoint add_all_faces_of_dimension (depth : nat) (dim : Z) (alpha : Q)
    (norelax_dist : xdist) (curr_d : list Q) (curr_l : list Z)
    (simplex : list Z) (st : machine) {struct depth} : option (bool * machine) :=
  match depth with
  | O => None
  | S depth' =>
      match curr_l with
      | [] => Some (false, st)
      | _ :: _ =>
          if 0 <? dim then
            scan_inner (add_all_faces_of_dimension depth' (dim - 1) alpha)
              alpha norelax_dist curr_d curr_l simplex false st
          else if dim =? 0 then
            Some (scan_leaf alpha norelax_dist curr_d curr_l simplex false st)
          else Some (false, st)
      end
  end.

(** The initial fill of 0-dimensional simplices:
    [for (int i = 0; i != nbL; ++i) sc.insert_simplex({i}, 0.0)]. *)
Definition insert_landmarks (nbL : nat) (sc : gmap (list Z) Q) : gmap (list Z) Q :=
  foldl (fun sc i => insert_simplex pol sc [Z.of_nat i] 0%Q) sc (seq 0 nbL).

(** One traversal of [active_w] at dimension [k]: the inner [while] of the
    constructor.  A witness whose call reports [false] is erased. *)
Fixpoint witness_pass (distances : list (list Q)) (knn : list (list Z))
    (k : Z) (alpha : Q) (active_w : list nat) (st : machine)
    : option (list nat * machine) :=
  match active_w with
  | [] => Some ([], st)
  | w :: rest =>
      '(ok, st) ←
        add_all_faces_of_dimension (S (length (knn !!! w))) k alpha Infinity
          (distances !!! w) (knn !!! w) [] st;
      '(rest, st) ← witness_pass distances knn k alpha rest st;
      Some (if ok : bool then w :: rest else rest, st)
  end.

(** The outer [while (!active_w.empty() && k <= limD && k < nbL)]. *)
Fixpoint construction_loop (fuel : nat) (distances : list (list Q))
    (knn : list (list Z)) (nbL : nat) (alpha : Q) (limD : Z)
    (k : Z) (active_w : list nat) (st : machine)
    : option (Z * list nat * machine) :=
  match fuel with
  | O => None
  | S fuel' =>
      if bool_decide (active_w ≠ []) && (k <=? limD) && (k <? Z.of_nat nbL)
      then
        '(active_w, st) ← witness_pass distances knn k alpha active_w st;
        construction_loop fuel' distances knn nbL alpha limD (k + 1) active_w st
      else Some (k, active_w, st)
  end.

(** The constructor, run on the complex [sc_] it is handed.
    [sc.set_dimension(limD)] only records an attribute of the container and is
    left out. *)
Definition Relaxed_witness_complex (distances : list (list Q))
    (knn : list (list Z)) (sc_ : gmap (list Z) Q) (nbL : nat) (alpha : Q)
    (limD : Z) : option machine :=
  let nbW := length knn in
  let st := Machine (insert_landmarks nbL sc_) 0 in
  '(_, _, st) ←
    construction_loop (S nbL) distances knn nbL alpha limD 1 (seq 0 nbW) st;
  Some st.

End Construction.

End Relaxed.

(** ** [class Witness_complex_new] *)

Module New.

(** A row of the nearest landmark table is a list of pairs of a landmark id
    ([l_it->first]) and its distance ([l_it->second]). *)

(** [Witness_for_simplex(last_it, witness, limit_distance)], of
    [gudhi/Active_witness/Witness_for_simplex.h] (not among the sources): the
    fields read by [fill_edges].  [witness_] is only used there for
    [witness_->end()] and for the reference counter; the suffix [last_it_]
    carries its own end. *)
Record Witness_for_simplex : Type := Witness_list {
  last_it_ : list (Z * Q);
  limit_distance_ : xdist
}.

(** [sw_map[sk].emplace_back(w)] on the [std::map] from vertices to their
    witness lists, kept in increasing key order (all vertex keys share the
    root [Siblings], so the keys compare by vertex). *)
Fixpoint map_emplace_back (v : Z) (w : Witness_for_simplex)
    (sw_map : list (Z * list Witness_for_simplex))
    : list (Z * list Witness_for_simplex) :=
  match sw_map with
  | [] => [(v, [w])]
  | (v', ws) :: rest =>
      if v <? v' then (v, [w]) :: sw_map
      else if v =? v' then (v', ws ++ [w]) :: rest
      else (v', ws) :: map_emplace_back v w rest
  end.

Section Construction.

Variable pol : reinsert_policy.

(** The closure oracle [all_faces_in(simplex, &filtration_value, sc)] of
    [gudhi/Witness_complex/all_faces_in.h], which is not among the sources: it
    is a parameter of [add_all_faces_of_dimension]. *)
Variable all_faces_in : list Z -> Q -> gmap (list Z) Q -> bool * Q.

(** The [for] loop of the branch [dim == 0] of [add_all_faces_of_dimension]. *)
Fixpoint scan_leaf (alpha2 : Q) (norelax_dist2 : xdist) (l_it : list (Z * Q))
    (simplex : list Z) (will_be_active : bool) (st : machine) {struct l_it}
    : bool * machine :=
  match l_it with
  | [] => (will_be_active, note_past_end st)
  | (l, d) :: l_next =>
      if negb (xle (d - alpha2)%Q norelax_dist2) then (will_be_active, st)
      else
        let candidate := simplex ++ [l] in
        let '(ok, filtration_value) :=
          all_faces_in candidate (Relaxed.relaxation d norelax_dist2) (complex st) in
        let '(will_be_active, st) :=
          if ok : bool
          then (true, with_complex st
                        (insert_simplex pol (complex st) candidate filtration_value))
          else (will_be_active, st) in
        let norelax_dist2 :=
          if xlt d norelax_dist2 then Finite d else norelax_dist2 in
        scan_leaf alpha2 norelax_dist2 l_next simplex will_be_active st
  end.

(** The [for] loop of the branch [dim > 0]: the first recursive call is made
    with [dim-1], the second with [dim]. *)
Fixpoint scan_inner
    (rec : Z -> xdist -> list (Z * Q) -> list Z -> machine -> option (bool * machine))
    (dim : Z) (alpha2 : Q) (norelax_dist2 : xdist) (l_it : list (Z * Q))
    (simplex : list Z) (will_be_active : bool) (st : machine) {struct l_it}
    : option (bool * machine) :=
  match l_it with
  | [] => Some (will_be_active, note_past_end st)
  | (l, d) :: next_it =>
      if negb (xle (d - alpha2)%Q norelax_dist2) then Some (will_be_active, st)
      else
        '(will_be_active, st) ←
          (match find (complex st) (simplex ++ [l]) with
           | Some _ =>
               '(b, st) ← rec (dim - 1) norelax_dist2 next_it (simplex ++ [l]) st;
               Some (b || will_be_active, st)
           | None => Some (will_be_active, st)
           end);
        let norelax_dist2 :=
          if xle d norelax_dist2 then Finite d else norelax_dist2 in
        '(b, st) ← rec dim norelax_dist2 next_it simplex st;
        scan_inner rec dim alpha2 norelax_dist2 next_it simplex
          (b || will_be_active) st
  end.

(** [bool add_all_faces_of_dimension(dim, alpha2, norelax_dist2, curr_l,
    simplex, sc, end)]; [depth] bounds the nesting of recursive calls. *)
Fixpoint add_all_faces_of_dimension (depth : nat) (dim : Z) (alpha2 : Q)
    (norelax_dist2 : xdist) (curr_l : list (Z * Q)) (simplex : list Z)
    (st : machine) {struct depth} : option (bool * machine) :=
  match depth with
  | O => None
  | S depth' =>
      match curr_l with
      | [] => Some (false, st)
      | _ :: _ =>
          if 0 <? dim then
            scan_inner (fun dim' => add_all_faces_of_dimension depth' dim' alpha2)
              dim alpha2 norelax_dist2 curr_l simplex false st
          else if dim =? 0 then
            Some (scan_leaf alpha2 norelax_dist2 curr_l simplex false st)
          else Some (false, st)
      end
  end.

(** [fill_vertices], first traversal of a row: the vertices it inserts.
    [filtration_value] is declared outside the loop and keeps its value from
    one step to the next. *)
Fixpoint insert_row_vertices (alpha2 : Q) (norelax_dist2 : xdist)
    (filtration_value : Q) (l_it : list (Z * Q)) (sc : gmap (list Z) Q)
    : gmap (list Z) Q :=
  match l_it with
  | [] => sc
  | (l, d) :: l_next =>
      if negb (xle (d - alpha2)%Q norelax_dist2) then sc
      else
        let filtration_value :=
          match norelax_dist2 with
          | Finite r => if Qgt_bool d r then (d - r)%Q else filtration_value
          | Infinity => filtration_value
          end in
        let norelax_dist2 := if xgt d norelax_dist2 then norelax_dist2 else Finite d in
        insert_row_vertices alpha2 norelax_dist2 filtration_value l_next
          (insert_simplex pol sc [l] filtration_value)
  end.

(** [fill_vertices], second traversal of a row: the entries it adds to the
    map from vertices to witnesses. *)
Fixpoint record_row_vertices (alpha2 : Q) (norelax_dist2 : xdist)
    (l_it : list (Z * Q)) (sw_map : list (Z * list Witness_for_simplex))
    : list (Z * list Witness_for_simplex) :=
  match l_it with
  | [] => sw_map
  | (l, d) :: l_next =>
      if negb (xle (d - alpha2)%Q norelax_dist2) then sw_map
      else
        let sw_map := map_emplace_back l (Witness_list l_it norelax_dist2) sw_map in
        let norelax_dist2 := if xlt d norelax_dist2 then Finite d else norelax_dist2 in
        record_row_vertices alpha2 norelax_dist2 l_next sw_map
  end.

(** [fill_vertices(alpha2, sc, aw_list, sw_map)]: the complex and the map it
    leaves.  The reference counters of the active witnesses
    ([aw_it->increase()]) are not modelled: nothing that writes to the complex
    reads them. *)
Definition fill_vertices (alpha2 : Q) (sc : gmap (list Z) Q)
    (aw_list : list (list (Z * Q)))
    : gmap (list Z) Q * list (Z * list Witness_for_simplex) :=
  (foldl (fun sc w => insert_row_vertices alpha2 Infinity 0%Q w sc) sc aw_list,
   foldl (fun sw_map w => record_row_vertices alpha2 Infinity w sw_map) [] aw_list).

(** [fill_edges], first pair of loops, inner [for]: the edges inserted for
    the vertex [v] from the cursor [l_it] on. *)
Fixpoint insert_vertex_edges (alpha2 : Q) (v : Z) (norelax_dist2 : xdist)
    (filtration_value : Q) (l_it : list (Z * Q)) (sc : gmap (list Z) Q)
    : gmap (list Z) Q :=
  match l_it with
  | [] => sc
  | (l, d) :: l_next =>
      if negb (xle (d - alpha2)%Q norelax_dist2) then sc
      else
        let filtration_value :=
          match norelax_dist2 with
          | Finite r => if Qgt_bool d r then (d - r)%Q else filtration_value
          | Infinity => filtration_value
          end in
        let norelax_dist2 := if xgt d norelax_dist2 then norelax_dist2 else Finite d in
        insert_vertex_edges alpha2 v norelax_dist2 filtration_value l_next
          (insert_simplex pol sc ([v] ++ [l]) filtration_value)
  end.

(** [fill_edges(alpha2, sc, aw_list, dim0_map, dim1_map)]: the complex it
    leaves.  Its second pair of loops fills [dim1_map] and erases witnesses
    whose counter is zero; neither is read by anything that writes to the
    complex ([fill_simplices] inserts nothing), so they are left out. *)
Definition fill_edges (alpha2 : Q) (sc : gmap (list Z) Q)
    (dim0_map : list (Z * list Witness_for_simplex)) : gmap (list Z) Q :=
  foldl (fun sc vw_pair =>
           foldl (fun sc w =>
                    insert_vertex_edges alpha2 (fst vw_pair) (limit_distance_ w) 0%Q
                      (tail (last_it_ w)) sc)
                 sc (snd vw_pair))
        sc dim0_map.

(** [bool create_complex(complex, max_alpha_square, limit_dimension)]: the
    returned flag and the complex it leaves.  [limit_dimension] is a
    [std::size_t], so the test [limit_dimension < 0] never holds.
    [fill_simplices] only prints, and [complex.set_dimension] only records an
    attribute. *)
Definition create_complex (nearest_landmark_table_ : list (list (Z * Q)))
    (complex : gmap (list Z) Q) (max_alpha_square : Q) (limit_dimension : N)
    : bool * gmap (list Z) Q :=
  if bool_decide (0 < num_vertices complex)%nat then (false, complex)
  else if negb (Qle_bool 0 max_alpha_square) then (false, complex)
  else if (limit_dimension <? 0)%N then (false, complex)
  else
    let active_witnesses := nearest_landmark_table_ in
    let '(complex, prev_dim_map) :=
      fill_vertices max_alpha_square complex active_witnesses in
    (true, fill_edges max_alpha_square complex prev_dim_map).

End Construction.

End New.

(** ** Further members of [class Relaxed_witness_complex] *)

(** [bool is_face(Simplex_handle face, Simplex_handle coface)], on the two
    vertex ranges [sc.simplex_vertex_range(face)] and
    [sc.simplex_vertex_range(coface)] (the container hands them out sorted in
    decreasing order, as the comment in the function says). *)
Fixpoint is_face (fvr cfvr : list Z) {struct cfvr} : bool :=
  match fvr, cfvr with
  | [], _ => true
  | _ :: _, [] => false
  | fv :: fv_next, cfv :: cfv_next =>
      if fv <? cfv then is_face fvr cfv_next
      else if fv =? cfv then is_face fv_next cfv_next
      else false
  end.

(** A vertex range in decreasing order. *)
Definition decreasing (vr : list Z) : Prop := StronglySorted (fun a b => b ≤ a) vr.

(** Every recorded filtration value is non-negative. *)
Definition values_nonneg (sc : gmap (list Z) Q) : Prop :=
  ∀ (S : list Z) (f : Q), sc !! S = Some f → (0 <= f)%Q.

(** Every simplex of [sc] is a simplex of [sc0] or has between [lo] and [hi]
    vertices. *)
Definition grown_within (sc0 sc : gmap (list Z) Q) (lo hi : nat) : Prop :=
  ∀ S : list Z, is_Some (sc !! S) →
    is_Some (sc0 !! S) ∨ (lo ≤ length S ∧ length S ≤ hi)%nat.

(** ** Properties of complexes and of runs *)

(** Every stored simplex of dimension at least 1 has its facets (one vertex
    left out) stored as well. *)
Definition closed_under_facets (sc : gmap (list Z) Q) : Prop :=
  ∀ S : list Z, is_Some (sc !! S) → (2 ≤ length S)%nat →
    ∀ i : nat, (i < length S)%nat → is_Some (sc !! delete i S).

(** Closure together with the order of the recorded values: every facet of a
    stored simplex of dimension at least 1 is stored with a value that is not
    larger. *)
Definition facets_recorded_below (sc : gmap (list Z) Q) : Prop :=
  ∀ (S : list Z) (f : Q), sc !! S = Some f → (2 ≤ length S)%nat →
    ∀ i : nat, (i < length S)%nat →
      ∃ f' : Q, sc !! delete i S = Some f' ∧ (f' <= f)%Q.

(** [F] is a face of [S]: a non-empty subsequence of the vertex tuple. *)
Definition face (F S : list Z) : Prop := F ≠ [] ∧ F `sublist_of` S.

(** Every simplex of [sc1] is a simplex of [sc2]. *)
Definition subcomplex (sc1 sc2 : gmap (list Z) Q) : Prop :=
  ∀ S : list Z, is_Some (sc1 !! S) → is_Some (sc2 !! S).

(** The empty simplex is not stored and every stored vertex has the value 0. *)
Definition vertices_at_zero (sc : gmap (list Z) Q) : Prop :=
  sc !! [] = None ∧ ∀ (l : Z) (v : Q), sc !! [l] = Some v → v = 0%Q.

(** The loop guard [!active_w.empty() && k <= limD && k < nbL] is false. *)
Definition loop_done (nbL : nat) (limD k : Z) (active_w : list nat) : Prop :=
  active_w = [] ∨ limD < k ∨ Z.of_nat nbL ≤ k.

(** The admissibility test [d - alpha <= norelax_dist] as a proposition. *)
Definition admissible (alpha : Q) (norelax_dist : xdist) (d : Q) : Prop :=
  match norelax_dist with
  | Finite r => (d - alpha <= r)%Q
  | Infinity => True
  end.

(** [norelax_dist] after a landmark at distance [d] was processed, in the
    words of the specification: [d] when [d <= norelax_dist], unchanged
    otherwise. *)
Definition norelax_after (norelax_dist : xdist) (d : Q) : xdist :=
  if xle d norelax_dist then Finite d else norelax_dist.

(** What the leaf loop does with a candidate: ask the closure oracle, insert
    on success. *)
Definition leaf_step (pol : reinsert_policy) (candidate : list Z) (d : Q)
    (norelax_dist : xdist) (will_be_active : bool) (st : machine) : bool * machine :=
  let '(ok, filtration_value) :=
    Relaxed.all_faces_in (complex st) candidate (Relaxed.relaxation d norelax_dist) in
  if ok
  then (true, with_complex st
                (insert_simplex pol (complex st) candidate filtration_value))
  else (will_be_active, st).

(** What the inner loop does with a candidate: recurse on it when it is in
    the complex. *)
Definition include_step
    (rec : xdist -> list Q -> list Z -> list Z -> machine -> option (bool * machine))
    (norelax_dist : xdist) (d_next : list Q) (l_next : list Z) (candidate : list Z)
    (will_be_active : bool) (st : machine) : option (bool * machine) :=
  match find (complex st) candidate with
  | Some _ =>
      '(b, st) ← rec norelax_dist d_next l_next candidate st;
      Some (b || will_be_active, st)
  | None => Some (will_be_active, st)
  end.

(** [max(0, d - norelax_dist)], with [d - infinity] below [0]. *)
Definition relaxation_cost (d : Q) (norelax_dist : xdist) : Q :=
  match norelax_dist with
  | Finite r => Qmax 0 (d - r)
  | Infinity => 0%Q
  end.

(** The recorded filtration values of the facets of [simplex], in the order
    in which the closure oracle visits them; [None] when a facet is missing. *)
Definition facet_filtrations (sc : gmap (list Z) Q) (simplex : list Z)
    : option (list Q) :=
  mapM (fun i => find sc (delete i simplex)) (seq 0 (length simplex)).

(** The maximum of a non-empty list [f :: fs]. *)
Definition closure_bound (f : Q) (fs : list Q) : Q := foldl Qmax f fs.

(** Every landmark of the row passes the admissibility test, whatever
    distance of the row the bound [norelax_dist] has been set to. *)
Definition all_admissible (alpha : Q) (ds : list Q) : Prop :=
  ∀ d d' : Q, d ∈ ds → d' ∈ ds → (d - alpha <= d')%Q.

(** The bound [nd] admits every distance of the row. *)
Definition admits_row (alpha : Q) (row_distances : list Q) (nd : xdist) : Prop :=
  ∀ d : Q, d ∈ row_distances → xle (d - alpha)%Q nd = true.

(** An entry of the map from vertices to witnesses is good for [G] when the
    edges [fill_edges] inserts for it are simplices of [G], whatever complex
    it inserts them into. *)
Definition good_entry (pol : reinsert_policy) (alpha : Q) (G : gmap (list Z) Q)
    (vw_pair : Z * list New.Witness_for_simplex) : Prop :=
  ∀ w : New.Witness_for_simplex, w ∈ snd vw_pair →
    ∀ (sc : gmap (list Z) Q) (fv : Q),
      subcomplex sc G →
      subcomplex
        (New.insert_vertex_edges pol alpha (fst vw_pair) (New.limit_distance_ w) fv
           (tail (New.last_it_ w)) sc) G.

(** The two complexes hold the same simplices with the same values. *)
Definition same_filtered_complex (sc1 sc2 : gmap (list Z) Q) : Prop :=
  ∀ S : list Z,
    match sc1 !! S, sc2 !! S with
    | Some f1, Some f2 => (f1 == f2)%Q
    | None, None => True
    | _, _ => False
    end.

(** The strategies are equivalent, as stated: on every table the two
    constructions end with the same filtered complex. *)
Definition strategies_equivalent (pol : reinsert_policy) : Prop :=
  ∀ (table : list (list (Z * Q))) (nbL : nat) (alpha : Q) (limD : Z) out,
    0 ≤ limD →
    Relaxed.Relaxed_witness_complex pol ((fun row => row.*2) <$> table)
      ((fun row => row.*1) <$> table) ∅ nbL alpha limD = Some out →
    same_filtered_complex (complex out)
      (snd (New.create_complex pol table ∅ alpha (Z.to_N limD))).

(** The relaxation-window scenario: one witness with the row
    [(0,1.0), (1,1.2), (2,5.0)]. *)
Definition window_distances : list (list Q) := [[1%Q; (12 # 10)%Q; 5%Q]].
Definition window_knn : list (list Z) := [[0; 1; 2]].

(** The nearest-landmark table of the relaxation-window scenario. *)
Definition window_table : list (list (Z * Q)) :=
  [[(0, 1%Q); (1, (12 # 10)%Q); (2, 5%Q)]].

(** The complex of the relaxation-window scenario. *)
Definition window_complex : gmap (list Z) Q :=
  list_to_map [([0], 0%Q); ([1], 0%Q); ([2], 0%Q); ([0; 1], 0%Q)].

(** What the scenario is said to produce: vertices 0 and 1 and the edge
    {0,1} are present, the vertex 2 and every edge at 2 are absent. *)
Definition window_scenario_as_stated (out : gmap (list Z) Q) : Prop :=
  is_Some (find out [0]) ∧ is_Some (find out [1]) ∧ is_Some (find out [0; 1]) ∧
  find out [2] = None ∧ ∀ v : Z, find out [v; 2] = None.

(** Rejection of the arguments by the constructor, as stated: with a negative
    [alpha] or a negative [limD] no part of the complex is built. *)
Definition constructor_rejects_negative (pol : reinsert_policy) : Prop :=
  ∀ distances knn sc_ nbL alpha limD out,
    (alpha < 0)%Q ∨ limD < 0 →
    Relaxed.Relaxed_witness_complex pol distances knn sc_ nbL alpha limD = Some out →
    complex out = sc_.

(** The two nearest-landmark tables of the zero-distance-gap scenario: one
    witness at distance 1 from the landmarks 0, 1 and 2. *)
Definition tie_distances : list (list Q) := [[1%Q; 1%Q; 1%Q]].
Definition tie_knn : list (list Z) := [[0; 1; 2]].
Definition tie_table : list (list (Z * Q)) := [[(0, 1%Q); (1, 1%Q); (2, 1%Q)]].

(** ** Comparing the two constructions *)

(** The landmarks of a row that a guarded scan started with the bound
    [norelax_dist] reaches: the row up to the first landmark with
    [d - alpha > norelax_dist], the bound following [norelax_after]. *)
Fixpoint admitted (alpha : Q) (norelax_dist : xdist) (row : list (Z * Q)) : list Z :=
  match row with
  | [] => []
  | (l, d) :: rest =>
      if xle (d - alpha)%Q norelax_dist
      then l :: admitted alpha (norelax_after norelax_dist d) rest
      else []
  end.

(** Every row of the table lists its landmarks by non-decreasing distance. *)
Definition rows_sorted (table : list (list (Z * Q))) : Prop :=
  ∀ row, row ∈ table → StronglySorted Qle (row.*2).

(** The two complexes hold the same edges. *)
Definition same_edges (sc1 sc2 : gmap (list Z) Q) : Prop :=
  ∀ K : list Z, length K = 2%nat → (is_Some (sc1 !! K) ↔ is_Some (sc2 !! K)).

(** The edges the two complexes share have the same value in both. *)
Definition same_edge_values (sc1 sc2 : gmap (list Z) Q) : Prop :=
  ∀ (K : list Z) (f1 f2 : Q), length K = 2%nat →
    sc1 !! K = Some f1 → sc2 !! K = Some f2 → (f1 == f2)%Q.

(** Every simplex of [sc] is a simplex of [sc'], with a value that is not
    larger there. *)
Definition lowered (sc sc' : gmap (list Z) Q) : Prop :=
  ∀ (K : list Z) (f : Q), sc !! K = Some f → ∃ f', sc' !! K = Some f' ∧ (f' <= f)%Q.

(** Every edge of [sc] is an edge of [G]; when [V] holds, with a value that
    is not larger in [G]. *)
Definition edges_below (V : Prop) (sc G : gmap (list Z) Q) : Prop :=
  ∀ (K : list Z) (f : Q), length K = 2%nat → sc !! K = Some f →
    ∃ g, G !! K = Some g ∧ (V → (g <= f)%Q).

(** [G] holds the edges from [v] to the landmarks that the guarded scan of
    [suf] from the bound [nd] reaches; when [V] holds, with a value that is at
    most the relaxation at that landmark. *)
Fixpoint edge_good (alpha : Q) (G : gmap (list Z) Q) (V : Prop) (v : Z)
    (nd : xdist) (suf : list (Z * Q)) : Prop :=
  match suf with
  | [] => True
  | (l, d) :: rest =>
      xle (d - alpha)%Q nd = true →
      (∃ g, G !! sorted_key [v; l] = Some g ∧ (V → (g <= Relaxed.relaxation d nd)%Q)) ∧
      edge_good alpha G V v (norelax_after nd d) rest
  end.

(** [G] holds, for every landmark that the guarded scan of [suf] from the
    bound [nd] reaches, the edges from it to the landmarks that the scan of
    the rest of the row from the same bound reaches. *)
Fixpoint top_good (alpha : Q) (G : gmap (list Z) Q) (V : Prop)
    (nd : xdist) (suf : list (Z * Q)) : Prop :=
  match suf with
  | [] => True
  | (l, d) :: rest =>
      xle (d - alpha)%Q nd = true →
      edge_good alpha G V l nd rest ∧ top_good alpha G V (norelax_after nd d) rest
  end.

(** What a call of [add_all_faces_of_dimension] with the prefix [simplex],
    the bound [nd] and the cursor on [suf] can rely on. *)
Definition state_good (alpha : Q) (G : gmap (list Z) Q) (V : Prop)
    (simplex : list Z) (nd : xdist) (suf : list (Z * Q)) : Prop :=
  match simplex with
  | [] => top_good alpha G V nd suf
  | [v] => edge_good alpha G V v nd suf
  | _ => True
  end.

(** The value carried in [filtration_value] by the loops of [fill_vertices]
    and [fill_edges] is 0, or every distance still to come exceeds the bound
    (and overwrites it). *)
Definition fresh_value (nd : xdist) (fv : Q) (suf : list (Z * Q)) : Prop :=
  (fv == 0)%Q ∨ ∀ d : Q, d ∈ suf.*2 → xle d nd = false.

(** Every witness recorded for a vertex in the map satisfies [Qw]. *)
Definition all_entries (Qw : Z → New.Witness_for_simplex → Prop)
    (sw_map : list (Z * list New.Witness_for_simplex)) : Prop :=
  ∀ v ws w, (v, ws) ∈ sw_map → w ∈ ws → Qw v w.

(** Two witnesses that reach the edge {0,1} at different relaxations. *)
Definition order_table : list (list (Z * Q)) :=
  [[(1, 1%Q); (0, 1%Q)]; [(0, 1%Q); (2, 1%Q); (1, 2%Q)]].

(** One witness whose row is not sorted by distance. *)
Definition stale_table : list (list (Z * Q)) :=
  [[(0, 1%Q); (1, 1%Q); (2, 2%Q); (3, 1%Q)]].

(** One witness whose second landmark has an id that is not below the
    landmark count 2. *)
Definition stray_table : list (list (Z * Q)) := [[(0, 1%Q); (5, 1%Q)]].

(** One witness that lists the only landmark twice. *)
Definition repeat_table : list (list (Z * Q)) := [[(0, 1%Q); (0, 1%Q)]].

(** The value the rescanning construction, started on the empty complex,
    records for the simplex [S]. *)
Definition naive_value (pol : reinsert_policy) (table : list (list (Z * Q)))
    (nbL : nat) (alpha : Q) (limD : Z) (S : list Z) : option Q :=
  out ← Relaxed.Relaxed_witness_complex pol ((fun row => row.*2) <$> table)
           ((fun row => row.*1) <$> table) ∅ nbL alpha limD;
  complex out !! S.

(** The value [create_complex], started on the empty complex, records for the
    simplex [S]. *)
Definition incremental_value (pol : reinsert_policy) (table : list (list (Z * Q)))
    (alpha : Q) (S : list Z) : option Q :=
  snd (New.create_complex pol table ∅ alpha 0) !! S.

(** * Proofs *)

Example find_sorts :
  find (insert_simplex Keep_recorded ∅ [2; 0; 1] 1%Q) [1; 2; 0] = Some 1%Q.
Proof. vm_compute. reflexivity. Qed.

(** ** Comparisons *)

Lemma xle_true q x :
  xle q x = true ↔ match x with Finite r => (q <= r)%Q | Infinity => True end.
Proof. destruct x; simpl; [apply Qle_bool_iff | tauto]. Qed.

Lemma xle_false q x :
  xle q x = false ↔ match x with Finite r => (r < q)%Q | Infinity => False end.
Proof.
  destruct x as [r|]; simpl.
  - rewrite <- not_true_iff_false, Qle_bool_iff. split; [apply Qnot_le_lt | apply Qlt_not_le].
  - split; [discriminate | tauto].
Qed.

Lemma Qgt_bool_true a b : Qgt_bool a b = true ↔ (b < a)%Q.
Proof.
  unfold Qgt_bool. rewrite negb_true_iff, <- not_true_iff_false, Qle_bool_iff.
  split; [apply Qnot_le_lt | apply Qlt_not_le].
Qed.

Lemma Qgt_bool_false a b : Qgt_bool a b = false ↔ (a <= b)%Q.
Proof. unfold Qgt_bool. rewrite negb_false_iff. apply Qle_bool_iff. Qed.

Lemma xlt_true q x :
  xlt q x = true ↔ match x with Finite r => (q < r)%Q | Infinity => True end.
Proof. destruct x as [r|]; simpl; [apply (Qgt_bool_true r q) | tauto]. Qed.

(** ** The container *)

Lemma sorted_key_Permutation s : sorted_key s ≡ₚ s.
Proof. apply merge_sort_Permutation. Qed.

Lemma sorted_key_length s : length (sorted_key s) = length s.
Proof. apply Permutation_length, sorted_key_Permutation. Qed.

Lemma sorted_key_sorted s : StronglySorted Z.le (sorted_key s).
Proof. apply StronglySorted_merge_sort; apply _. Qed.

Lemma lookup_insert_simplex pol sc s f K :
  insert_simplex pol sc s f !! K =
    if decide (sorted_key s = K) then Some (recorded pol (sc !! sorted_key s) f)
    else sc !! K.
Proof. unfold insert_simplex. apply lookup_insert. Qed.

Lemma insert_simplex_subcomplex pol sc s f :
  subcomplex sc (insert_simplex pol sc s f).
Proof.
  intros K HK. rewrite lookup_insert_simplex. case_decide; eauto.
Qed.

Lemma recorded_cases pol old f :
  recorded pol old f = f ∨
  ∃ f0, old = Some f0 ∧ recorded pol old f = f0 ∧
        (pol = Keep_recorded ∨ (f0 <= f)%Q).
Proof.
  destruct old as [f0|]; simpl; [|by left].
  destruct pol; [right; eauto|].
  destruct (Qgt_bool f0 f) eqn:E; [by left|].
  apply Qgt_bool_false in E. right; eauto.
Qed.

Lemma recorded_le_old pol f0 f : (recorded pol (Some f0) f <= f0)%Q.
Proof.
  simpl. destruct pol; [apply Qle_refl|].
  destruct (Qgt_bool f0 f) eqn:E; [|apply Qle_refl].
  apply Qgt_bool_true in E. by apply Qlt_le_weak.
Qed.

(** ** Facets and canonical keys *)

Lemma StronglySorted_sublist (l k : list Z) :
  k `sublist_of` l → StronglySorted Z.le l → StronglySorted Z.le k.
Proof.
  induction 1 as [|x k l Hkl IH|x k l Hkl IH]; intros Hs.
  - constructor.
  - apply StronglySorted_inv in Hs as [Hs Hx]. constructor; [auto|].
    rewrite Forall_forall in Hx |- *. intros y Hy. apply Hx.
    by eapply elem_of_sublist.
  - apply StronglySorted_inv in Hs as [Hs _]. auto.
Qed.

(** Leaving a position out of the canonical key is the canonical key of the
    candidate with some position left out, and the other way round. *)
Lemma delete_sorted_key (c : list Z) (j : nat) :
  (j < length c)%nat →
  ∃ i : nat, (i < length c)%nat ∧ delete j (sorted_key c) = sorted_key (delete i c).
Proof.
  intros Hj.
  destruct (lookup_lt_is_Some_2 (sorted_key c) j) as [x Hx].
  { by rewrite sorted_key_length. }
  assert (x ∈ c) as Hin.
  { rewrite <- (sorted_key_Permutation c). by eapply list_elem_of_lookup_2. }
  apply list_elem_of_lookup_1 in Hin as [i Hi].
  exists i. split; [by eapply lookup_lt_Some|].
  apply (StronglySorted_unique Z.le).
  - eapply StronglySorted_sublist; [apply sublist_delete | apply sorted_key_sorted].
  - apply sorted_key_sorted.
  - etrans; [|symmetry; apply sorted_key_Permutation].
    apply (inj (cons x)).
    etrans; [symmetry; apply (delete_Permutation _ _ _ Hx)|].
    etrans; [apply sorted_key_Permutation|].
    apply (delete_Permutation _ _ _ Hi).
Qed.

Lemma sublist_facet (F S : list Z) :
  F `sublist_of` S →
  F = S ∨ ∃ i : nat, (i < length S)%nat ∧ F `sublist_of` delete i S.
Proof.
  induction 1 as [|x F S HFS IH|x F S HFS IH].
  - by left.
  - destruct IH as [->|(i & Hi & IH)]; [by left|].
    right. exists (Datatypes.S i). split; [simpl; lia|]. simpl. by constructor.
  - right. exists 0%nat. split; [simpl; lia|]. done.
Qed.

(** ** The closure oracle *)

Lemma all_faces_in_from_true sc simplex not_its fv0 fv :
  Relaxed.all_faces_in_from sc simplex not_its fv0 = (true, fv) →
  (fv0 <= fv)%Q ∧
  ∀ i, i ∈ not_its → ∃ f, find sc (delete i simplex) = Some f ∧ (f <= fv)%Q.
Proof.
  revert fv0. induction not_its as [|j rest IH]; intros fv0 H; simpl in H.
  - inversion H; subst. split; [apply Qle_refl|]. intros i Hi. by apply elem_of_nil in Hi.
  - destruct (find sc (delete j simplex)) as [f|] eqn:Hf; [|discriminate].
    apply IH in H as [Hle Hall].
    assert ((fv0 <= fv)%Q ∧ (f <= fv)%Q) as [H1 H2].
    { destruct (Qgt_bool f fv0) eqn:E.
      - apply Qgt_bool_true in E. split; [|done].
        eapply Qle_trans; [apply Qlt_le_weak, E | done].
      - apply Qgt_bool_false in E. split; [done|]. by eapply Qle_trans. }
    split; [done|]. intros i [->|Hi]%elem_of_cons; eauto.
Qed.

Lemma all_faces_in_from_flag sc simplex not_its fv0 :
  fst (Relaxed.all_faces_in_from sc simplex not_its fv0) = true ↔
  ∀ i, i ∈ not_its → is_Some (find sc (delete i simplex)).
Proof.
  revert fv0. induction not_its as [|j rest IH]; intros fv0; simpl.
  - split; [|done]. intros _ i Hi. by apply elem_of_nil in Hi.
  - destruct (find sc (delete j simplex)) as [f|] eqn:Hf; simpl.
    + rewrite IH. split.
      * intros H i [->|Hi]%elem_of_cons; [by rewrite Hf | auto].
      * intros H i Hi. apply H. by right.
    + split; [discriminate|]. intros H.
      destruct (H j) as [? Hj]; [by left|]. congruence.
Qed.

Lemma all_faces_in_true sc simplex fv0 fv :
  Relaxed.all_faces_in sc simplex fv0 = (true, fv) →
  (fv0 <= fv)%Q ∧
  ∀ i, (i < length simplex)%nat →
    ∃ f, find sc (delete i simplex) = Some f ∧ (f <= fv)%Q.
Proof.
  intros H. apply all_faces_in_from_true in H as [H1 H2]. split; [done|].
  intros i Hi. apply H2. apply elem_of_seq. lia.
Qed.

Lemma all_faces_in_flag sc simplex fv0 :
  fst (Relaxed.all_faces_in sc simplex fv0) = true ↔
  ∀ i, (i < length simplex)%nat → is_Some (find sc (delete i simplex)).
Proof.
  unfold Relaxed.all_faces_in. rewrite all_faces_in_from_flag.
  split; intros H i Hi; apply H; [apply elem_of_seq; lia|].
  apply elem_of_seq in Hi. lia.
Qed.

(** ** Insertion keeps the complex closed and the recorded values ordered *)

Lemma closed_under_facets_insert pol sc cand fv :
  ((2 ≤ length cand)%nat →
   ∀ i, (i < length cand)%nat → is_Some (find sc (delete i cand))) →
  closed_under_facets sc →
  closed_under_facets (insert_simplex pol sc cand fv).
Proof.
  intros Hfacets Hsc S HS Hlen i Hi.
  apply insert_simplex_subcomplex.
  rewrite lookup_insert_simplex in HS. case_decide as HK; [|by apply Hsc].
  subst S. rewrite sorted_key_length in Hlen, Hi.
  destruct (delete_sorted_key cand i Hi) as (i' & Hi' & ->).
  by apply Hfacets.
Qed.

Lemma facets_recorded_below_insert pol sc cand fv :
  ((2 ≤ length cand)%nat →
   ∀ i, (i < length cand)%nat →
     ∃ f, find sc (delete i cand) = Some f ∧ (f <= fv)%Q) →
  facets_recorded_below sc →
  facets_recorded_below (insert_simplex pol sc cand fv).
Proof.
  intros Hfacets Hsc S f HS Hlen i Hi.
  rewrite lookup_insert_simplex in HS.
  rewrite lookup_insert_simplex.
  case_decide as HK.
  - (* S is the inserted simplex *)
    subst S. rewrite sorted_key_length in Hlen, Hi.
    case_decide as HK'.
    { apply (f_equal length) in HK'. rewrite length_delete in HK'.
      - rewrite sorted_key_length in HK'. exfalso; lia.
      - apply lookup_lt_is_Some_2. by rewrite sorted_key_length. }
    inversion HS as [Hf]. clear HS.
    destruct (delete_sorted_key cand i Hi) as (i' & Hi' & Heq).
    destruct (Hfacets Hlen i' Hi') as (f' & Hf' & Hle).
    unfold find in Hf'. rewrite <- Heq in Hf'.
    exists f'. split; [done|].
    destruct (recorded_cases pol (sc !! sorted_key cand) fv)
      as [->|(f0 & Hold & -> & _)]; [done|].
    destruct (Hsc _ _ Hold) with (i := i) as (f'' & Hf'' & Hle'').
    + by rewrite sorted_key_length.
    + by rewrite sorted_key_length.
    + congruence.
  - (* S was stored before *)
    destruct (Hsc _ _ HS Hlen i Hi) as (f' & Hf' & Hle).
    case_decide as HK'; [|eauto].
    rewrite <- HK' in Hf'. rewrite Hf'. eexists. split; [done|].
    eapply Qle_trans; [apply recorded_le_old | done].
Qed.

Lemma facets_recorded_below_closed sc :
  facets_recorded_below sc → closed_under_facets sc.
Proof.
  intros H S [f HS] Hlen i Hi.
  destruct (H S f HS Hlen i Hi) as (f' & Hf' & _). eauto.
Qed.

(** ** Unfolding the recursive calls one step *)

Lemma add_all_faces_of_dimension_S pol depth dim alpha nd ds ls simplex st :
  Relaxed.add_all_faces_of_dimension pol (S depth) dim alpha nd ds ls simplex st =
    match ls with
    | [] => Some (false, st)
    | _ :: _ =>
        if 0 <? dim then
          Relaxed.scan_inner
            (Relaxed.add_all_faces_of_dimension pol depth (dim - 1) alpha)
            alpha nd ds ls simplex false st
        else if dim =? 0 then
          Some (Relaxed.scan_leaf pol alpha nd ds ls simplex false st)
        else Some (false, st)
    end.
Proof. reflexivity. Qed.

Lemma witness_pass_cons pol distances knn k alpha w rest st :
  Relaxed.witness_pass pol distances knn k alpha (w :: rest) st =
    match
      Relaxed.add_all_faces_of_dimension pol (S (length (knn !!! w))) k alpha
        Infinity (distances !!! w) (knn !!! w) [] st
    with
    | Some (ok, st) =>
        match Relaxed.witness_pass pol distances knn k alpha rest st with
        | Some (rest, st) => Some (if ok then w :: rest else rest, st)
        | None => None
        end
    | None => None
    end.
Proof.
  simpl. destruct (match knn !!! w with [] => _ | _ :: _ => _ end) as [[ok st1]|];
    simpl; [|done].
  by destruct (Relaxed.witness_pass _ _ _ _ _ _ _) as [[rest' st2]|].
Qed.

Lemma construction_loop_S pol fuel distances knn nbL alpha limD k active_w st :
  Relaxed.construction_loop pol (S fuel) distances knn nbL alpha limD k active_w st =
    if bool_decide (active_w ≠ []) && (k <=? limD) && (k <? Z.of_nat nbL)
    then
      match Relaxed.witness_pass pol distances knn k alpha active_w st with
      | Some (active_w, st) =>
          Relaxed.construction_loop pol fuel distances knn nbL alpha limD
            (k + 1) active_w st
      | None => None
      end
    else Some (k, active_w, st).
Proof.
  simpl. destruct (_ && _); [|done].
  by destruct (Relaxed.witness_pass _ _ _ _ _ _ _) as [[aw1 st1]|].
Qed.

Global Arguments Relaxed.add_all_faces_of_dimension : simpl never.
Global Arguments Relaxed.witness_pass : simpl never.
Global Arguments Relaxed.construction_loop : simpl never.

(** ** Properties of the complex that every step of the construction keeps *)

Section Preservation.

Variable pol : reinsert_policy.
Variable P : gmap (list Z) Q → Prop.

(** [P] survives the insertion of a non-empty candidate that the closure
    oracle accepted. *)
Hypothesis P_insert : ∀ sc cand fv0 fv,
  cand ≠ [] → Relaxed.all_faces_in sc cand fv0 = (true, fv) →
  P sc → P (insert_simplex pol sc cand fv).

Lemma scan_leaf_preserves alpha nd ds ls simplex wba st :
  P (complex st) →
  P (complex (snd (Relaxed.scan_leaf pol alpha nd ds ls simplex wba st))).
Proof using P_insert.
  revert nd ds wba st.
  induction ls as [|l ls IH]; intros nd ds wba st HP; destruct ds as [|d ds]; simpl;
    try done.
  - by destruct (xle _ _).
  - destruct (xle (d - alpha) nd); simpl; [|done].
    destruct (Relaxed.all_faces_in (complex st) (simplex ++ [l])
                (Relaxed.relaxation d nd)) as [[] fv] eqn:E.
    + apply IH. simpl. eapply P_insert; [|done..]. by destruct simplex.
    + by apply IH.
Qed.

Lemma scan_inner_preserves rec alpha nd ds ls simplex wba st b st' :
  (∀ nd ds ls simplex st b st',
     rec nd ds ls simplex st = Some (b, st') → P (complex st) → P (complex st')) →
  Relaxed.scan_inner rec alpha nd ds ls simplex wba st = Some (b, st') →
  P (complex st) → P (complex st').
Proof.
  intros Hrec. revert nd ds wba st.
  induction ls as [|l ls IH]; intros nd ds wba st Hrun HP;
    destruct ds as [|d ds]; simpl in Hrun.
  - by inversion Hrun; subst.
  - destruct (xle _ _); by inversion Hrun; subst.
  - by inversion Hrun; subst.
  - destruct (xle (d - alpha) nd); simpl in Hrun; [|by inversion Hrun; subst].
    destruct (find (complex st) (simplex ++ [l])) as [f|].
    + destruct (rec nd ds ls (simplex ++ [l]) st) as [[b1 st1]|] eqn:E1;
        simpl in Hrun; [|done].
      destruct (rec _ ds ls simplex st1) as [[b2 st2]|] eqn:E2;
        simpl in Hrun; [|done].
      eapply IH; [done|]. eapply Hrec; [done|]. by eapply Hrec.
    + simpl in Hrun.
      destruct (rec _ ds ls simplex st) as [[b2 st2]|] eqn:E2;
        simpl in Hrun; [|done].
      eapply IH; [done|]. by eapply Hrec.
Qed.

Lemma add_all_faces_of_dimension_preserves depth dim alpha nd ds ls simplex st b st' :
  Relaxed.add_all_faces_of_dimension pol depth dim alpha nd ds ls simplex st
    = Some (b, st') →
  P (complex st) → P (complex st').
Proof using P_insert.
  revert dim nd ds ls simplex st b st'.
  induction depth as [|depth IH]; intros dim nd ds ls simplex st b st' Hrun HP;
    [done|].
  rewrite add_all_faces_of_dimension_S in Hrun.
  destruct ls as [|l ls]; [by inversion Hrun; subst|].
  destruct (0 <? dim).
  - eapply scan_inner_preserves; [|done..]. intros; by eapply IH.
  - destruct (dim =? 0); [|by inversion Hrun; subst].
    assert (Relaxed.scan_leaf pol alpha nd ds (l :: ls) simplex false st = (b, st'))
      as Hleaf by congruence.
    pose proof (scan_leaf_preserves alpha nd ds (l :: ls) simplex false st HP) as H.
    by rewrite Hleaf in H.
Qed.

Lemma witness_pass_preserves distances knn k alpha active_w st active_w' st' :
  Relaxed.witness_pass pol distances knn k alpha active_w st = Some (active_w', st') →
  P (complex st) → P (complex st').
Proof using P_insert.
  revert st active_w' st'.
  induction active_w as [|w rest IH]; intros st active_w' st' Hrun HP.
  - by inversion Hrun; subst.
  - rewrite witness_pass_cons in Hrun.
    destruct (Relaxed.add_all_faces_of_dimension _ _ _ _ _ _ _ _ _)
      as [[ok st1]|] eqn:E1; [|done].
    destruct (Relaxed.witness_pass _ _ _ _ _ rest st1) as [[rest' st2]|] eqn:E2;
      [|done].
    inversion Hrun; subst.
    eapply IH; [done|]. by eapply add_all_faces_of_dimension_preserves.
Qed.

Lemma construction_loop_preserves fuel distances knn nbL alpha limD k active_w st
    k' active_w' st' :
  Relaxed.construction_loop pol fuel distances knn nbL alpha limD k active_w st
    = Some (k', active_w', st') →
  P (complex st) → P (complex st').
Proof using P_insert.
  revert k active_w st.
  induction fuel as [|fuel IH]; intros k active_w st Hrun HP; [done|].
  rewrite construction_loop_S in Hrun.
  destruct (_ && _).
  - destruct (Relaxed.witness_pass _ _ _ _ _ _ _) as [[aw1 st1]|] eqn:E1; [|done].
    eapply IH; [done|]. by eapply witness_pass_preserves.
  - by inversion Hrun; subst.
Qed.

End Preservation.

Lemma insert_landmarks_preserves (pol : reinsert_policy)
    (P : gmap (list Z) Q → Prop) (nbL : nat) (sc : gmap (list Z) Q) :
  (∀ sc v, P sc → P (insert_simplex pol sc [v] 0%Q)) →
  P sc → P (Relaxed.insert_landmarks pol nbL sc).
Proof.
  intros Hv. unfold Relaxed.insert_landmarks. generalize (seq 0 nbL) as idx.
  intros idx. revert sc. induction idx as [|i idx IH]; intros sc HP; simpl; auto.
Qed.

Lemma Relaxed_witness_complex_Some pol distances knn sc_ nbL alpha limD out :
  Relaxed.Relaxed_witness_complex pol distances knn sc_ nbL alpha limD = Some out ↔
  ∃ k active_w,
    Relaxed.construction_loop pol (S nbL) distances knn nbL alpha limD 1
      (seq 0 (length knn)) (Machine (Relaxed.insert_landmarks pol nbL sc_) 0)
    = Some (k, active_w, out).
Proof.
  unfold Relaxed.Relaxed_witness_complex.
  destruct (Relaxed.construction_loop _ _ _ _ _ _ _ _ _ _) as [[[k aw] st]|]; simpl.
  - split; [intros [= ->]; eauto | intros (? & ? & [= _ _ ->]); done].
  - split; [done | intros (? & ? & ?); done].
Qed.

(** A property of the complex that holds of the complex handed to the
    constructor, and that insertions of landmarks and of accepted candidates
    keep, holds of the complex the constructor leaves. *)
Lemma Relaxed_witness_complex_preserves (pol : reinsert_policy)
    (P : gmap (list Z) Q → Prop) distances knn sc_ nbL alpha limD out :
  (∀ sc v, P sc → P (insert_simplex pol sc [v] 0%Q)) →
  (∀ sc cand fv0 fv, cand ≠ [] → Relaxed.all_faces_in sc cand fv0 = (true, fv) →
     P sc → P (insert_simplex pol sc cand fv)) →
  P sc_ →
  Relaxed.Relaxed_witness_complex pol distances knn sc_ nbL alpha limD = Some out →
  P (complex out).
Proof.
  intros Hv Hins HP (k & aw & Hrun)%Relaxed_witness_complex_Some.
  eapply construction_loop_preserves in Hrun; [done..|].
  simpl. by apply insert_landmarks_preserves.
Qed.

Lemma closed_under_facets_empty : closed_under_facets ∅.
Proof. intros S [f Hf]. by rewrite lookup_empty in Hf. Qed.

Lemma facets_recorded_below_empty : facets_recorded_below ∅.
Proof. intros S f Hf. by rewrite lookup_empty in Hf. Qed.

(** The recorded values are ordered along every face, not only along facets. *)
Lemma faces_recorded_below sc :
  facets_recorded_below sc →
  ∀ (S F : list Z) (fS : Q), sc !! S = Some fS → face F S →
    ∃ fF : Q, sc !! F = Some fF ∧ (fF <= fS)%Q.
Proof.
  intros Hsc S. remember (length S) as n eqn:Hn. revert S Hn.
  induction n as [n IH] using lt_wf_ind. intros S Hn F fS HS [Hne Hsub].
  destruct (sublist_facet F S Hsub) as [->|(i & Hi & Hsub')].
  { exists fS. split; [done | apply Qle_refl]. }
  assert (2 ≤ length S)%nat as Hlen.
  { apply sublist_length in Hsub'. rewrite length_delete in Hsub'.
    - destruct F; [done|]. simpl in Hsub'. lia.
    - by apply lookup_lt_is_Some_2. }
  destruct (Hsc S fS HS Hlen i Hi) as (f' & Hf' & Hle).
  destruct (IH (length (delete i S))) with (S := delete i S) (F := F) (fS := f')
    as (fF & HfF & HleF); [|done|done|done|].
  - rewrite length_delete; [lia|]. by apply lookup_lt_is_Some_2.
  - exists fF. split; [done|]. by eapply Qle_trans.
Qed.

(** C1.  Closure.  The closure oracle [all_faces_in] answers [true] exactly
    when every facet of the candidate (one position left out) is found in the
    complex; a step of the leaf loop whose candidate lacks a facet leaves the
    complex as it is; and when the constructor is handed a complex that is
    closed under facets (the empty one, say), every simplex of dimension at
    least 1 of the complex it leaves has all its facets in that complex. *)
Theorem closure_of_output pol distances knn sc_ nbL alpha limD out :
  closed_under_facets sc_ →
  Relaxed.Relaxed_witness_complex pol distances knn sc_ nbL alpha limD = Some out →
  (∀ sc simplex fv0,
     fst (Relaxed.all_faces_in sc simplex fv0) = true ↔
     ∀ i, (i < length simplex)%nat → is_Some (find sc (delete i simplex))) ∧
  (∀ nd d ds l ls simplex wba st i,
     xle (d - alpha)%Q nd = true →
     (i < length (simplex ++ [l]))%nat →
     find (complex st) (delete i (simplex ++ [l])) = None →
     ∃ nd', Relaxed.scan_leaf pol alpha nd (d :: ds) (l :: ls) simplex wba st =
            Relaxed.scan_leaf pol alpha nd' ds ls simplex wba st) ∧
  closed_under_facets (complex out).
Proof.
  intros Hsc Hrun. split; [|split].
  - intros. apply all_faces_in_flag.
  - intros nd d ds l ls simplex wba st i Hadm Hi Hnone. simpl. rewrite Hadm. simpl.
    destruct (Relaxed.all_faces_in _ _ _) as [ok fv] eqn:E.
    assert (ok = false) as ->.
    { destruct ok; [|done]. apply all_faces_in_true in E as [_ E].
      destruct (E i Hi) as (f & Hf & _). congruence. }
    eauto.
  - revert Hrun. apply Relaxed_witness_complex_preserves; [| |done].
    + intros sc v. apply closed_under_facets_insert. simpl. lia.
    + intros sc cand fv0 fv _ Hok. apply closed_under_facets_insert.
      intros _ i Hi. apply all_faces_in_true in Hok as [_ Hok].
      destruct (Hok i Hi) as (f & -> & _). eauto.
Qed.

(** C4.  Filtration monotonicity.  When the complex handed to the
    constructor has its facets recorded below their cofaces (the empty one,
    say), then in the complex it leaves every face [F] of a stored simplex [S]
    is stored, with a recorded value that is at most that of [S]. *)
Theorem filtration_monotone pol distances knn sc_ nbL alpha limD out :
  facets_recorded_below sc_ →
  Relaxed.Relaxed_witness_complex pol distances knn sc_ nbL alpha limD = Some out →
  ∀ (S F : list Z) (fS : Q), complex out !! S = Some fS → face F S →
    ∃ fF : Q, complex out !! F = Some fF ∧ (fF <= fS)%Q.
Proof.
  intros Hsc Hrun. apply faces_recorded_below.
  revert Hrun. apply Relaxed_witness_complex_preserves; [| |done].
  - intros sc v. apply facets_recorded_below_insert. simpl. lia.
  - intros sc cand fv0 fv _ Hok. apply facets_recorded_below_insert.
    intros _. by apply all_faces_in_true in Hok as [_ Hok].
Qed.

(** ** Termination *)

Lemma scan_inner_total rec alpha nd ds ls simplex wba st :
  (∀ nd ds' ls' simplex st,
     (length ls' < length ls)%nat → is_Some (rec nd ds' ls' simplex st)) →
  is_Some (Relaxed.scan_inner rec alpha nd ds ls simplex wba st).
Proof.
  revert nd ds wba st.
  induction ls as [|l ls IH]; intros nd ds wba st Hrec; destruct ds as [|d ds];
    simpl; try by eauto.
  - destruct (xle _ _); simpl; eauto.
  - destruct (xle (d - alpha) nd); simpl; [|by eauto].
    assert (∀ nd s st, is_Some (rec nd ds ls s st)) as Hnow.
    { intros. apply Hrec. simpl. lia. }
    assert (∀ nd wba st,
              is_Some (Relaxed.scan_inner rec alpha nd ds ls simplex wba st)) as Hnext.
    { intros. apply IH. intros. apply Hrec. simpl. lia. }
    destruct (find (complex st) (simplex ++ [l])) as [f|].
    + destruct (Hnow nd (simplex ++ [l]) st) as [[b1 st1] ->]. simpl.
      destruct (Hnow (if xle d nd then Finite d else nd) simplex st1)
        as [[b2 st2] ->]. simpl. apply Hnext.
    + simpl.
      destruct (Hnow (if xle d nd then Finite d else nd) simplex st)
        as [[b2 st2] ->]. simpl. apply Hnext.
Qed.

Lemma add_all_faces_of_dimension_total pol depth dim alpha nd ds ls simplex st :
  (length ls < depth)%nat →
  is_Some (Relaxed.add_all_faces_of_dimension pol depth dim alpha nd ds ls simplex st).
Proof.
  revert dim nd ds ls simplex st.
  induction depth as [|depth IH]; intros dim nd ds ls simplex st Hlen; [lia|].
  rewrite add_all_faces_of_dimension_S.
  destruct ls as [|l ls]; [by eauto|].
  destruct (0 <? dim); [|destruct (dim =? 0); by eauto].
  apply scan_inner_total. intros. apply IH. simpl in *. lia.
Qed.

Lemma scan_inner_ext rec1 rec2 alpha nd ds ls simplex wba st r :
  (∀ nd ds ls simplex st r,
     rec1 nd ds ls simplex st = Some r → rec2 nd ds ls simplex st = Some r) →
  Relaxed.scan_inner rec1 alpha nd ds ls simplex wba st = Some r →
  Relaxed.scan_inner rec2 alpha nd ds ls simplex wba st = Some r.
Proof.
  intros Hrec. revert nd ds wba st.
  induction ls as [|l ls IH]; intros nd ds wba st Hrun; destruct ds as [|d ds];
    simpl in *; try done.
  destruct (xle (d - alpha) nd); simpl in *; [|done].
  destruct (find (complex st) (simplex ++ [l])) as [f|].
  - destruct (rec1 nd ds ls (simplex ++ [l]) st) as [[b1 st1]|] eqn:E1;
      simpl in Hrun; [|done].
    rewrite (Hrec _ _ _ _ _ _ E1). simpl.
    destruct (rec1 _ ds ls simplex st1) as [[b2 st2]|] eqn:E2; simpl in Hrun; [|done].
    rewrite (Hrec _ _ _ _ _ _ E2). simpl. by apply IH.
  - simpl in *.
    destruct (rec1 _ ds ls simplex st) as [[b2 st2]|] eqn:E2; simpl in Hrun; [|done].
    rewrite (Hrec _ _ _ _ _ _ E2). simpl. by apply IH.
Qed.

Lemma add_all_faces_of_dimension_deeper pol depth depth' dim alpha nd ds ls simplex st r :
  (depth ≤ depth')%nat →
  Relaxed.add_all_faces_of_dimension pol depth dim alpha nd ds ls simplex st = Some r →
  Relaxed.add_all_faces_of_dimension pol depth' dim alpha nd ds ls simplex st = Some r.
Proof.
  revert depth' dim nd ds ls simplex st r.
  induction depth as [|depth IH]; intros depth' dim nd ds ls simplex st r Hle Hrun;
    [done|].
  destruct depth' as [|depth']; [lia|].
  rewrite add_all_faces_of_dimension_S in Hrun |- *.
  destruct ls as [|l ls]; [done|].
  destruct (0 <? dim); [|done].
  eapply scan_inner_ext; [|done]. intros. eapply IH; [lia|done].
Qed.

Lemma witness_pass_total pol distances knn k alpha active_w st :
  is_Some (Relaxed.witness_pass pol distances knn k alpha active_w st).
Proof.
  revert st. induction active_w as [|w rest IH]; intros st; [by eauto|].
  rewrite witness_pass_cons.
  destruct (add_all_faces_of_dimension_total pol (S (length (knn !!! w))) k alpha
              Infinity (distances !!! w) (knn !!! w) [] st) as [[ok st1] ->]; [lia|].
  destruct (IH st1) as [[rest' st2] ->]. eauto.
Qed.

Lemma loop_guard_false nbL limD k (active_w : list nat) :
  bool_decide (active_w ≠ []) && (k <=? limD) && (k <? Z.of_nat nbL) = false ↔
  loop_done nbL limD k active_w.
Proof.
  unfold loop_done.
  rewrite !andb_false_iff, bool_decide_eq_false, Z.leb_gt, Z.ltb_ge.
  destruct (decide (active_w = [])); tauto.
Qed.

Lemma construction_loop_done pol fuel distances knn nbL alpha limD k active_w st :
  loop_done nbL limD k active_w →
  Relaxed.construction_loop pol (S fuel) distances knn nbL alpha limD k active_w st
    = Some (k, active_w, st).
Proof.
  intros H. rewrite construction_loop_S.
  apply loop_guard_false in H. by rewrite H.
Qed.

Lemma construction_loop_total pol fuel distances knn nbL alpha limD k active_w st :
  (Z.to_nat (Z.of_nat nbL - k) < fuel)%nat →
  ∃ k' active_w' st',
    Relaxed.construction_loop pol fuel distances knn nbL alpha limD k active_w st
      = Some (k', active_w', st') ∧
    loop_done nbL limD k' active_w' ∧ k ≤ k'.
Proof.
  revert k active_w st.
  induction fuel as [|fuel IH]; intros k active_w st Hfuel; [lia|].
  rewrite construction_loop_S.
  destruct (_ && _) eqn:Hguard.
  - destruct (witness_pass_total pol distances knn k alpha active_w st)
      as [[aw1 st1] ->].
    apply andb_true_iff in Hguard as [_ Hk%Z.ltb_lt].
    destruct (IH (k + 1) aw1 st1) as (k' & aw' & st' & Hrun & Hdone & Hle); [lia|].
    exists k', aw', st'. split; [done|]. split; [done|lia].
  - exists k, active_w, st. split; [done|]. split; [|lia].
    by apply loop_guard_false.
Qed.

(** C7.  Termination.  A recursive call of [add_all_faces_of_dimension] is
    made on the row past the cursor, so the nesting of the calls is bounded by
    the length of the row: any depth bound above that length gives a result,
    the same as with the bound [length + 1].  The outer loop of the
    constructor returns at once when the pool of active witnesses is empty,
    or [k] exceeds [limD], or [k] reaches [nbL]; and the constructor always
    returns, its loop being left in such a state. *)
Theorem construction_terminates pol distances knn sc_ nbL alpha limD :
  (∀ depth dim nd ds ls simplex st,
     (length ls < depth)%nat →
     ∃ r,
       Relaxed.add_all_faces_of_dimension pol depth dim alpha nd ds ls simplex st
         = Some r ∧
       Relaxed.add_all_faces_of_dimension pol (S (length ls)) dim alpha nd ds ls
         simplex st = Some r) ∧
  (∀ fuel k active_w st,
     loop_done nbL limD k active_w →
     Relaxed.construction_loop pol (S fuel) distances knn nbL alpha limD k active_w st
       = Some (k, active_w, st)) ∧
  ∃ k active_w out,
    Relaxed.construction_loop pol (S nbL) distances knn nbL alpha limD 1
      (seq 0 (length knn)) (Machine (Relaxed.insert_landmarks pol nbL sc_) 0)
      = Some (k, active_w, out) ∧
    loop_done nbL limD k active_w ∧
    Relaxed.Relaxed_witness_complex pol distances knn sc_ nbL alpha limD = Some out.
Proof.
  split; [|split].
  - intros depth dim nd ds ls simplex st Hlen.
    destruct (add_all_faces_of_dimension_total pol (S (length ls)) dim alpha nd ds ls
                simplex st) as [r Hr]; [lia|].
    exists r. split; [|done].
    eapply add_all_faces_of_dimension_deeper; [|done]. lia.
  - intros. by apply construction_loop_done.
  - destruct (construction_loop_total pol (S nbL) distances knn nbL alpha limD 1
                (seq 0 (length knn)) (Machine (Relaxed.insert_landmarks pol nbL sc_) 0))
      as (k & aw & out & Hrun & Hdone & _); [lia|].
    exists k, aw, out. split; [done|]. split; [done|].
    apply Relaxed_witness_complex_Some. eauto.
Qed.

Lemma Relaxed_witness_complex_total pol distances knn sc_ nbL alpha limD :
  is_Some (Relaxed.Relaxed_witness_complex pol distances knn sc_ nbL alpha limD).
Proof.
  destruct (construction_loop_total pol (S nbL) distances knn nbL alpha limD 1
              (seq 0 (length knn)) (Machine (Relaxed.insert_landmarks pol nbL sc_) 0))
    as (k & aw & out & Hrun & _); [lia|].
  exists out. apply Relaxed_witness_complex_Some. eauto.
Qed.

(** ** Growing the relaxation parameter *)

Lemma subcomplex_refl sc : subcomplex sc sc.
Proof. by intros S. Qed.

Lemma subcomplex_trans sc1 sc2 sc3 :
  subcomplex sc1 sc2 → subcomplex sc2 sc3 → subcomplex sc1 sc3.
Proof. intros H12 H23 S HS. auto. Qed.

Lemma insert_simplex_mono pol sc1 sc2 s f1 f2 :
  subcomplex sc1 sc2 →
  subcomplex (insert_simplex pol sc1 s f1) (insert_simplex pol sc2 s f2).
Proof.
  intros H K. rewrite !lookup_insert_simplex. case_decide; [eauto | apply H].
Qed.

Lemma all_faces_in_mono sc1 sc2 simplex fv1 fv2 :
  subcomplex sc1 sc2 →
  fst (Relaxed.all_faces_in sc1 simplex fv1) = true →
  fst (Relaxed.all_faces_in sc2 simplex fv2) = true.
Proof.
  rewrite !all_faces_in_flag. intros H H1 i Hi. apply H, H1, Hi.
Qed.

Lemma xle_relax alpha1 alpha2 d nd :
  (alpha1 <= alpha2)%Q → xle (d - alpha1)%Q nd = true → xle (d - alpha2)%Q nd = true.
Proof.
  rewrite !xle_true. destruct nd as [r|]; [|done]. intros. lra.
Qed.

(** The constructions only add to the complex. *)
Lemma scan_leaf_grows pol alpha nd ds ls simplex wba st :
  subcomplex (complex st)
    (complex (snd (Relaxed.scan_leaf pol alpha nd ds ls simplex wba st))).
Proof.
  apply (scan_leaf_preserves pol (subcomplex (complex st))); [|apply subcomplex_refl].
  intros sc cand fv0 fv _ _ H.
  eapply subcomplex_trans; [done | apply insert_simplex_subcomplex].
Qed.

Lemma add_all_faces_of_dimension_grows pol depth dim alpha nd ds ls simplex st b st' :
  Relaxed.add_all_faces_of_dimension pol depth dim alpha nd ds ls simplex st
    = Some (b, st') →
  subcomplex (complex st) (complex st').
Proof.
  intros Hrun.
  eapply (add_all_faces_of_dimension_preserves pol (subcomplex (complex st)));
    [|done|apply subcomplex_refl].
  intros sc cand fv0 fv _ _ H.
  eapply subcomplex_trans; [done | apply insert_simplex_subcomplex].
Qed.

Lemma scan_inner_grows rec alpha nd ds ls simplex wba st b st' :
  (∀ nd ds ls simplex st b st',
     rec nd ds ls simplex st = Some (b, st') → subcomplex (complex st) (complex st')) →
  Relaxed.scan_inner rec alpha nd ds ls simplex wba st = Some (b, st') →
  subcomplex (complex st) (complex st').
Proof.
  intros Hrec Hrun.
  eapply (scan_inner_preserves (subcomplex (complex st))); [|done|apply subcomplex_refl].
  intros ???????? H. eapply subcomplex_trans; [done | by eapply Hrec].
Qed.

Lemma witness_pass_grows pol distances knn k alpha active_w st active_w' st' :
  Relaxed.witness_pass pol distances knn k alpha active_w st = Some (active_w', st') →
  subcomplex (complex st) (complex st').
Proof.
  intros Hrun.
  eapply (witness_pass_preserves pol (subcomplex (complex st)));
    [|done|apply subcomplex_refl].
  intros sc cand fv0 fv _ _ H.
  eapply subcomplex_trans; [done | apply insert_simplex_subcomplex].
Qed.

Lemma construction_loop_grows pol fuel distances knn nbL alpha limD k active_w st
    k' active_w' st' :
  Relaxed.construction_loop pol fuel distances knn nbL alpha limD k active_w st
    = Some (k', active_w', st') →
  subcomplex (complex st) (complex st').
Proof.
  intros Hrun.
  eapply (construction_loop_preserves pol (subcomplex (complex st)));
    [|done|apply subcomplex_refl].
  intros sc cand fv0 fv _ _ H.
  eapply subcomplex_trans; [done | apply insert_simplex_subcomplex].
Qed.

(** A loop never clears [will_be_active]. *)
Lemma scan_leaf_flag pol alpha nd ds ls simplex st :
  fst (Relaxed.scan_leaf pol alpha nd ds ls simplex true st) = true.
Proof.
  revert nd ds st. induction ls as [|l ls IH]; intros nd ds st; destruct ds as [|d ds];
    simpl; try done.
  - by destruct (xle _ _).
  - destruct (xle (d - alpha) nd); simpl; [|done].
    destruct (Relaxed.all_faces_in _ _ _) as [[] fv]; apply IH.
Qed.

Lemma scan_inner_flag rec alpha nd ds ls simplex st b st' :
  Relaxed.scan_inner rec alpha nd ds ls simplex true st = Some (b, st') → b = true.
Proof.
  revert nd ds st. induction ls as [|l ls IH]; intros nd ds st Hrun;
    destruct ds as [|d ds]; simpl in Hrun; try by inversion Hrun.
  - destruct (xle _ _); by inversion Hrun.
  - destruct (xle (d - alpha) nd); simpl in Hrun; [|by inversion Hrun].
    destruct (find (complex st) (simplex ++ [l])) as [f|].
    + destruct (rec nd ds ls (simplex ++ [l]) st) as [[b1 st1]|]; simpl in Hrun; [|done].
      destruct (rec _ ds ls simplex st1) as [[b2 st2]|]; simpl in Hrun; [|done].
      rewrite !orb_true_r in Hrun. by eapply IH.
    + simpl in Hrun.
      destruct (rec _ ds ls simplex st) as [[b2 st2]|]; simpl in Hrun; [|done].
      rewrite !orb_true_r in Hrun. by eapply IH.
Qed.

(** Two runs that differ in [alpha] and start on comparable complexes. *)
Lemma scan_leaf_mono pol alpha1 alpha2 nd ds ls simplex wba1 wba2 st1 st2 :
  (alpha1 <= alpha2)%Q →
  subcomplex (complex st1) (complex st2) →
  (wba1 = true → wba2 = true) →
  subcomplex
    (complex (snd (Relaxed.scan_leaf pol alpha1 nd ds ls simplex wba1 st1)))
    (complex (snd (Relaxed.scan_leaf pol alpha2 nd ds ls simplex wba2 st2))) ∧
  (fst (Relaxed.scan_leaf pol alpha1 nd ds ls simplex wba1 st1) = true →
   fst (Relaxed.scan_leaf pol alpha2 nd ds ls simplex wba2 st2) = true).
Proof.
  intros Halpha. revert nd ds wba1 wba2 st1 st2.
  induction ls as [|l ls IH]; intros nd ds wba1 wba2 st1 st2 Hsub Hwba;
    destruct ds as [|d ds].
  - simpl. done.
  - simpl. by destruct (xle (d - alpha1) nd), (xle (d - alpha2) nd).
  - simpl. done.
  - destruct (xle (d - alpha1) nd) eqn:G1.
    + (* both runs take the step *)
      pose proof (xle_relax _ _ _ _ Halpha G1) as G2.
      simpl. rewrite G1, G2. simpl.
      destruct (Relaxed.all_faces_in (complex st1) _ _) as [ok1 fv1] eqn:E1.
      destruct (Relaxed.all_faces_in (complex st2) _ _) as [ok2 fv2] eqn:E2.
      destruct ok1.
      * assert (ok2 = true) as ->.
        { change ok2 with (fst (ok2, fv2)). rewrite <- E2.
          eapply all_faces_in_mono; [done|]. by rewrite E1. }
        apply IH; [|done]. simpl. by apply insert_simplex_mono.
      * destruct ok2; apply IH; try done. simpl.
        eapply subcomplex_trans; [done | apply insert_simplex_subcomplex].
    + (* the first run leaves the loop *)
      assert (Relaxed.scan_leaf pol alpha1 nd (d :: ds) (l :: ls) simplex wba1 st1
              = (wba1, st1)) as ->.
      { simpl. by rewrite G1. }
      cbn [fst snd]. split.
      * eapply subcomplex_trans; [done | apply scan_leaf_grows].
      * intros ->. rewrite (Hwba eq_refl). apply scan_leaf_flag.
Qed.

Lemma scan_inner_mono rec1 rec2 alpha1 alpha2 nd ds ls simplex wba1 wba2 st1 st2
    b1 st1' b2 st2' :
  (alpha1 <= alpha2)%Q →
  (∀ nd ds ls simplex st1 st2 b1 st1' b2 st2',
     subcomplex (complex st1) (complex st2) →
     rec1 nd ds ls simplex st1 = Some (b1, st1') →
     rec2 nd ds ls simplex st2 = Some (b2, st2') →
     subcomplex (complex st1') (complex st2') ∧ (b1 = true → b2 = true)) →
  (∀ nd ds ls simplex st b st',
     rec2 nd ds ls simplex st = Some (b, st') → subcomplex (complex st) (complex st')) →
  subcomplex (complex st1) (complex st2) →
  (wba1 = true → wba2 = true) →
  Relaxed.scan_inner rec1 alpha1 nd ds ls simplex wba1 st1 = Some (b1, st1') →
  Relaxed.scan_inner rec2 alpha2 nd ds ls simplex wba2 st2 = Some (b2, st2') →
  subcomplex (complex st1') (complex st2') ∧ (b1 = true → b2 = true).
Proof.
  intros Halpha Hsim Hgrow. revert nd ds wba1 wba2 st1 st2.
  induction ls as [|l ls IH]; intros nd ds wba1 wba2 st1 st2 Hsub Hwba Hrun1 Hrun2;
    destruct ds as [|d ds].
  - simpl in *. simplify_eq. auto.
  - simpl in *. destruct (xle (d - alpha1) nd), (xle (d - alpha2) nd);
      simpl in *; simplify_eq; auto.
  - simpl in *. simplify_eq. auto.
  - destruct (xle (d - alpha1) nd) eqn:G1.
    + pose proof (xle_relax _ _ _ _ Halpha G1) as G2.
      simpl in Hrun1, Hrun2. rewrite G1 in Hrun1. rewrite G2 in Hrun2.
      simpl in Hrun1, Hrun2.
      destruct (find (complex st1) (simplex ++ [l])) as [f1|] eqn:F1.
      * destruct (Hsub (sorted_key (simplex ++ [l]))) as [f2 F2]; [by eauto|].
        unfold find in Hrun2 at 1. rewrite F2 in Hrun2.
        destruct (rec1 nd ds ls (simplex ++ [l]) st1) as [[b1a st1a]|] eqn:R1a;
          simpl in Hrun1; [|done].
        destruct (rec2 nd ds ls (simplex ++ [l]) st2) as [[b2a st2a]|] eqn:R2a;
          simpl in Hrun2; [|done].
        destruct (Hsim _ _ _ _ _ _ _ _ _ _ Hsub R1a R2a) as [Hsuba Hba].
        destruct (rec1 _ ds ls simplex st1a) as [[b1b st1b]|] eqn:R1b;
          simpl in Hrun1; [|done].
        destruct (rec2 _ ds ls simplex st2a) as [[b2b st2b]|] eqn:R2b;
          simpl in Hrun2; [|done].
        destruct (Hsim _ _ _ _ _ _ _ _ _ _ Hsuba R1b R2b) as [Hsubb Hbb].
        eapply IH; [done| |done..].
        rewrite !orb_true_iff. tauto.
      * simpl in Hrun1.
        destruct (rec1 _ ds ls simplex st1) as [[b1b st1b]|] eqn:R1b;
          simpl in Hrun1; [|done].
        destruct (find (complex st2) (simplex ++ [l])) as [f2|].
        -- destruct (rec2 nd ds ls (simplex ++ [l]) st2) as [[b2a st2a]|] eqn:R2a;
             simpl in Hrun2; [|done].
           destruct (rec2 _ ds ls simplex st2a) as [[b2b st2b]|] eqn:R2b;
             simpl in Hrun2; [|done].
           assert (subcomplex (complex st1) (complex st2a)) as Hsuba.
           { eapply subcomplex_trans; [done | by eapply Hgrow]. }
           destruct (Hsim _ _ _ _ _ _ _ _ _ _ Hsuba R1b R2b) as [Hsubb Hbb].
           eapply IH; [done| |done..].
           rewrite !orb_true_iff. tauto.
        -- simpl in Hrun2.
           destruct (rec2 _ ds ls simplex st2) as [[b2b st2b]|] eqn:R2b;
             simpl in Hrun2; [|done].
           destruct (Hsim _ _ _ _ _ _ _ _ _ _ Hsub R1b R2b) as [Hsubb Hbb].
           eapply IH; [done| |done..].
           rewrite !orb_true_iff. tauto.
    + simpl in Hrun1. rewrite G1 in Hrun1. simpl in Hrun1. simplify_eq. split.
      * eapply subcomplex_trans; [done | by eapply scan_inner_grows].
      * intros ->. rewrite (Hwba eq_refl) in Hrun2. by eapply scan_inner_flag.
Qed.

Lemma add_all_faces_of_dimension_mono pol depth dim alpha1 alpha2 nd ds ls simplex
    st1 st2 b1 st1' b2 st2' :
  (alpha1 <= alpha2)%Q →
  subcomplex (complex st1) (complex st2) →
  Relaxed.add_all_faces_of_dimension pol depth dim alpha1 nd ds ls simplex st1
    = Some (b1, st1') →
  Relaxed.add_all_faces_of_dimension pol depth dim alpha2 nd ds ls simplex st2
    = Some (b2, st2') →
  subcomplex (complex st1') (complex st2') ∧ (b1 = true → b2 = true).
Proof.
  intros Halpha.
  revert dim nd ds ls simplex st1 st2 b1 st1' b2 st2'.
  induction depth as [|depth IH];
    intros dim nd ds ls simplex st1 st2 b1 st1' b2 st2' Hsub Hrun1 Hrun2; [done|].
  rewrite add_all_faces_of_dimension_S in Hrun1, Hrun2.
  destruct ls as [|l ls]; [simplify_eq; auto|].
  destruct (0 <? dim).
  - eapply (scan_inner_mono _ _ alpha1 alpha2); [done| | |done| |done..]; [| |done].
    + intros. by eapply IH.
    + intros. by eapply add_all_faces_of_dimension_grows.
  - destruct (dim =? 0); [|simplify_eq; auto].
    pose proof (scan_leaf_mono pol alpha1 alpha2 nd ds (l :: ls) simplex false false
                  st1 st2 Halpha Hsub (fun H => H)) as Hleaf.
    assert (Relaxed.scan_leaf pol alpha1 nd ds (l :: ls) simplex false st1 = (b1, st1'))
      as E1 by congruence.
    assert (Relaxed.scan_leaf pol alpha2 nd ds (l :: ls) simplex false st2 = (b2, st2'))
      as E2 by congruence.
    by rewrite E1, E2 in Hleaf.
Qed.

Lemma witness_pass_mono pol distances knn k alpha1 alpha2 (aw1 aw2 : list nat)
    st1 st2 aw1' st1' aw2' st2' :
  (alpha1 <= alpha2)%Q →
  aw1 `sublist_of` aw2 →
  subcomplex (complex st1) (complex st2) →
  Relaxed.witness_pass pol distances knn k alpha1 aw1 st1 = Some (aw1', st1') →
  Relaxed.witness_pass pol distances knn k alpha2 aw2 st2 = Some (aw2', st2') →
  aw1' `sublist_of` aw2' ∧ subcomplex (complex st1') (complex st2').
Proof.
  intros Halpha Haw. revert st1 st2 aw1' st1' aw2' st2'.
  induction Haw as [|w aw1 aw2 Haw IH|w aw1 aw2 Haw IH];
    intros st1 st2 aw1' st1' aw2' st2' Hsub Hrun1 Hrun2.
  - inversion Hrun1; inversion Hrun2; subst. by split.
  - rewrite witness_pass_cons in Hrun1, Hrun2.
    destruct (Relaxed.add_all_faces_of_dimension _ _ _ alpha1 _ _ _ _ _)
      as [[ok1 st1a]|] eqn:E1; [|done].
    destruct (Relaxed.add_all_faces_of_dimension _ _ _ alpha2 _ _ _ _ _)
      as [[ok2 st2a]|] eqn:E2; [|done].
    destruct (add_all_faces_of_dimension_mono _ _ _ _ _ _ _ _ _ _ _ _ _ _ _
                Halpha Hsub E1 E2) as [Hsuba Hok].
    destruct (Relaxed.witness_pass _ _ _ _ alpha1 aw1 st1a) as [[r1 st1b]|] eqn:P1;
      [|done].
    destruct (Relaxed.witness_pass _ _ _ _ alpha2 aw2 st2a) as [[r2 st2b]|] eqn:P2;
      [|done].
    destruct (IH _ _ _ _ _ _ Hsuba P1 P2) as [Hr Hsubb].
    simplify_eq. split; [|done].
    destruct ok1; [rewrite (Hok eq_refl); by constructor|].
    destruct ok2; [by constructor | done].
  - rewrite witness_pass_cons in Hrun2.
    destruct (Relaxed.add_all_faces_of_dimension _ _ _ alpha2 _ _ _ _ _)
      as [[ok2 st2a]|] eqn:E2; [|done].
    destruct (Relaxed.witness_pass _ _ _ _ alpha2 aw2 st2a) as [[r2 st2b]|] eqn:P2;
      [|done].
    assert (subcomplex (complex st1) (complex st2a)) as Hsuba.
    { eapply subcomplex_trans; [done | by eapply add_all_faces_of_dimension_grows]. }
    destruct (IH _ _ _ _ _ _ Hsuba Hrun1 P2) as [Hr Hsubb].
    simplify_eq. split; [|done].
    destruct ok2; [by constructor | done].
Qed.

Lemma construction_loop_mono pol fuel distances knn nbL alpha1 alpha2 limD k
    (aw1 aw2 : list nat) st1 st2 k1 aw1' st1' k2 aw2' st2' :
  (alpha1 <= alpha2)%Q →
  aw1 `sublist_of` aw2 →
  subcomplex (complex st1) (complex st2) →
  Relaxed.construction_loop pol fuel distances knn nbL alpha1 limD k aw1 st1
    = Some (k1, aw1', st1') →
  Relaxed.construction_loop pol fuel distances knn nbL alpha2 limD k aw2 st2
    = Some (k2, aw2', st2') →
  subcomplex (complex st1') (complex st2').
Proof.
  intros Halpha. revert k aw1 aw2 st1 st2.
  induction fuel as [|fuel IH]; intros k aw1 aw2 st1 st2 Haw Hsub Hrun1 Hrun2; [done|].
  rewrite construction_loop_S in Hrun1.
  destruct (bool_decide (aw1 ≠ []) && (k <=? limD) && (k <? Z.of_nat nbL)) eqn:G1.
  - assert (bool_decide (aw2 ≠ []) && (k <=? limD) && (k <? Z.of_nat nbL) = true) as G2.
    { rewrite !andb_true_iff, bool_decide_eq_true in G1 |- *.
      destruct G1 as [[Hne ?] ?]. split; [split|]; try done.
      intros ->. apply sublist_nil_r in Haw. done. }
    rewrite construction_loop_S, G2 in Hrun2.
    destruct (Relaxed.witness_pass _ _ _ _ alpha1 aw1 st1) as [[r1 st1a]|] eqn:P1;
      [|done].
    destruct (Relaxed.witness_pass _ _ _ _ alpha2 aw2 st2) as [[r2 st2a]|] eqn:P2;
      [|done].
    destruct (witness_pass_mono _ _ _ _ _ _ _ _ _ _ _ _ _ _ Halpha Haw Hsub P1 P2)
      as [Hr Hsuba].
    by eapply IH.
  - simplify_eq.
    eapply subcomplex_trans; [done | by eapply construction_loop_grows].
Qed.

(** C6.  Alpha-monotonicity.  For one table, one landmark count, one
    dimension limit and one initial complex, and [0 <= alpha1 <= alpha2],
    every simplex of the complex built with [alpha1] is a simplex of the
    complex built with [alpha2]. *)
Theorem alpha_monotone pol distances knn sc_ nbL alpha1 alpha2 limD out1 out2 :
  (0 <= alpha1)%Q → (alpha1 <= alpha2)%Q →
  Relaxed.Relaxed_witness_complex pol distances knn sc_ nbL alpha1 limD = Some out1 →
  Relaxed.Relaxed_witness_complex pol distances knn sc_ nbL alpha2 limD = Some out2 →
  subcomplex (complex out1) (complex out2).
Proof.
  intros _ Halpha (k1 & aw1 & Hrun1)%Relaxed_witness_complex_Some
    (k2 & aw2 & Hrun2)%Relaxed_witness_complex_Some.
  eapply construction_loop_mono; [done| | |done..]; [done|apply subcomplex_refl].
Qed.

(** ** One step of the scanning loops *)

Lemma admissible_xle alpha nd d : xle (d - alpha)%Q nd = true ↔ admissible alpha nd d.
Proof. unfold admissible. apply xle_true. Qed.

Lemma xeq_refl x : xeq x x.
Proof. destruct x; simpl; [apply Qeq_refl | done]. Qed.

Lemma leaf_update_norelax nd d :
  xeq (if xlt d nd then Finite d else nd) (norelax_after nd d).
Proof.
  unfold norelax_after. destruct nd as [r|]; simpl; [|apply Qeq_refl].
  destruct (Qle_bool r d) eqn:E1, (Qle_bool d r) eqn:E2; simpl;
    try apply Qeq_refl.
  - apply Qle_bool_iff in E1, E2. by apply Qle_antisym.
  - exfalso. rewrite <- not_true_iff_false, Qle_bool_iff in E1, E2. lra.
Qed.

(** C2.  The scanning step.  At a cursor on the landmark [l] at distance [d],
    in the leaf loop and in the inner loop alike: the step is taken, with the
    candidate [simplex ++ [l]], exactly when [d - alpha <= norelax_dist];
    otherwise the loop is left with nothing changed.  After a step the loop
    goes on with a bound that equals [d] when [d <= norelax_dist] and is the
    old bound when [d > norelax_dist]. *)
Theorem scanning_step pol rec alpha nd d ds l ls simplex wba st :
  (xle (d - alpha)%Q nd = true ↔ admissible alpha nd d) ∧
  (¬ admissible alpha nd d →
     Relaxed.scan_leaf pol alpha nd (d :: ds) (l :: ls) simplex wba st = (wba, st) ∧
     Relaxed.scan_inner rec alpha nd (d :: ds) (l :: ls) simplex wba st
       = Some (wba, st)) ∧
  (admissible alpha nd d →
     ∃ nd_leaf nd_inner,
       (xle d nd = true → xeq nd_leaf (Finite d) ∧ xeq nd_inner (Finite d)) ∧
       (xle d nd = false → nd_leaf = nd ∧ nd_inner = nd) ∧
       Relaxed.scan_leaf pol alpha nd (d :: ds) (l :: ls) simplex wba st =
         Relaxed.scan_leaf pol alpha nd_leaf ds ls simplex
           (fst (leaf_step pol (simplex ++ [l]) d nd wba st))
           (snd (leaf_step pol (simplex ++ [l]) d nd wba st)) ∧
       Relaxed.scan_inner rec alpha nd (d :: ds) (l :: ls) simplex wba st =
         '(wba1, st1) ← include_step rec nd ds ls (simplex ++ [l]) wba st;
         '(b, st2) ← rec nd_inner ds ls simplex st1;
         Relaxed.scan_inner rec alpha nd_inner ds ls simplex (b || wba1) st2).
Proof.
  split; [apply admissible_xle|]. split.
  - intros Hadm. rewrite <- admissible_xle, not_true_iff_false in Hadm.
    simpl. by rewrite Hadm.
  - intros Hadm%admissible_xle.
    exists (if xlt d nd then Finite d else nd), (if xle d nd then Finite d else nd).
    split; [|split; [|split]].
    + intros Hle. pose proof (leaf_update_norelax nd d) as H.
      unfold norelax_after in H. rewrite Hle in *. split; [done | apply Qeq_refl].
    + intros Hle. rewrite Hle. split; [|done].
      destruct nd as [r|]; [|done]. simpl in *.
      destruct (Qle_bool r d) eqn:E; [done|].
      exfalso. rewrite <- not_true_iff_false, Qle_bool_iff in E, Hle. lra.
    + simpl. rewrite Hadm. simpl. unfold leaf_step.
      by destruct (Relaxed.all_faces_in _ _ _) as [[] fv].
    + simpl. rewrite Hadm. simpl. unfold include_step.
      destruct (find (complex st) (simplex ++ [l])); [|done].
      by destruct (rec nd ds ls (simplex ++ [l]) st) as [[b1 st1]|].
Qed.

(** ** The filtration value at the leaf *)

Lemma foldl_Qmax_proper (a b : Q) (fs : list Q) :
  (a == b)%Q → (foldl Qmax a fs == foldl Qmax b fs)%Q.
Proof.
  revert a b. induction fs as [|f fs IH]; intros a b Hab; simpl; [done|].
  apply IH. by rewrite Hab.
Qed.

Lemma foldl_Qmax_start (a b : Q) (fs : list Q) :
  (foldl Qmax (Qmax a b) fs == Qmax (foldl Qmax b fs) a)%Q.
Proof.
  revert b. induction fs as [|f fs IH]; intros b; simpl.
  - apply Q.max_comm.
  - rewrite <- IH. apply foldl_Qmax_proper. symmetry. apply Q.max_assoc.
Qed.

Lemma update_if_greater (f fv : Q) : ((if Qgt_bool f fv then f else fv) == Qmax fv f)%Q.
Proof.
  destruct (Qgt_bool f fv) eqn:E.
  - apply Qgt_bool_true in E. symmetry. apply Q.max_r. lra.
  - apply Qgt_bool_false in E. symmetry. by apply Q.max_l.
Qed.

Lemma all_faces_in_from_value sc simplex not_its fv0 fv :
  Relaxed.all_faces_in_from sc simplex not_its fv0 = (true, fv) →
  ∃ fs, mapM (fun i => find sc (delete i simplex)) not_its = Some fs ∧
        (fv == foldl Qmax fv0 fs)%Q.
Proof.
  revert fv0. induction not_its as [|j rest IH]; intros fv0 H; simpl in H.
  - inversion H; subst. exists []. by split.
  - destruct (find sc (delete j simplex)) as [f|] eqn:Hf; [|done].
    apply IH in H as (fs & Hfs & Hfv).
    exists (f :: fs). split.
    + apply mapM_Some. constructor; [done|]. by apply mapM_Some.
    + simpl. rewrite Hfv. apply foldl_Qmax_proper, update_if_greater.
Qed.

Lemma relaxation_as_cost d nd : (Relaxed.relaxation d nd == relaxation_cost d nd)%Q.
Proof.
  destruct nd as [r|]; simpl; [|done].
  destruct (Qgt_bool d r) eqn:E.
  - apply Qgt_bool_true in E. symmetry. apply Q.max_r. lra.
  - apply Qgt_bool_false in E. symmetry. apply Q.max_l. lra.
Qed.

Lemma relaxation_nonneg d nd : (0 <= Relaxed.relaxation d nd)%Q.
Proof.
  destruct nd as [r|]; simpl; [|done].
  destruct (Qgt_bool d r) eqn:E; [|done].
  apply Qgt_bool_true in E. lra.
Qed.

(** C3.  The filtration value at the leaf.  When the landmark [l] at distance
    [d] is admissible and the closure oracle accepts the candidate
    [simplex ++ [l]] with the value [fv], the leaf loop goes on with
    [insert_simplex(candidate, fv)] done; the oracle found one recorded value
    for each of the [length simplex + 1] facets, and [fv] is the maximum of
    their maximum and of [max(0, d - norelax_dist)]; it is not negative. *)
Theorem leaf_filtration_value pol alpha nd d ds l ls simplex wba st fv :
  xle (d - alpha)%Q nd = true →
  Relaxed.all_faces_in (complex st) (simplex ++ [l]) (Relaxed.relaxation d nd)
    = (true, fv) →
  (∃ nd',
     Relaxed.scan_leaf pol alpha nd (d :: ds) (l :: ls) simplex wba st =
     Relaxed.scan_leaf pol alpha nd' ds ls simplex true
       (with_complex st (insert_simplex pol (complex st) (simplex ++ [l]) fv))) ∧
  ∃ (f : Q) (fs : list Q),
    facet_filtrations (complex st) (simplex ++ [l]) = Some (f :: fs) ∧
    length (f :: fs) = S (length simplex) ∧
    (fv == Qmax (closure_bound f fs) (relaxation_cost d nd))%Q ∧
    (0 <= fv)%Q.
Proof.
  intros Hadm Hok. split.
  - eexists. simpl. rewrite Hadm. simpl. rewrite Hok. done.
  - pose proof Hok as Hval. apply all_faces_in_from_value in Hval as (fs & Hfs & Hfv).
    assert (length fs = S (length simplex)) as Hlen.
    { apply length_mapM in Hfs. rewrite length_seq, length_app in Hfs. simpl in Hfs. lia. }
    destruct fs as [|f fs]; [done|].
    exists f, fs. split; [done|]. split; [done|]. split.
    + rewrite Hfv. simpl. unfold closure_bound.
      rewrite foldl_Qmax_start. by rewrite relaxation_as_cost.
    + apply all_faces_in_true in Hok as [Hle _].
      eapply Qle_trans; [apply relaxation_nonneg | done].
Qed.

(** ** Reads at the end of a row *)

Lemma scan_leaf_reads pol alpha nd ds ls simplex wba st :
  (past_end_reads st
   ≤ past_end_reads (snd (Relaxed.scan_leaf pol alpha nd ds ls simplex wba st)))%nat.
Proof.
  revert nd ds wba st.
  induction ls as [|l ls IH]; intros nd ds wba st; destruct ds as [|d ds]; simpl;
    try lia.
  - destruct (xle _ _); simpl; lia.
  - destruct (xle (d - alpha) nd); simpl; [|lia].
    destruct (Relaxed.all_faces_in _ _ _) as [[] fv];
      (etrans; [|apply IH]); simpl; lia.
Qed.

Lemma scan_inner_reads rec alpha nd ds ls simplex wba st b st' :
  (∀ nd ds ls simplex st b st',
     rec nd ds ls simplex st = Some (b, st') →
     (past_end_reads st ≤ past_end_reads st')%nat) →
  Relaxed.scan_inner rec alpha nd ds ls simplex wba st = Some (b, st') →
  (past_end_reads st ≤ past_end_reads st')%nat.
Proof.
  intros Hrec.
  revert nd ds wba st.
  induction ls as [|l ls IH]; intros nd ds wba st Hrun; destruct ds as [|d ds];
    simpl in Hrun.
  - simplify_eq. simpl. lia.
  - destruct (xle _ _); simpl in Hrun; simplify_eq; lia.
  - simplify_eq. simpl. lia.
  - destruct (xle (d - alpha) nd); simpl in Hrun; [|simplify_eq; lia].
    destruct (find (complex st) (simplex ++ [l])) as [f|].
    + destruct (rec nd ds ls (simplex ++ [l]) st) as [[b1 st1]|] eqn:E1;
        simpl in Hrun; [|done].
      destruct (rec _ ds ls simplex st1) as [[b2 st2]|] eqn:E2; simpl in Hrun; [|done].
      apply Hrec in E1, E2. apply IH in Hrun. lia.
    + simpl in Hrun.
      destruct (rec _ ds ls simplex st) as [[b2 st2]|] eqn:E2; simpl in Hrun; [|done].
      apply Hrec in E2. apply IH in Hrun. lia.
Qed.

Lemma add_all_faces_of_dimension_reads pol depth dim alpha nd ds ls simplex st b st' :
  Relaxed.add_all_faces_of_dimension pol depth dim alpha nd ds ls simplex st
    = Some (b, st') →
  (past_end_reads st ≤ past_end_reads st')%nat.
Proof.
  revert dim nd ds ls simplex st b st'.
  induction depth as [|depth IH]; intros dim nd ds ls simplex st b st' Hrun; [done|].
  rewrite add_all_faces_of_dimension_S in Hrun.
  destruct ls as [|l ls]; [simplify_eq; lia|].
  destruct (0 <? dim).
  - eapply scan_inner_reads; [|done]. intros. by eapply IH.
  - destruct (dim =? 0); [|simplify_eq; lia].
    assert (Relaxed.scan_leaf pol alpha nd ds (l :: ls) simplex false st = (b, st'))
      as E by congruence.
    pose proof (scan_leaf_reads pol alpha nd ds (l :: ls) simplex false st) as H.
    by rewrite E in H.
Qed.

Section Whole_row_admissible.

Variable alpha : Q.
Variable row_distances : list Q.
Hypothesis Hrow : all_admissible alpha row_distances.

Local Abbreviation admits_row := (admits_row alpha row_distances).

Lemma admits_row_Infinity : admits_row Infinity.
Proof. by intros d Hd. Qed.

Lemma admits_row_update nd d0 (b : bool) :
  d0 ∈ row_distances → admits_row nd → admits_row (if b then Finite d0 else nd).
Proof using Hrow.
  intros Hd0 Hnd. destruct b; [|done].
  intros d Hd. apply xle_true. by apply Hrow.
Qed.

Lemma scan_leaf_reaches_end pol nd ds ls simplex wba st :
  ds ⊆ row_distances → length ds = length ls → admits_row nd →
  (past_end_reads st
   < past_end_reads (snd (Relaxed.scan_leaf pol alpha nd ds ls simplex wba st)))%nat.
Proof using Hrow.
  revert nd ds wba st.
  induction ls as [|l ls IH]; intros nd ds wba st Hsub Hlen Hnd;
    destruct ds as [|d ds]; simpl in Hlen; try lia.
  - simpl. lia.
  - simpl. rewrite (Hnd d); [|apply Hsub; by left]. simpl.
    assert (Hsub' : ds ⊆ row_distances).
    { intros x Hx. apply Hsub. by right. }
    assert (Hnd' : admits_row (if xlt d nd then Finite d else nd)).
    { apply admits_row_update; [apply Hsub; by left | done]. }
    destruct (Relaxed.all_faces_in _ _ _) as [[] fv];
      (eapply Nat.le_lt_trans; [|apply IH; [done|lia|done]]); simpl; lia.
Qed.

Lemma scan_inner_reaches_end rec nd ds ls simplex wba st b st' :
  (∀ nd ds ls simplex st b st',
     rec nd ds ls simplex st = Some (b, st') →
     (past_end_reads st ≤ past_end_reads st')%nat) →
  ds ⊆ row_distances → length ds = length ls → admits_row nd →
  Relaxed.scan_inner rec alpha nd ds ls simplex wba st = Some (b, st') →
  (past_end_reads st < past_end_reads st')%nat.
Proof using Hrow.
  intros Hrec. revert nd ds wba st.
  induction ls as [|l ls IH]; intros nd ds wba st Hsub Hlen Hnd Hrun;
    destruct ds as [|d ds]; simpl in Hlen; try lia.
  - simpl in Hrun. simplify_eq. simpl. lia.
  - simpl in Hrun. rewrite (Hnd d) in Hrun; [|apply Hsub; by left]. simpl in Hrun.
    assert (Hsub' : ds ⊆ row_distances).
    { intros x Hx. apply Hsub. by right. }
    assert (Hnd' : admits_row (if xle d nd then Finite d else nd)).
    { apply admits_row_update; [apply Hsub; by left | done]. }
    destruct (find (complex st) (simplex ++ [l])) as [f|].
    + destruct (rec nd ds ls (simplex ++ [l]) st) as [[b1 st1]|] eqn:E1;
        simpl in Hrun; [|done].
      destruct (rec _ ds ls simplex st1) as [[b2 st2]|] eqn:E2; simpl in Hrun; [|done].
      apply Hrec in E1, E2. apply IH in Hrun; [lia|done|lia|done].
    + simpl in Hrun.
      destruct (rec _ ds ls simplex st) as [[b2 st2]|] eqn:E2; simpl in Hrun; [|done].
      apply Hrec in E2. apply IH in Hrun; [lia|done|lia|done].
Qed.

End Whole_row_admissible.

(** The same for [Witness_complex_new::add_all_faces_of_dimension]. *)

Lemma New_add_all_faces_of_dimension_S pol oracle depth dim alpha nd row simplex st :
  New.add_all_faces_of_dimension pol oracle (S depth) dim alpha nd row simplex st =
    match row with
    | [] => Some (false, st)
    | _ :: _ =>
        if 0 <? dim then
          New.scan_inner
            (fun dim' => New.add_all_faces_of_dimension pol oracle depth dim' alpha)
            dim alpha nd row simplex false st
        else if dim =? 0 then
          Some (New.scan_leaf pol oracle alpha nd row simplex false st)
        else Some (false, st)
    end.
Proof. reflexivity. Qed.

Global Arguments New.add_all_faces_of_dimension : simpl never.

Lemma New_scan_leaf_reads pol oracle alpha nd row simplex wba st :
  (past_end_reads st
   ≤ past_end_reads (snd (New.scan_leaf pol oracle alpha nd row simplex wba st)))%nat.
Proof.
  revert nd wba st.
  induction row as [|[l d] row IH]; intros nd wba st; simpl; [lia|].
  destruct (xle (d - alpha) nd); simpl; [|lia].
  destruct (oracle _ _ _) as [[] fv]; (etrans; [|apply IH]); simpl; lia.
Qed.

Lemma New_scan_inner_reads rec dim alpha nd row simplex wba st b st' :
  (∀ dim nd row simplex st b st',
     rec dim nd row simplex st = Some (b, st') →
     (past_end_reads st ≤ past_end_reads st')%nat) →
  New.scan_inner rec dim alpha nd row simplex wba st = Some (b, st') →
  (past_end_reads st ≤ past_end_reads st')%nat.
Proof.
  intros Hrec. revert nd wba st.
  induction row as [|[l d] row IH]; intros nd wba st Hrun; simpl in Hrun.
  - simplify_eq. simpl. lia.
  - destruct (xle (d - alpha) nd); simpl in Hrun; [|simplify_eq; lia].
    destruct (find (complex st) (simplex ++ [l])) as [f|].
    + destruct (rec (dim - 1) nd row (simplex ++ [l]) st) as [[b1 st1]|] eqn:E1;
        simpl in Hrun; [|done].
      destruct (rec dim _ row simplex st1) as [[b2 st2]|] eqn:E2;
        simpl in Hrun; [|done].
      apply Hrec in E1, E2. apply IH in Hrun. lia.
    + simpl in Hrun.
      destruct (rec dim _ row simplex st) as [[b2 st2]|] eqn:E2;
        simpl in Hrun; [|done].
      apply Hrec in E2. apply IH in Hrun. lia.
Qed.

Lemma New_add_all_faces_of_dimension_reads pol oracle depth dim alpha nd row simplex
    st b st' :
  New.add_all_faces_of_dimension pol oracle depth dim alpha nd row simplex st
    = Some (b, st') →
  (past_end_reads st ≤ past_end_reads st')%nat.
Proof.
  revert dim nd row simplex st b st'.
  induction depth as [|depth IH]; intros dim nd row simplex st b st' Hrun; [done|].
  rewrite New_add_all_faces_of_dimension_S in Hrun.
  destruct row as [|ld row]; [simplify_eq; lia|].
  destruct (0 <? dim).
  - eapply New_scan_inner_reads; [|done]. intros. cbv beta in *. by eapply IH.
  - destruct (dim =? 0); [|simplify_eq; lia].
    assert (New.scan_leaf pol oracle alpha nd (ld :: row) simplex false st = (b, st'))
      as E by congruence.
    pose proof (New_scan_leaf_reads pol oracle alpha nd (ld :: row) simplex false st)
      as H.
    by rewrite E in H.
Qed.

Lemma New_scan_inner_total rec dim alpha nd row simplex wba st :
  (∀ dim nd row' simplex st,
     (length row' < length row)%nat → is_Some (rec dim nd row' simplex st)) →
  is_Some (New.scan_inner rec dim alpha nd row simplex wba st).
Proof.
  revert nd wba st.
  induction row as [|[l d] row IH]; intros nd wba st Hrec; simpl; [by eauto|].
  destruct (xle (d - alpha) nd); simpl; [|by eauto].
  assert (∀ dim nd s st, is_Some (rec dim nd row s st)) as Hnow.
  { intros. apply Hrec. simpl. lia. }
  assert (∀ nd wba st,
            is_Some (New.scan_inner rec dim alpha nd row simplex wba st)) as Hnext.
  { intros. apply IH. intros. apply Hrec. simpl. lia. }
  destruct (find (complex st) (simplex ++ [l])) as [f|].
  - destruct (Hnow (dim - 1) nd (simplex ++ [l]) st) as [[b1 st1] ->]. simpl.
    destruct (Hnow dim (if xle d nd then Finite d else nd) simplex st1)
      as [[b2 st2] ->]. simpl. apply Hnext.
  - simpl.
    destruct (Hnow dim (if xle d nd then Finite d else nd) simplex st)
      as [[b2 st2] ->]. simpl. apply Hnext.
Qed.

Lemma New_add_all_faces_of_dimension_total pol oracle depth dim alpha nd row simplex st :
  (length row < depth)%nat →
  is_Some (New.add_all_faces_of_dimension pol oracle depth dim alpha nd row simplex st).
Proof.
  revert dim nd row simplex st.
  induction depth as [|depth IH]; intros dim nd row simplex st Hlen; [lia|].
  rewrite New_add_all_faces_of_dimension_S.
  destruct row as [|ld row]; [by eauto|].
  destruct (0 <? dim); [|destruct (dim =? 0); by eauto].
  apply New_scan_inner_total. intros. apply IH. simpl in *. lia.
Qed.

Section Whole_row_admissible_new.

Variable alpha : Q.
Variable row_distances : list Q.
Hypothesis Hrow : all_admissible alpha row_distances.

Lemma New_scan_leaf_reaches_end pol oracle nd (row : list (Z * Q)) simplex wba st :
  row.*2 ⊆ row_distances → admits_row alpha row_distances nd →
  (past_end_reads st
   < past_end_reads (snd (New.scan_leaf pol oracle alpha nd row simplex wba st)))%nat.
Proof using Hrow.
  revert nd wba st.
  induction row as [|[l d] row IH]; intros nd wba st Hsub Hnd; simpl; [lia|].
  rewrite (Hnd d); [|apply Hsub; by left]. simpl.
  assert (Hsub' : row.*2 ⊆ row_distances).
  { intros x Hx. apply Hsub. by right. }
  assert (Hnd' : admits_row alpha row_distances (if xlt d nd then Finite d else nd)).
  { apply admits_row_update; [done | apply Hsub; by left | done]. }
  destruct (oracle _ _ _) as [[] fv];
    (eapply Nat.le_lt_trans; [|apply IH; done]); simpl; lia.
Qed.

Lemma New_scan_inner_reaches_end rec dim nd (row : list (Z * Q)) simplex wba st b st' :
  (∀ dim nd row simplex st b st',
     rec dim nd row simplex st = Some (b, st') →
     (past_end_reads st ≤ past_end_reads st')%nat) →
  row.*2 ⊆ row_distances → admits_row alpha row_distances nd →
  New.scan_inner rec dim alpha nd row simplex wba st = Some (b, st') →
  (past_end_reads st < past_end_reads st')%nat.
Proof using Hrow.
  intros Hrec. revert nd wba st.
  induction row as [|[l d] row IH]; intros nd wba st Hsub Hnd Hrun; simpl in Hrun.
  - simplify_eq. simpl. lia.
  - rewrite (Hnd d) in Hrun; [|apply Hsub; by left]. simpl in Hrun.
    assert (Hsub' : row.*2 ⊆ row_distances).
    { intros x Hx. apply Hsub. by right. }
    assert (Hnd' : admits_row alpha row_distances (if xle d nd then Finite d else nd)).
    { apply admits_row_update; [done | apply Hsub; by left | done]. }
    destruct (find (complex st) (simplex ++ [l])) as [f|].
    + destruct (rec (dim - 1) nd row (simplex ++ [l]) st) as [[b1 st1]|] eqn:E1;
        simpl in Hrun; [|done].
      destruct (rec dim _ row simplex st1) as [[b2 st2]|] eqn:E2;
        simpl in Hrun; [|done].
      apply Hrec in E1, E2. apply IH in Hrun; [lia|done..].
    + simpl in Hrun.
      destruct (rec dim _ row simplex st) as [[b2 st2]|] eqn:E2;
        simpl in Hrun; [|done].
      apply Hrec in E2. apply IH in Hrun; [lia|done..].
Qed.

End Whole_row_admissible_new.

(** C10.  The scanning loops test [*d_it - alpha <= norelax_dist]
    (respectively [l_it->second - alpha2 <= norelax_dist2]) before
    [l_it != end].  On a non-empty row all of whose landmarks pass the
    admissibility test, a call of either [add_all_faces_of_dimension] with
    [dim >= 0] returns, and on its way a guard has read the distance at the
    end of the row: the count of such reads has grown. *)
Theorem guard_reads_past_end pol oracle alpha (row : list (Z * Q)) depth dim simplex st :
  row ≠ [] → all_admissible alpha (row.*2) → 0 ≤ dim → (length row < depth)%nat →
  (∃ b st',
     Relaxed.add_all_faces_of_dimension pol depth dim alpha Infinity (row.*2) (row.*1)
       simplex st = Some (b, st') ∧
     (past_end_reads st < past_end_reads st')%nat) ∧
  (∃ b st',
     New.add_all_faces_of_dimension pol oracle depth dim alpha Infinity row simplex st
       = Some (b, st') ∧
     (past_end_reads st < past_end_reads st')%nat).
Proof.
  intros Hne Hadm Hdim Hdepth. split.
  - destruct (add_all_faces_of_dimension_total pol depth dim alpha Infinity (row.*2)
                (row.*1) simplex st) as [[b st'] Hrun].
    { by rewrite length_fmap. }
    exists b, st'. split; [done|].
    destruct depth as [|depth]; [done|].
    rewrite add_all_faces_of_dimension_S in Hrun.
    destruct row as [|[l d] row]; [done|]. cbn [fmap list_fmap fst] in Hrun.
    destruct (0 <? dim) eqn:Hpos.
    + assert (length (d :: row.*2) = length (l :: row.*1)) as Hlen.
      { simpl. by rewrite !length_fmap. }
      refine (scan_inner_reaches_end alpha _ Hadm _ _ _ _ _ _ _ _ _ _ _ Hlen
                (admits_row_Infinity _ _) Hrun); [|done].
      intros. by eapply add_all_faces_of_dimension_reads.
    + assert ((dim =? 0) = true) as Hzero by lia. rewrite Hzero in Hrun.
      pose proof (scan_leaf_reaches_end alpha ((l, d) :: row).*2 Hadm pol Infinity
                    ((l, d) :: row).*2 ((l, d) :: row).*1 simplex false st) as H.
      cbn [fmap list_fmap fst snd] in H, Hrun.
      assert (Relaxed.scan_leaf pol alpha Infinity (d :: row.*2) (l :: row.*1)
                simplex false st = (b, st')) as E by congruence.
      rewrite E in H. apply H; [done| |by intros ??].
      simpl. by rewrite !length_fmap.
  - destruct (New_add_all_faces_of_dimension_total pol oracle depth dim alpha Infinity
                row simplex st) as [[b st'] Hrun]; [done|].
    exists b, st'. split; [done|].
    destruct depth as [|depth]; [done|].
    rewrite New_add_all_faces_of_dimension_S in Hrun.
    destruct row as [|ld row]; [done|].
    destruct (0 <? dim) eqn:Hpos.
    + refine (New_scan_inner_reaches_end alpha _ Hadm _ _ _ _ _ _ _ _ _ _ _
                (admits_row_Infinity _ _) Hrun); [|done].
      intros. cbv beta in *. by eapply New_add_all_faces_of_dimension_reads.
    + assert ((dim =? 0) = true) as Hzero by lia. rewrite Hzero in Hrun.
      pose proof (New_scan_leaf_reaches_end alpha (ld :: row).*2 Hadm pol oracle
                    Infinity (ld :: row) simplex false st) as H.
      assert (New.scan_leaf pol oracle alpha Infinity (ld :: row) simplex false st
              = (b, st')) as E by congruence.
      rewrite E in H. apply H; [done | by intros ??].
Qed.

(** ** The dimension limit beyond [nbL - 1] *)

Lemma construction_loop_limD_cap pol fuel distances knn nbL alpha limD k active_w st :
  Z.of_nat nbL - 1 ≤ limD →
  Relaxed.construction_loop pol fuel distances knn nbL alpha limD k active_w st =
  Relaxed.construction_loop pol fuel distances knn nbL alpha (Z.of_nat nbL - 1) k
    active_w st.
Proof.
  intros Hlim. revert k active_w st.
  induction fuel as [|fuel IH]; intros k active_w st; [reflexivity|].
  rewrite !construction_loop_S.
  assert ((k <=? limD) && (k <? Z.of_nat nbL)
          = (k <=? Z.of_nat nbL - 1) && (k <? Z.of_nat nbL)) as Hguard.
  { destruct (k <? Z.of_nat nbL) eqn:Hk; [|by rewrite !andb_false_r].
    apply Z.ltb_lt in Hk. rewrite !andb_true_r.
    transitivity true; [|symmetry]; apply Z.leb_le; lia. }
  rewrite <- !andb_assoc, Hguard.
  destruct (bool_decide _ && _); [|done].
  destruct (Relaxed.witness_pass _ _ _ _ _ _ _) as [[aw1 st1]|]; [|done].
  apply IH.
Qed.

Lemma Relaxed_witness_complex_limD_cap pol distances knn sc_ nbL alpha limD :
  Z.of_nat nbL - 1 ≤ limD →
  Relaxed.Relaxed_witness_complex pol distances knn sc_ nbL alpha limD =
  Relaxed.Relaxed_witness_complex pol distances knn sc_ nbL alpha (Z.of_nat nbL - 1).
Proof.
  intros Hlim. unfold Relaxed.Relaxed_witness_complex.
  by rewrite construction_loop_limD_cap.
Qed.

(** ** The relaxation-window scenario *)

Lemma window_complex_no_edge_at_2 (v : Z) : find window_complex [v; 2] = None.
Proof.
  unfold find. destruct (window_complex !! sorted_key [v; 2]) as [f|] eqn:E; [|done].
  exfalso. apply elem_of_list_to_map_2 in E.
  pose proof (sorted_key_length [v; 2]) as Hlen.
  pose proof (sorted_key_Permutation [v; 2]) as Hperm.
  repeat (apply elem_of_cons in E as [E|E];
          [injection E as E _; rewrite E in Hlen, Hperm; try done|]).
  - assert (2 ∈ [0; 1]) as H2.
    { rewrite Hperm. apply list_elem_of_further, list_elem_of_here. }
    repeat (apply elem_of_cons in H2 as [H2|H2]; [done|]).
    by apply elem_of_nil in H2.
  - by apply elem_of_nil in E.
Qed.

(** C8, as the code has it.  For the witness row [(0,1.0), (1,1.2), (2,5.0)],
    three landmarks, [alpha = 0.5] and any dimension limit of at least 1, the
    constructor leaves exactly the vertices {0}, {1} and {2} and the edge
    {0,1}, all with filtration 0: each landmark is a vertex from the initial
    fill, the edge {0,1} is present, and no edge has the landmark 2 as an
    endpoint. *)
Theorem window_scenario pol limD :
  1 ≤ limD →
  ∃ out,
    Relaxed.Relaxed_witness_complex pol window_distances window_knn ∅ 3 (1 # 2)%Q limD
      = Some out ∧
    complex out = window_complex ∧
    find (complex out) [0] = Some 0%Q ∧ find (complex out) [1] = Some 0%Q ∧
    find (complex out) [2] = Some 0%Q ∧ find (complex out) [0; 1] = Some 0%Q ∧
    ∀ v : Z, find (complex out) [v; 2] = None.
Proof.
  intros Hlim.
  assert (∃ out,
            Relaxed.Relaxed_witness_complex pol window_distances window_knn ∅ 3
              (1 # 2)%Q limD = Some out ∧ complex out = window_complex)
    as (out & Hrun & Hout).
  { destruct (decide (limD = 1)) as [->|Hne].
    - destruct pol; eexists; (split; [vm_compute; reflexivity|]);
        vm_compute; reflexivity.
    - rewrite Relaxed_witness_complex_limD_cap; [|simpl; lia].
      destruct pol; eexists; (split; [vm_compute; reflexivity|]);
        vm_compute; reflexivity. }
  exists out. rewrite Hout. split; [done|]. split; [done|].
  repeat (split; [vm_compute; reflexivity|]).
  apply window_complex_no_edge_at_2.
Qed.

(** C8, as stated, fails: with the three landmarks of the scenario the
    vertex {2} is in the complex. *)
Lemma window_scenario_counterexample :
  ∃ out,
    Relaxed.Relaxed_witness_complex Keep_recorded window_distances window_knn ∅ 3
      (1 # 2)%Q 1 = Some out ∧
    ¬ window_scenario_as_stated (complex out).
Proof.
  eexists. split; [vm_compute; reflexivity|].
  intros (_ & _ & _ & H & _). vm_compute in H. discriminate.
Qed.

(** ** Negative arguments *)

Lemma insert_landmarks_vertex pol nbL sc (i : nat) :
  (i < nbL)%nat → is_Some (Relaxed.insert_landmarks pol nbL sc !! [Z.of_nat i]).
Proof.
  intros Hi. unfold Relaxed.insert_landmarks.
  assert (i ∈ seq 0 nbL) as Hin by (apply elem_of_seq; lia).
  revert Hin. generalize (seq 0 nbL) as idx. intros idx.
  assert (∀ sc : gmap (list Z) Q,
            i ∈ idx ∨ is_Some (sc !! [Z.of_nat i]) →
            is_Some (foldl (fun sc i => insert_simplex pol sc [Z.of_nat i] 0%Q) sc idx
                       !! [Z.of_nat i])) as H.
  { induction idx as [|j idx IH]; intros sc' [Hin|Hsome]; simpl.
    - by apply elem_of_nil in Hin.
    - done.
    - apply IH. apply elem_of_cons in Hin as [->|Hin]; [right|by left].
      rewrite lookup_insert_simplex. by rewrite decide_True.
    - apply IH. right. by apply insert_simplex_subcomplex. }
  intros Hin. apply H. by left.
Qed.

(** C9, as the code has it.  [create_complex] rejects a negative relaxation
    parameter: it returns [false] and leaves the complex untouched.  Its limit
    dimension is unsigned, so the test for a negative one never fires.  The
    constructor of [Relaxed_witness_complex] checks nothing: whatever [alpha]
    and [limD] are, negative or not, it returns a complex that holds the
    vertex of every landmark below [nbL]; with [limD < 1] that complex is
    exactly the initial fill. *)
Theorem negative_arguments pol table sc max_alpha_square limit_dimension
    distances knn sc_ nbL alpha limD :
  ((max_alpha_square < 0)%Q →
     New.create_complex pol table sc max_alpha_square limit_dimension = (false, sc)) ∧
  (limit_dimension <? 0)%N = false ∧
  (∃ out,
     Relaxed.Relaxed_witness_complex pol distances knn sc_ nbL alpha limD = Some out ∧
     ∀ i : nat, (i < nbL)%nat → is_Some (complex out !! [Z.of_nat i])) ∧
  (limD < 1 →
     Relaxed.Relaxed_witness_complex pol distances knn sc_ nbL alpha limD
       = Some (Machine (Relaxed.insert_landmarks pol nbL sc_) 0)).
Proof.
  split; [|split; [|split]].
  - intros Hneg. unfold New.create_complex.
    destruct (bool_decide _); [done|].
    assert (Qle_bool 0 max_alpha_square = false) as ->; [|done].
    apply not_true_iff_false. rewrite Qle_bool_iff. lra.
  - apply N.ltb_ge. lia.
  - destruct (Relaxed_witness_complex_total pol distances knn sc_ nbL alpha limD)
      as [out Hrun].
    exists out. split; [done|]. intros i Hi.
    apply Relaxed_witness_complex_Some in Hrun as (k & aw & Hrun).
    apply construction_loop_grows in Hrun. apply Hrun. simpl.
    by apply insert_landmarks_vertex.
  - intros Hlim. apply Relaxed_witness_complex_Some. eexists _, _.
    apply construction_loop_done. right. left. lia.
Qed.

(** C9, as stated, fails for the constructor: with [alpha = -1] and
    [limD = -1] it still inserts the vertex of the one landmark. *)
Lemma constructor_rejects_negative_counterexample :
  ¬ constructor_rejects_negative Keep_recorded.
Proof.
  intros H.
  specialize (H [] [] ∅ 1%nat (-1)%Q (-1) (Machine {[ [0] := 0%Q ]} 0)).
  assert (complex (Machine {[ [0] := 0%Q ]} 0) !! [0] = (∅ : gmap (list Z) Q) !! [0])
    as Habs.
  { rewrite H; [done | right; lia | vm_compute; reflexivity]. }
  vm_compute in Habs. discriminate.
Qed.

(** ** The two strategies on one table *)

(** One witness at distance 1 from the landmarks 0, 1 and 2, [alpha = 0],
    dimension limit 2: the rescanning construction contains the triangle
    {0,1,2}; [create_complex] succeeds and contains the three edges, but no
    triangle ([fill_simplices] inserts nothing). *)
Lemma tie_table_triangle pol :
  (∃ out,
     Relaxed.Relaxed_witness_complex pol tie_distances tie_knn ∅ 3 0%Q 2 = Some out ∧
     find (complex out) [0; 1; 2] = Some 0%Q) ∧
  fst (New.create_complex pol tie_table ∅ 0%Q 2) = true ∧
  find (snd (New.create_complex pol tie_table ∅ 0%Q 2)) [0; 1] = Some 0%Q ∧
  find (snd (New.create_complex pol tie_table ∅ 0%Q 2)) [0; 2] = Some 0%Q ∧
  find (snd (New.create_complex pol tie_table ∅ 0%Q 2)) [1; 2] = Some 0%Q ∧
  find (snd (New.create_complex pol tie_table ∅ 0%Q 2)) [0; 1; 2] = None.
Proof.
  destruct pol; (split; [eexists; split; vm_compute; reflexivity|]);
    repeat split; vm_compute; reflexivity.
Qed.

(** ** The construction with witness maps inside the rescanning one *)

Lemma xeq_sym x y : xeq x y → xeq y x.
Proof. destruct x, y; simpl; try done. all: intros H; by symmetry. Qed.

Lemma xeq_trans x y z : xeq x y → xeq y z → xeq x z.
Proof. destruct x, y, z; simpl; try done. all: intros H1 H2; by etrans. Qed.

Lemma xle_xeq q x y : xeq x y → xle q x = xle q y.
Proof.
  destruct x as [a|], y as [b|]; simpl; try done. intros Hab.
  apply eq_true_iff_eq. rewrite !Qle_bool_iff. by rewrite Hab.
Qed.

Lemma norelax_after_xeq x y d :
  xeq x y → xeq (norelax_after x d) (norelax_after y d).
Proof.
  intros Hxy. unfold norelax_after. rewrite (xle_xeq d x y Hxy).
  destruct (xle d y); [apply Qeq_refl | done].
Qed.

Lemma keep_update_norelax nd d :
  (if xgt d nd then nd else Finite d) = norelax_after nd d.
Proof. unfold xgt, norelax_after. by destruct (xle d nd). Qed.

Lemma sorted_key_singleton (l : Z) : sorted_key [l] = [l].
Proof. reflexivity. Qed.

Lemma find_vertex sc (l : Z) : find sc [l] = sc !! [l].
Proof. reflexivity. Qed.

Lemma all_faces_in_edge sc (v l : Z) fv0 :
  is_Some (sc !! [v]) → is_Some (sc !! [l]) →
  fst (Relaxed.all_faces_in sc [v; l] fv0) = true.
Proof.
  intros Hv Hl. apply all_faces_in_flag. intros i Hi.
  destruct i as [|[|i]]; simpl in *; [by rewrite find_vertex..|lia].
Qed.

Section Inclusion.

Variable pol : reinsert_policy.
Variable alpha : Q.
(** The complex the rescanning construction ends with. *)
Variable G : gmap (list Z) Q.

(** The edges that [fill_edges] inserts for the vertex [v] from a cursor are
    inserted by the leaf loop run on the same cursor with the prefix [v]. *)
Lemma edge_scan_in_leaf_scan (v : Z) (suf : list (Z * Q)) nd nd' fv sc wba st :
  xeq nd nd' →
  is_Some (complex st !! [v]) →
  (∀ l, l ∈ suf.*1 → is_Some (complex st !! [l])) →
  subcomplex sc G →
  subcomplex
    (complex (snd (Relaxed.scan_leaf pol alpha nd (suf.*2) (suf.*1) [v] wba st))) G →
  subcomplex (New.insert_vertex_edges pol alpha v nd' fv suf sc) G.
Proof.
  revert nd nd' fv sc wba st.
  induction suf as [|[l d] suf IH]; intros nd nd' fv sc wba st Hnd Hv Hls Hsc Hleaf;
    [done|].
  cbn [fmap list_fmap fst snd] in Hleaf, Hls. simpl in Hleaf. simpl.
  rewrite <- (xle_xeq _ _ _ Hnd).
  destruct (xle (d - alpha) nd); simpl in *; [|done].
  destruct (Relaxed.all_faces_in (complex st) [v; l] (Relaxed.relaxation d nd))
    as [ok fv1] eqn:E.
  assert (ok = true) as ->.
  { change ok with (fst (ok, fv1)). rewrite <- E. apply all_faces_in_edge; [done|].
    apply Hls. by left. }
  set (st1 := with_complex st (insert_simplex pol (complex st) [v; l] fv1)) in *.
  assert (subcomplex (complex st) (complex st1)) as Hgrow.
  { apply insert_simplex_subcomplex. }
  eapply (IH _ _ _ _ true st1); [| | | |done].
  - eapply xeq_trans; [apply leaf_update_norelax|].
    rewrite keep_update_norelax. by apply norelax_after_xeq.
  - by apply Hgrow.
  - intros l' Hl'. apply Hgrow, Hls. by right.
  - intros K HK. rewrite lookup_insert_simplex in HK.
    case_decide as HKey; [|by apply Hsc].
    apply Hleaf, scan_leaf_grows. subst K. simpl.
    rewrite lookup_insert_simplex, decide_True; [eauto|done].
Qed.

Lemma map_emplace_back_good (v : Z) (w : New.Witness_for_simplex) sw_map :
  good_entry pol alpha G (v, [w]) →
  Forall (good_entry pol alpha G) sw_map →
  Forall (good_entry pol alpha G) (New.map_emplace_back v w sw_map).
Proof.
  intros Hw. induction 1 as [|[v' ws] sw_map Hhd Htl IH]; simpl.
  - by constructor.
  - destruct (v <? v'); [by repeat constructor|].
    destruct (v =? v') eqn:Heq; [|by constructor].
    apply Z.eqb_eq in Heq as <-. constructor; [|done].
    intros w' [Hw'|Hw']%elem_of_app; [by apply Hhd | by apply Hw].
Qed.

Lemma add_all_faces_of_dimension_leaf depth nd ds ls simplex st b st' :
  Relaxed.add_all_faces_of_dimension pol depth 0 alpha nd ds ls simplex st
    = Some (b, st') →
  ls = [] ∧ st' = st ∨
  (b, st') = Relaxed.scan_leaf pol alpha nd ds ls simplex false st.
Proof.
  destruct depth as [|depth]; [done|].
  rewrite add_all_faces_of_dimension_S. destruct ls; [|right]; naive_solver.
Qed.

(** The entries that [fill_vertices] records for a row are good, when the
    inner loop at dimension 1 has run over the same row. *)
Lemma record_row_good depth (s : list (Z * Q)) nd nd' wba st b st' sw_map :
  xeq nd nd' →
  (∀ l, l ∈ s.*1 → is_Some (complex st !! [l])) →
  Relaxed.scan_inner (Relaxed.add_all_faces_of_dimension pol depth 0 alpha)
    alpha nd (s.*2) (s.*1) [] wba st = Some (b, st') →
  subcomplex (complex st') G →
  Forall (good_entry pol alpha G) sw_map →
  Forall (good_entry pol alpha G) (New.record_row_vertices alpha nd' s sw_map).
Proof.
  revert nd nd' wba st sw_map.
  induction s as [|[l d] s IH]; intros nd nd' wba st sw_map Hnd Hls Hrun HG Hmap;
    [done|].
  cbn [fmap list_fmap fst snd] in Hrun, Hls. simpl in Hrun. simpl.
  rewrite <- (xle_xeq _ _ _ Hnd).
  destruct (xle (d - alpha) nd); simpl in *; [|done].
  assert (is_Some (complex st !! [l])) as Hl by (apply Hls; by left).
  rewrite find_vertex in Hrun. destruct Hl as [fl Hfl]. rewrite Hfl in Hrun.
  destruct (Relaxed.add_all_faces_of_dimension pol depth 0 alpha nd _ _ [l] st)
    as [[b1 st1]|] eqn:R1; simpl in Hrun; [|done].
  destruct (Relaxed.add_all_faces_of_dimension pol depth 0 alpha _ _ _ [] st1)
    as [[b2 st2]|] eqn:R2; simpl in Hrun; [|done].
  assert (subcomplex (complex st) (complex st1)) as Hg1
    by (by eapply add_all_faces_of_dimension_grows).
  assert (subcomplex (complex st1) (complex st2)) as Hg2
    by (by eapply add_all_faces_of_dimension_grows).
  assert (subcomplex (complex st2) (complex st')) as Hg3.
  { eapply scan_inner_grows; [|done].
    intros. by eapply add_all_faces_of_dimension_grows. }
  eapply (IH _ _ _ st2); [| |done|done|].
  - eapply xeq_trans; [|apply xeq_sym, leaf_update_norelax].
    by apply norelax_after_xeq.
  - intros l' Hl'. apply Hg2, Hg1, Hls. by right.
  - apply map_emplace_back_good; [|done].
    intros w Hw%list_elem_of_singleton sc fv Hsc. subst w. simpl.
    apply add_all_faces_of_dimension_leaf in R1 as [[Hnil _]|R1].
    + by destruct s.
    + eapply (edge_scan_in_leaf_scan l s nd nd' fv sc false st); [done|eauto| |done|].
      * intros l' Hl'. apply Hls. by right.
      * rewrite <- R1. simpl.
        eapply subcomplex_trans; [exact Hg2|].
        eapply subcomplex_trans; [exact Hg3 | exact HG].
Qed.

Lemma insert_row_vertices_in (row : list (Z * Q)) nd fv sc :
  (∀ l, l ∈ row.*1 → is_Some (G !! [l])) →
  subcomplex sc G →
  subcomplex (New.insert_row_vertices pol alpha nd fv row sc) G.
Proof.
  revert nd fv sc. induction row as [|[l d] row IH]; intros nd fv sc Hls Hsc; [done|].
  simpl. destruct (xle (d - alpha) nd); simpl; [|done].
  apply IH.
  - intros l' Hl'. apply Hls. by right.
  - intros K HK. rewrite lookup_insert_simplex in HK.
    case_decide as HKey; [|by apply Hsc].
    subst K. apply Hls. by left.
Qed.

Lemma fill_edges_in sw_map sc :
  Forall (good_entry pol alpha G) sw_map →
  subcomplex sc G →
  subcomplex (New.fill_edges pol alpha sc sw_map) G.
Proof.
  unfold New.fill_edges. intros Hmap. revert sc.
  induction Hmap as [|[v ws] sw_map Hhd Htl IH]; intros sc Hsc; [done|].
  simpl. apply IH. clear IH Htl.
  assert (∀ ws' sc,
            (∀ w, w ∈ ws' → w ∈ ws) → subcomplex sc G →
            subcomplex
              (foldl (fun sc w =>
                        New.insert_vertex_edges pol alpha v (New.limit_distance_ w)
                          0%Q (tail (New.last_it_ w)) sc) sc ws') G) as Hws.
  { induction ws' as [|w ws' IH]; intros sc' Hin Hsc'; [done|].
    simpl. apply IH; [intros; apply Hin; by right|].
    apply (Hhd w); [|done]. apply Hin. by left. }
  by apply Hws.
Qed.

End Inclusion.

Lemma witness_pass_good pol alpha G (table : list (list (Z * Q))) n j st aw' st' sw_map :
  (j + n = length table)%nat →
  Relaxed.witness_pass pol ((fun row => row.*2) <$> table)
    ((fun row => row.*1) <$> table) 1 alpha (seq j n) st = Some (aw', st') →
  (∀ row l, row ∈ table → l ∈ row.*1 → is_Some (complex st !! [l])) →
  subcomplex (complex st') G →
  Forall (good_entry pol alpha G) sw_map →
  Forall (good_entry pol alpha G)
    (foldl (fun sw_map w => New.record_row_vertices alpha Infinity w sw_map)
       sw_map (drop j table)).
Proof.
  revert j st aw' sw_map.
  induction n as [|n IH]; intros j st aw' sw_map Hlen Hrun Hpresent HG Hmap.
  { rewrite drop_ge; [done|lia]. }
  destruct (lookup_lt_is_Some_2 table j) as [row Hrow]; [lia|].
  rewrite (drop_S _ _ _ Hrow). cbn [seq] in Hrun. cbn [foldl].
  rewrite witness_pass_cons in Hrun.
  rewrite (list_lookup_total_correct ((fun row => row.*1) <$> table) j (row.*1)) in Hrun
    by (by rewrite list_lookup_fmap, Hrow).
  rewrite (list_lookup_total_correct ((fun row => row.*2) <$> table) j (row.*2)) in Hrun
    by (by rewrite list_lookup_fmap, Hrow).
  destruct (Relaxed.add_all_faces_of_dimension _ _ _ _ _ _ _ _ _)
    as [[ok st1]|] eqn:E1; [|done].
  destruct (Relaxed.witness_pass _ _ _ _ _ _ st1) as [[rest st2]|] eqn:E2; [|done].
  assert (st2 = st') as -> by congruence.
  assert (subcomplex (complex st) (complex st1)) as Hg1
    by (by eapply add_all_faces_of_dimension_grows).
  assert (subcomplex (complex st1) (complex st')) as Hg2
    by (by eapply witness_pass_grows).
  eapply (IH (S j) st1); [lia|exact E2| |done|].
  - intros row' l Hrow' Hl. apply Hg1. by eapply Hpresent.
  - rewrite add_all_faces_of_dimension_S in E1.
    destruct row as [|[l d] row]; [done|].
    cbn [fmap list_fmap fst snd] in E1.
    change (0 <? 1) with true in E1. change (1 - 1) with 0 in E1. cbv iota in E1.
    eapply (record_row_good pol alpha G _ ((l, d) :: row) Infinity Infinity false st);
      [done| |exact E1| |done].
    + intros l' Hl'. eapply Hpresent; [|done]. by eapply list_elem_of_lookup_2.
    + by eapply subcomplex_trans.
Qed.

Lemma fill_row_vertices_in pol alpha G (table : list (list (Z * Q))) sc :
  (∀ row l, row ∈ table → l ∈ row.*1 → is_Some (G !! [l])) →
  subcomplex sc G →
  subcomplex
    (foldl (fun sc w => New.insert_row_vertices pol alpha Infinity 0%Q w sc) sc table) G.
Proof.
  revert sc. induction table as [|row table IH]; intros sc Hpresent Hsc; [done|].
  simpl. apply IH.
  - intros row' l Hrow' Hl. eapply Hpresent; [by right | done].
  - apply insert_row_vertices_in; [|done].
    intros l Hl. eapply Hpresent; [by left | done].
Qed.

(** The landmark vertices keep the value 0, and the empty simplex is never
    stored. *)
Lemma vertices_stay_zero_insert pol sc cand fv0 fv :
  cand ≠ [] → Relaxed.all_faces_in sc cand fv0 = (true, fv) →
  vertices_at_zero sc → vertices_at_zero (insert_simplex pol sc cand fv).
Proof.
  intros Hne Hok [Hnil Hzero].
  assert (2 ≤ length cand)%nat as Hlen.
  { destruct cand as [|x [|y cand]]; [done| |simpl; lia].
    apply all_faces_in_true in Hok as [_ Hok].
    destruct (Hok 0%nat) as (f & Hf & _); [simpl; lia|].
    unfold find in Hf. simpl in Hf. change (sorted_key []) with (@nil Z) in Hf.
    congruence. }
  rewrite <- sorted_key_length in Hlen.
  split.
  - rewrite lookup_insert_simplex. case_decide as HK; [|done].
    rewrite HK in Hlen. simpl in Hlen. lia.
  - intros l v. rewrite lookup_insert_simplex. case_decide as HK; [|apply Hzero].
    rewrite HK in Hlen. simpl in Hlen. lia.
Qed.

Lemma vertices_stay_zero_landmark pol sc (x : Z) :
  vertices_at_zero sc → vertices_at_zero (insert_simplex pol sc [x] 0%Q).
Proof.
  intros [Hnil Hzero]. split.
  - rewrite lookup_insert_simplex. by case_decide.
  - intros l v. rewrite lookup_insert_simplex. case_decide as HK; [|apply Hzero].
    rewrite sorted_key_singleton. intros [= <-].
    destruct (sc !! [x]) as [v0|] eqn:E; [|done].
    rewrite (Hzero _ _ E). by destruct pol.
Qed.

Lemma vertices_at_zero_empty : vertices_at_zero ∅.
Proof. split; [done|]. intros l v. by rewrite lookup_empty. Qed.

(** On a table whose landmark ids are below [nbL], with at least two
    landmarks and a dimension limit of at least 1, every simplex that
    [create_complex] puts into the empty complex is a simplex of the complex
    [Relaxed_witness_complex] builds from the same table; and that complex
    holds every landmark below [nbL] as a vertex with filtration 0. *)
Lemma create_complex_within_relaxed pol (table : list (list (Z * Q))) nbL alpha limD
    limit_dimension out :
  (∀ row l, row ∈ table → l ∈ row.*1 → 0 ≤ l < Z.of_nat nbL) →
  1 ≤ limD → (2 ≤ nbL)%nat →
  Relaxed.Relaxed_witness_complex pol ((fun row => row.*2) <$> table)
    ((fun row => row.*1) <$> table) ∅ nbL alpha limD = Some out →
  subcomplex (snd (New.create_complex pol table ∅ alpha limit_dimension)) (complex out) ∧
  ∀ i : nat, (i < nbL)%nat → complex out !! [Z.of_nat i] = Some 0%Q.
Proof.
  intros Hids Hlim HnbL Hrun.
  apply Relaxed_witness_complex_Some in Hrun as (k & aw & Hrun).
  set (st0 := Machine (Relaxed.insert_landmarks pol nbL ∅) 0) in Hrun.
  assert (∀ row l, row ∈ table → l ∈ row.*1 → is_Some (complex st0 !! [l]))
    as Hpresent.
  { intros row l Hrow Hl. destruct (Hids row l Hrow Hl) as [H0 HL].
    rewrite <- (Z2Nat.id l) by done. apply insert_landmarks_vertex. lia. }
  assert (subcomplex (complex st0) (complex out)) as Hgrow
    by (by eapply construction_loop_grows).
  split.
  - assert (subcomplex ∅ (complex out)) as Hempty.
    { intros S [f Hf]. by rewrite lookup_empty in Hf. }
    unfold New.create_complex.
    destruct (bool_decide _); [done|].
    destruct (negb _); [done|]. destruct (_ <? _)%N; [done|].
    unfold New.fill_vertices.
    apply fill_edges_in.
    + destruct (decide (table = [])) as [->|Hne]; [constructor|].
      rewrite construction_loop_S in Hrun.
      assert (bool_decide (seq 0 (length ((fun row => row.*1) <$> table)) ≠ [])
              && (1 <=? limD) && (1 <? Z.of_nat nbL) = true) as Hguard.
      { rewrite !andb_true_iff, bool_decide_eq_true, Z.leb_le, Z.ltb_lt.
        split; [split|]; [|lia..].
        rewrite length_fmap. by destruct table. }
      rewrite Hguard in Hrun.
      destruct (Relaxed.witness_pass _ _ _ _ _ _ _) as [[aw1 st1]|] eqn:Hpass; [|done].
      rewrite length_fmap in Hpass.
      apply (witness_pass_good pol alpha (complex out) table (length table) 0 st0
               aw1 st1 []); [lia|done|done| |constructor].
      by eapply construction_loop_grows.
    + apply fill_row_vertices_in; [|done].
      intros row l Hrow Hl. apply Hgrow. by eapply Hpresent.
  - intros i Hi.
    destruct (Hgrow [Z.of_nat i]) as [v Hv]; [by apply insert_landmarks_vertex|].
    rewrite Hv. f_equal.
    assert (vertices_at_zero (complex out)) as [_ Hzero]; [|by eapply Hzero].
    eapply (construction_loop_preserves pol vertices_at_zero); [|done|].
    + intros. by eapply vertices_stay_zero_insert.
    + simpl. apply insert_landmarks_preserves; [|apply vertices_at_zero_empty].
      intros. by apply vertices_stay_zero_landmark.
Qed.

(** ** The theorems at concrete inputs *)

Lemma closure_of_output_witness :
  ∃ out,
    Relaxed.Relaxed_witness_complex Keep_recorded tie_distances tie_knn ∅ 3 0%Q 2
      = Some out ∧
    closed_under_facets (complex out).
Proof.
  eexists. split; [vm_compute; reflexivity|].
  apply (closure_of_output Keep_recorded tie_distances tie_knn ∅ 3 0%Q 2).
  - apply closed_under_facets_empty.
  - vm_compute; reflexivity.
Defined.

Lemma scanning_step_witness :
  xle ((12 # 10) - (1 # 2))%Q (Finite 1) = true ↔
  admissible (1 # 2) (Finite 1) (12 # 10).
Proof.
  exact (proj1 (scanning_step Keep_recorded (fun _ _ _ _ st => Some (false, st))
                  (1 # 2) (Finite 1) (12 # 10) [] 1 [] [0] false (Machine ∅ 0))).
Defined.

Lemma leaf_filtration_value_witness :
  ∃ (fv f : Q) (fs : list Q),
    facet_filtrations (Relaxed.insert_landmarks Keep_recorded 2 ∅) [0; 1]
      = Some (f :: fs) ∧
    (fv == Qmax (closure_bound f fs) (relaxation_cost (12 # 10) (Finite 1)))%Q ∧
    (0 <= fv)%Q.
Proof.
  destruct (leaf_filtration_value Keep_recorded (1 # 2) (Finite 1) (12 # 10) [] 1 []
              [0] false (Machine (Relaxed.insert_landmarks Keep_recorded 2 ∅) 0)
              (2 # 10))
    as [_ (f & fs & Hfs & _ & Hfv & Hpos)].
  - vm_compute; reflexivity.
  - vm_compute; reflexivity.
  - exists (2 # 10)%Q, f, fs. split; [exact Hfs|]. split; [exact Hfv | exact Hpos].
Defined.

Lemma filtration_monotone_witness :
  ∃ out,
    Relaxed.Relaxed_witness_complex Keep_recorded tie_distances tie_knn ∅ 3 0%Q 2
      = Some out ∧
    ∃ fF : Q, complex out !! [0; 2] = Some fF ∧ (fF <= 0)%Q.
Proof.
  eexists. split; [vm_compute; reflexivity|].
  apply (filtration_monotone Keep_recorded tie_distances tie_knn ∅ 3 0%Q 2 _
           facets_recorded_below_empty ltac:(vm_compute; reflexivity) [0; 1; 2]).
  - vm_compute; reflexivity.
  - split; [done|]. apply sublist_skip, sublist_cons, sublist_skip, sublist_nil.
Defined.

Lemma alpha_monotone_witness :
  ∃ out1 out2,
    Relaxed.Relaxed_witness_complex Keep_recorded window_distances window_knn ∅ 3
      0%Q 2 = Some out1 ∧
    Relaxed.Relaxed_witness_complex Keep_recorded window_distances window_knn ∅ 3
      (1 # 2)%Q 2 = Some out2 ∧
    subcomplex (complex out1) (complex out2).
Proof.
  eexists _, _. split; [vm_compute; reflexivity|]. split; [vm_compute; reflexivity|].
  apply (alpha_monotone Keep_recorded window_distances window_knn ∅ 3 0%Q (1 # 2)%Q 2).
  - lra.
  - lra.
  - vm_compute; reflexivity.
  - vm_compute; reflexivity.
Defined.

Lemma window_scenario_witness :
  ∃ out,
    Relaxed.Relaxed_witness_complex Keep_recorded window_distances window_knn ∅ 3
      (1 # 2)%Q 1 = Some out ∧
    complex out = window_complex.
Proof.
  destruct (window_scenario Keep_recorded 1) as (out & Hrun & Hout & _); [lia|].
  exists out. split; [exact Hrun | exact Hout].
Defined.

Lemma guard_reads_past_end_witness :
  (∃ b st',
     Relaxed.add_all_faces_of_dimension Keep_recorded 2 1 0%Q Infinity [1%Q] [0] []
       (Machine ∅ 0) = Some (b, st') ∧
     (0 < past_end_reads st')%nat) ∧
  (∃ b st',
     New.add_all_faces_of_dimension Keep_recorded
       (fun s f sc => Relaxed.all_faces_in sc s f) 2 1 0%Q Infinity [(0, 1%Q)] []
       (Machine ∅ 0) = Some (b, st') ∧
     (0 < past_end_reads st')%nat).
Proof.
  apply (guard_reads_past_end Keep_recorded (fun s f sc => Relaxed.all_faces_in sc s f)
           0%Q [(0, 1%Q)] 2 1 [] (Machine ∅ 0)).
  - done.
  - intros d d' Hd Hd'. simpl in Hd, Hd'.
    apply list_elem_of_singleton in Hd, Hd'. subst. lra.
  - lia.
  - simpl. lia.
Defined.

(** * Further properties of the code *)

(** ** [is_face] *)

Lemma is_face_sound (fvr cfvr : list Z) :
  is_face fvr cfvr = true → fvr `sublist_of` cfvr.
Proof.
  revert fvr. induction cfvr as [|cfv cfvr IH]; intros [|fv fvr] H; simpl in H;
    try done; try apply sublist_nil_l.
  destruct (fv <? cfv); [by apply sublist_cons, IH|].
  destruct (fv =? cfv) eqn:E; [|done].
  apply Z.eqb_eq in E as ->. by apply sublist_skip, IH.
Qed.

Lemma is_face_complete (fvr cfvr : list Z) :
  decreasing cfvr → fvr `sublist_of` cfvr → is_face fvr cfvr = true.
Proof.
  intros Hdec. revert fvr.
  induction cfvr as [|cfv cfvr IH]; intros [|fv fvr] Hsub; simpl; try done.
  - by apply sublist_nil_r in Hsub.
  - apply StronglySorted_inv in Hdec as [Hdec Hhd].
    destruct (fv <? cfv) eqn:Hlt.
    + apply IH; [done|]. apply Z.ltb_lt in Hlt.
      apply sublist_cons_r in Hsub as [Hsub|(fvr' & [= -> ->] & _)]; [done|lia].
    + destruct (fv =? cfv) eqn:Heq.
      * apply IH; [done|].
        apply sublist_cons_r in Hsub as [Hsub|(fvr' & [= _ ->] & Hsub)]; [|done].
        etrans; [|exact Hsub]. by apply sublist_cons.
      * exfalso. apply Z.ltb_ge in Hlt. apply Z.eqb_neq in Heq.
        assert (fv ∈ cfv :: cfvr) as Hin.
        { eapply elem_of_sublist; [|done]. by left. }
        apply elem_of_cons in Hin as [->|Hin]; [done|].
        rewrite Forall_forall in Hhd. specialize (Hhd _ Hin). lia.
Qed.

(** X1.  [is_face] on vertex ranges in decreasing order: it answers [true]
    exactly when the range of the face is a subsequence of the range of the
    coface.  (An answer [true] means a subsequence whatever the order.) *)
Theorem is_face_iff_sublist (fvr cfvr : list Z) :
  decreasing cfvr →
  (is_face fvr cfvr = true ↔ fvr `sublist_of` cfvr).
Proof.
  intros Hdec. split; [apply is_face_sound | by apply is_face_complete].
Qed.

(** ** A call that reports [false] has changed nothing *)

Lemma scan_leaf_false pol alpha nd ds ls simplex wba st :
  fst (Relaxed.scan_leaf pol alpha nd ds ls simplex wba st) = false →
  wba = false ∧
  complex (snd (Relaxed.scan_leaf pol alpha nd ds ls simplex wba st)) = complex st.
Proof.
  revert nd ds wba st.
  induction ls as [|l ls IH]; intros nd ds wba st; destruct ds as [|d ds]; simpl;
    try done.
  - by destruct (xle _ _).
  - destruct (xle (d - alpha) nd); simpl; [|done].
    destruct (Relaxed.all_faces_in _ _ _) as [[] fv].
    + rewrite scan_leaf_flag. done.
    + apply IH.
Qed.

Lemma scan_inner_false rec alpha nd ds ls simplex wba st st' :
  (∀ nd ds ls simplex st st',
     rec nd ds ls simplex st = Some (false, st') → complex st' = complex st) →
  Relaxed.scan_inner rec alpha nd ds ls simplex wba st = Some (false, st') →
  wba = false ∧ complex st' = complex st.
Proof.
  intros Hrec. revert nd ds wba st.
  induction ls as [|l ls IH]; intros nd ds wba st Hrun; destruct ds as [|d ds];
    simpl in Hrun.
  - by simplify_eq.
  - destruct (xle _ _); simpl in Hrun; by simplify_eq.
  - by simplify_eq.
  - destruct (xle (d - alpha) nd); simpl in Hrun; [|by simplify_eq].
    destruct (find (complex st) (simplex ++ [l])) as [f|].
    + destruct (rec nd ds ls (simplex ++ [l]) st) as [[b1 st1]|] eqn:E1;
        simpl in Hrun; [|done].
      destruct (rec _ ds ls simplex st1) as [[b2 st2]|] eqn:E2; simpl in Hrun; [|done].
      apply IH in Hrun as [Hflag Hrun].
      apply orb_false_iff in Hflag as [-> [-> ->]%orb_false_iff].
      split; [done|]. rewrite Hrun.
      rewrite (Hrec _ _ _ _ _ _ E2). by rewrite (Hrec _ _ _ _ _ _ E1).
    + simpl in Hrun.
      destruct (rec _ ds ls simplex st) as [[b2 st2]|] eqn:E2; simpl in Hrun; [|done].
      apply IH in Hrun as [Hflag Hrun].
      apply orb_false_iff in Hflag as [-> ->].
      split; [done|]. rewrite Hrun. by rewrite (Hrec _ _ _ _ _ _ E2).
Qed.

(** X2.  When [add_all_faces_of_dimension] returns [false] (the witness is
    reported as no longer active) the call has left the complex exactly as it
    found it. *)
Theorem inactive_call_changes_nothing pol depth dim alpha nd ds ls simplex st st' :
  Relaxed.add_all_faces_of_dimension pol depth dim alpha nd ds ls simplex st
    = Some (false, st') →
  complex st' = complex st.
Proof.
  revert dim nd ds ls simplex st st'.
  induction depth as [|depth IH]; intros dim nd ds ls simplex st st' Hrun; [done|].
  rewrite add_all_faces_of_dimension_S in Hrun.
  destruct ls as [|l ls]; [by simplify_eq|].
  destruct (0 <? dim).
  - eapply scan_inner_false; [|done]. intros. by eapply IH.
  - destruct (dim =? 0); [|by simplify_eq].
    assert (Relaxed.scan_leaf pol alpha nd ds (l :: ls) simplex false st = (false, st'))
      as E by congruence.
    pose proof (scan_leaf_false pol alpha nd ds (l :: ls) simplex false st) as H.
    rewrite E in H. by apply H.
Qed.

(** ** The pool of active witnesses and the rounds of the outer loop *)

Lemma witness_pass_sublist pol distances knn k alpha (active_w : list nat) st
    active_w' st' :
  Relaxed.witness_pass pol distances knn k alpha active_w st = Some (active_w', st') →
  active_w' `sublist_of` active_w.
Proof.
  revert st active_w' st'.
  induction active_w as [|w rest IH]; intros st active_w' st' Hrun.
  - by inversion Hrun.
  - rewrite witness_pass_cons in Hrun.
    destruct (Relaxed.add_all_faces_of_dimension _ _ _ _ _ _ _ _ _)
      as [[ok st1]|]; [|done].
    destruct (Relaxed.witness_pass _ _ _ _ _ rest st1) as [[rest' st2]|] eqn:E2;
      [|done].
    apply IH in E2. simplify_eq. destruct ok; by constructor.
Qed.

(** X3.  The outer loop of the constructor only ever erases witnesses, and
    it makes at most [min(limD, nbL - 1)] rounds: the pool it ends with is a
    subsequence of the pool it started with, and the dimension counter it ends
    with is the one it started with or is at most [limD + 1] and at most
    [nbL]. *)
Theorem pool_shrinks_rounds_bounded pol fuel distances knn nbL alpha limD k
    (active_w : list nat) st k' active_w' st' :
  Relaxed.construction_loop pol fuel distances knn nbL alpha limD k active_w st
    = Some (k', active_w', st') →
  active_w' `sublist_of` active_w ∧
  k ≤ k' ∧ (k' = k ∨ k' ≤ limD + 1 ∧ k' ≤ Z.of_nat nbL).
Proof.
  revert k active_w st.
  induction fuel as [|fuel IH]; intros k active_w st Hrun; [done|].
  rewrite construction_loop_S in Hrun.
  destruct (_ && _) eqn:Hguard; [|simplify_eq; split; [done|lia]].
  destruct (Relaxed.witness_pass _ _ _ _ _ _ _) as [[aw1 st1]|] eqn:Hpass; [|done].
  apply witness_pass_sublist in Hpass.
  apply IH in Hrun as (Hsub & Hk & Hbound).
  apply andb_true_iff in Hguard as [[_ Hlim%Z.leb_le]%andb_true_iff HnbL%Z.ltb_lt].
  split; [by etrans|]. split; lia.
Qed.

(** ** The closure oracle *)

(** X4.  [all_faces_in] answers [true] exactly when every facet of the
    simplex is found; whatever it answers, the value it leaves in
    [*filtration_value] is not below the one it was handed, and when it
    answers [true] that value is not below the value of any facet. *)
Theorem all_faces_in_answer sc simplex fv0 :
  (fst (Relaxed.all_faces_in sc simplex fv0) = true ↔
   ∀ i, (i < length simplex)%nat → is_Some (find sc (delete i simplex))) ∧
  (fv0 <= snd (Relaxed.all_faces_in sc simplex fv0))%Q ∧
  (fst (Relaxed.all_faces_in sc simplex fv0) = true →
   ∀ i f, (i < length simplex)%nat → find sc (delete i simplex) = Some f →
     (f <= snd (Relaxed.all_faces_in sc simplex fv0))%Q).
Proof.
  split; [apply all_faces_in_flag|]. split.
  - unfold Relaxed.all_faces_in. generalize (seq 0 (length simplex)) as idx.
    intros idx. revert fv0. induction idx as [|j idx IH]; intros fv0; simpl.
    + apply Qle_refl.
    + destruct (find sc (delete j simplex)) as [f|]; simpl; [|apply Qle_refl].
      eapply Qle_trans; [|apply IH].
      destruct (Qgt_bool f fv0) eqn:E; [|apply Qle_refl].
      apply Qgt_bool_true in E. by apply Qlt_le_weak.
  - destruct (Relaxed.all_faces_in sc simplex fv0) as [ok fv] eqn:E. simpl.
    intros -> i f Hi Hf. apply all_faces_in_true in E as [_ E].
    destruct (E i Hi) as (f' & Hf' & Hle). congruence.
Qed.

(** ** Recorded values are not negative *)

Lemma values_nonneg_insert pol sc cand fv :
  (0 <= fv)%Q → values_nonneg sc → values_nonneg (insert_simplex pol sc cand fv).
Proof.
  intros Hfv Hsc S f. rewrite lookup_insert_simplex. case_decide; [|apply Hsc].
  intros [= <-].
  destruct (recorded_cases pol (sc !! sorted_key cand) fv)
    as [->|(f0 & Hold & -> & _)]; [done|]. by eapply Hsc.
Qed.

(** X5.  When no value recorded in the complex handed to the constructor is
    negative, no value recorded in the complex it leaves is negative,
    whatever the distances and [alpha] are. *)
Theorem values_stay_nonneg pol distances knn sc_ nbL alpha limD out :
  values_nonneg sc_ →
  Relaxed.Relaxed_witness_complex pol distances knn sc_ nbL alpha limD = Some out →
  values_nonneg (complex out).
Proof.
  intros Hsc. apply Relaxed_witness_complex_preserves; [| |done].
  - intros sc v. by apply values_nonneg_insert.
  - intros sc cand fv0 fv Hne Hok HP. apply values_nonneg_insert; [|done].
    apply all_faces_in_true in Hok as [_ Hok].
    destruct (Hok 0%nat) as (f & Hf & Hle); [destruct cand; [done|simpl; lia]|].
    eapply Qle_trans; [|done]. by eapply HP.
Qed.

(** ** The number of vertices of the simplices a call inserts *)

Lemma grown_within_refl sc lo hi : grown_within sc sc lo hi.
Proof. intros S HS. by left. Qed.

Lemma grown_within_trans sc0 sc1 sc2 lo1 hi1 lo2 hi2 lo hi :
  grown_within sc0 sc1 lo1 hi1 → grown_within sc1 sc2 lo2 hi2 →
  (lo ≤ lo1)%nat → (lo ≤ lo2)%nat → (hi1 ≤ hi)%nat → (hi2 ≤ hi)%nat →
  grown_within sc0 sc2 lo hi.
Proof.
  intros H1 H2 ???? S HS.
  destruct (H2 S HS) as [HS1|?]; [|right; lia].
  destruct (H1 S HS1) as [?|?]; [by left|right; lia].
Qed.

Lemma grown_within_weaken sc0 sc lo1 hi1 lo hi :
  grown_within sc0 sc lo1 hi1 → (lo ≤ lo1)%nat → (hi1 ≤ hi)%nat →
  grown_within sc0 sc lo hi.
Proof. intros H ?? S HS. destruct (H S HS); [by left|right; lia]. Qed.

Lemma grown_within_insert pol sc cand fv :
  grown_within sc (insert_simplex pol sc cand fv) (length cand) (length cand).
Proof.
  intros S. rewrite lookup_insert_simplex. case_decide as HK; [|by left].
  intros _. right. rewrite <- HK, sorted_key_length. lia.
Qed.

Lemma scan_leaf_within pol alpha nd ds ls simplex wba st :
  grown_within (complex st)
    (complex (snd (Relaxed.scan_leaf pol alpha nd ds ls simplex wba st)))
    (S (length simplex)) (S (length simplex)).
Proof.
  revert nd ds wba st.
  induction ls as [|l ls IH]; intros nd ds wba st; destruct ds as [|d ds]; simpl;
    try apply grown_within_refl.
  - destruct (xle _ _); apply grown_within_refl.
  - destruct (xle (d - alpha) nd); simpl; [|apply grown_within_refl].
    destruct (Relaxed.all_faces_in _ _ _) as [[] fv]; [|apply IH].
    eapply grown_within_trans; [|apply IH|..]; [|reflexivity..].
    simpl. pose proof (grown_within_insert pol (complex st) (simplex ++ [l]) fv) as H.
    rewrite length_app in H. simpl in H.
    by replace (length simplex + 1)%nat with (S (length simplex)) in H by lia.
Qed.

Lemma scan_inner_within rec alpha nd ds ls simplex wba st b st' lo hi :
  (∀ nd ds ls l st b st',
     rec nd ds ls (simplex ++ [l]) st = Some (b, st') →
     grown_within (complex st) (complex st') lo hi) →
  (∀ nd ds ls st b st',
     rec nd ds ls simplex st = Some (b, st') →
     grown_within (complex st) (complex st') lo hi) →
  Relaxed.scan_inner rec alpha nd ds ls simplex wba st = Some (b, st') →
  grown_within (complex st) (complex st') lo hi.
Proof.
  intros Hin Hout. revert nd ds wba st.
  induction ls as [|l ls IH]; intros nd ds wba st Hrun; destruct ds as [|d ds];
    simpl in Hrun.
  - simplify_eq. apply grown_within_refl.
  - destruct (xle _ _); simpl in Hrun; simplify_eq; apply grown_within_refl.
  - simplify_eq. apply grown_within_refl.
  - destruct (xle (d - alpha) nd); simpl in Hrun;
      [|simplify_eq; apply grown_within_refl].
    destruct (find (complex st) (simplex ++ [l])) as [f|].
    + destruct (rec nd ds ls (simplex ++ [l]) st) as [[b1 st1]|] eqn:E1;
        simpl in Hrun; [|done].
      destruct (rec _ ds ls simplex st1) as [[b2 st2]|] eqn:E2; simpl in Hrun; [|done].
      apply IH in Hrun. apply Hin in E1. apply Hout in E2.
      eapply grown_within_trans; [|exact Hrun|..]; [|reflexivity..].
      eapply grown_within_trans; [exact E1|exact E2|..]; reflexivity.
    + simpl in Hrun.
      destruct (rec _ ds ls simplex st) as [[b2 st2]|] eqn:E2; simpl in Hrun; [|done].
      apply IH in Hrun. apply Hout in E2.
      eapply grown_within_trans; [exact E2|exact Hrun|..]; reflexivity.
Qed.

Lemma add_all_faces_of_dimension_within pol depth dim alpha nd ds ls simplex st b st' :
  Relaxed.add_all_faces_of_dimension pol depth dim alpha nd ds ls simplex st
    = Some (b, st') →
  grown_within (complex st) (complex st')
    (S (length simplex)) (S (length simplex) + Z.to_nat dim).
Proof.
  revert dim nd ds ls simplex st b st'.
  induction depth as [|depth IH]; intros dim nd ds ls simplex st b st' Hrun; [done|].
  rewrite add_all_faces_of_dimension_S in Hrun.
  destruct ls as [|l ls]; [simplify_eq; apply grown_within_refl|].
  destruct (0 <? dim) eqn:Hdim.
  - apply Z.ltb_lt in Hdim.
    eapply scan_inner_within; [| |done].
    + intros nd' ds' ls' l' st1 b1 st1' Hrec. apply IH in Hrec.
      rewrite length_app in Hrec. simpl in Hrec.
      eapply grown_within_weaken; [exact Hrec|..]; lia.
    + intros nd' ds' ls' st1 b1 st1' Hrec. apply IH in Hrec.
      eapply grown_within_weaken; [exact Hrec|..]; lia.
  - destruct (dim =? 0); [|simplify_eq; apply grown_within_refl].
    assert (Relaxed.scan_leaf pol alpha nd ds (l :: ls) simplex false st = (b, st'))
      as E by congruence.
    pose proof (scan_leaf_within pol alpha nd ds (l :: ls) simplex false st) as H.
    rewrite E in H.
    eapply grown_within_weaken; [exact H|..]; lia.
Qed.

Lemma witness_pass_within pol distances knn k alpha (active_w : list nat) st
    active_w' st' :
  Relaxed.witness_pass pol distances knn k alpha active_w st = Some (active_w', st') →
  grown_within (complex st) (complex st') 1 (1 + Z.to_nat k).
Proof.
  revert st active_w' st'.
  induction active_w as [|w rest IH]; intros st active_w' st' Hrun.
  - inversion Hrun; subst. apply grown_within_refl.
  - rewrite witness_pass_cons in Hrun.
    destruct (Relaxed.add_all_faces_of_dimension _ _ _ _ _ _ _ _ _)
      as [[ok st1]|] eqn:E1; [|done].
    destruct (Relaxed.witness_pass _ _ _ _ _ rest st1) as [[rest' st2]|] eqn:E2;
      [|done].
    apply IH in E2. apply add_all_faces_of_dimension_within in E1.
    simplify_eq. eapply grown_within_trans; [exact E1|exact E2|..]; simpl; lia.
Qed.

Lemma construction_loop_within pol fuel distances knn nbL alpha limD k
    (active_w : list nat) st k' active_w' st' :
  0 ≤ k →
  Relaxed.construction_loop pol fuel distances knn nbL alpha limD k active_w st
    = Some (k', active_w', st') →
  grown_within (complex st) (complex st') 1
    (Z.to_nat (Z.max 1 (Z.min (limD + 1) (Z.of_nat nbL)))).
Proof.
  revert k active_w st.
  induction fuel as [|fuel IH]; intros k active_w st Hk Hrun; [done|].
  rewrite construction_loop_S in Hrun.
  destruct (_ && _) eqn:Hguard; [|simplify_eq; apply grown_within_refl].
  destruct (Relaxed.witness_pass _ _ _ _ _ _ _) as [[aw1 st1]|] eqn:Hpass; [|done].
  apply witness_pass_within in Hpass.
  apply IH in Hrun; [|lia].
  apply andb_true_iff in Hguard as [[_ Hlim%Z.leb_le]%andb_true_iff HnbL%Z.ltb_lt].
  eapply grown_within_trans; [exact Hpass|exact Hrun|..]; lia.
Qed.

(** X6.  The constructor inserts no simplex with more than
    [max(1, min(limD + 1, nbL))] vertices, and never the empty one: every
    simplex of the complex it leaves that was not in the complex it was handed
    has between 1 and that many vertices. *)
Theorem dimension_of_output pol distances knn sc_ nbL alpha limD out :
  Relaxed.Relaxed_witness_complex pol distances knn sc_ nbL alpha limD = Some out →
  grown_within sc_ (complex out) 1
    (Z.to_nat (Z.max 1 (Z.min (limD + 1) (Z.of_nat nbL)))).
Proof.
  intros (k & aw & Hrun)%Relaxed_witness_complex_Some.
  apply construction_loop_within in Hrun; [|lia]. simpl in Hrun.
  assert (grown_within sc_ (Relaxed.insert_landmarks pol nbL sc_) 1 1) as Hfill.
  { apply (insert_landmarks_preserves pol (fun sc => grown_within sc_ sc 1 1));
      [|apply grown_within_refl].
    intros sc v H.
    eapply grown_within_trans; [exact H|apply grown_within_insert|..]; simpl; lia. }
  eapply grown_within_trans; [exact Hfill|exact Hrun|..]; lia.
Qed.

(** ** The vertices of the complex *)

Lemma insert_landmarks_S pol nbL sc :
  Relaxed.insert_landmarks pol (S nbL) sc =
  insert_simplex pol (Relaxed.insert_landmarks pol nbL sc) [Z.of_nat nbL] 0%Q.
Proof.
  unfold Relaxed.insert_landmarks. by rewrite seq_S, foldl_app.
Qed.

Lemma insert_landmarks_lookup pol nbL sc (l : Z) :
  Relaxed.insert_landmarks pol nbL sc !! [l] =
    if bool_decide (0 ≤ l < Z.of_nat nbL) then Some (recorded pol (sc !! [l]) 0%Q)
    else sc !! [l].
Proof.
  induction nbL as [|nbL IH].
  - rewrite bool_decide_eq_false_2 by lia. done.
  - rewrite insert_landmarks_S, lookup_insert_simplex, sorted_key_singleton.
    destruct (decide ([Z.of_nat nbL] = [l])) as [HK|HK].
    + injection HK as <-. rewrite IH.
      rewrite bool_decide_eq_false_2 by lia.
      by rewrite bool_decide_eq_true_2 by lia.
    + rewrite IH. assert (l ≠ Z.of_nat nbL) by congruence.
      case_bool_decide; [by rewrite bool_decide_eq_true_2 by lia|].
      by rewrite bool_decide_eq_false_2 by lia.
Qed.

Lemma insert_landmarks_nil pol nbL sc :
  Relaxed.insert_landmarks pol nbL sc !! [] = sc !! [].
Proof.
  induction nbL as [|nbL IH]; [done|].
  rewrite insert_landmarks_S, lookup_insert_simplex, sorted_key_singleton.
  by case_decide.
Qed.

(** A candidate the oracle accepts has at least two vertices when the empty
    simplex is not stored. *)
Lemma accepted_candidate_length sc cand fv0 fv :
  sc !! [] = None → cand ≠ [] → Relaxed.all_faces_in sc cand fv0 = (true, fv) →
  (2 ≤ length cand)%nat.
Proof.
  intros Hnil Hne Hok.
  destruct cand as [|x [|y cand]]; [done| |simpl; lia].
  apply all_faces_in_true in Hok as [_ Hok].
  destruct (Hok 0%nat) as (f & Hf & _); [simpl; lia|].
  unfold find in Hf. simpl in Hf. change (sorted_key []) with (@nil Z) in Hf.
  congruence.
Qed.

(** The rounds of the outer loop leave the vertices and the empty simplex as
    they find them. *)
Lemma construction_loop_vertices pol fuel distances knn nbL alpha limD k
    (active_w : list nat) st k' active_w' st' :
  complex st !! [] = None →
  Relaxed.construction_loop pol fuel distances knn nbL alpha limD k active_w st
    = Some (k', active_w', st') →
  complex st' !! [] = None ∧ ∀ l : Z, complex st' !! [l] = complex st !! [l].
Proof.
  intros Hnil Hrun.
  eapply (construction_loop_preserves pol
            (fun sc => sc !! [] = None ∧ ∀ l : Z, sc !! [l] = complex st !! [l]));
    [|done|done].
  intros sc cand fv0 fv Hne Hok [Hnil' Hsame].
  pose proof (accepted_candidate_length _ _ _ _ Hnil' Hne Hok) as Hlen.
  rewrite <- sorted_key_length in Hlen.
  split.
  - rewrite lookup_insert_simplex. case_decide as HK; [|done].
    rewrite HK in Hlen. simpl in Hlen. lia.
  - intros l. rewrite lookup_insert_simplex. case_decide as HK; [|apply Hsame].
    rewrite HK in Hlen. simpl in Hlen. lia.
Qed.

(** X7.  When the complex handed to the constructor does not hold the empty
    simplex, the vertices of the complex it leaves are those of the initial
    fill: a landmark [0 <= l < nbL] is a vertex, with the value [insert_simplex]
    records for it, and any other vertex is as the constructor found it.  The
    rounds of the loop insert no vertex. *)
Theorem vertices_of_output pol distances knn sc_ nbL alpha limD out (l : Z) :
  sc_ !! [] = None →
  Relaxed.Relaxed_witness_complex pol distances knn sc_ nbL alpha limD = Some out →
  complex out !! [l] =
    if bool_decide (0 ≤ l < Z.of_nat nbL) then Some (recorded pol (sc_ !! [l]) 0%Q)
    else sc_ !! [l].
Proof.
  intros Hnil (k & aw & Hrun)%Relaxed_witness_complex_Some.
  apply construction_loop_vertices in Hrun as [_ Hrun].
  - rewrite Hrun. simpl. apply insert_landmarks_lookup.
  - simpl. by rewrite insert_landmarks_nil.
Qed.

(** X8.  Run on the empty complex, the constructor builds a complex on the
    landmarks [0 .. nbL-1] only: every vertex of every simplex it stores is one
    of them, whatever ids the rows of [knn] hold. *)
Theorem simplices_on_landmarks pol distances knn nbL alpha limD out
    (S : list Z) (v : Z) :
  Relaxed.Relaxed_witness_complex pol distances knn ∅ nbL alpha limD = Some out →
  is_Some (complex out !! S) → v ∈ S → 0 ≤ v < Z.of_nat nbL.
Proof.
  intros Hrun [f HS] Hv.
  assert (facets_recorded_below (complex out)) as Hbelow.
  { revert Hrun.
    apply Relaxed_witness_complex_preserves; [| |apply facets_recorded_below_empty].
    - intros sc x. apply facets_recorded_below_insert. simpl. lia.
    - intros sc cand fv0 fv _ Hok. apply facets_recorded_below_insert.
      intros _. by apply all_faces_in_true in Hok as [_ Hok]. }
  destruct (faces_recorded_below _ Hbelow S [v] f HS) as (fv & Hfv & _).
  { split; [done|]. by apply singleton_sublist_l. }
  apply Relaxed_witness_complex_Some in Hrun as (k & aw & Hrun).
  apply construction_loop_vertices in Hrun as [_ Hrun];
    [|simpl; by rewrite insert_landmarks_nil].
  rewrite Hrun in Hfv. simpl in Hfv. rewrite insert_landmarks_lookup in Hfv.
  case_bool_decide; [done|]. by rewrite lookup_empty in Hfv.
Qed.

(** ** The dimension limit *)

(** X9.  The dimension limit saturates at [nbL - 1] as far as the simplices
    go: two limits that are both at least [nbL - 1] leave the same simplices
    with the same values in the complex.  (The dimension attribute that the
    final [sc.set_dimension(limD)] records is [limD] itself; it is not part of
    the map of simplices.) *)
Theorem dimension_limit_saturates pol distances knn sc_ nbL alpha limD limD' :
  Z.of_nat nbL - 1 ≤ limD → Z.of_nat nbL - 1 ≤ limD' →
  complex <$> Relaxed.Relaxed_witness_complex pol distances knn sc_ nbL alpha limD =
  complex <$> Relaxed.Relaxed_witness_complex pol distances knn sc_ nbL alpha limD'.
Proof.
  intros H H'.
  rewrite (Relaxed_witness_complex_limD_cap _ _ _ _ _ _ limD) by done.
  by rewrite (Relaxed_witness_complex_limD_cap _ _ _ _ _ _ limD').
Qed.

(** ** The two nearest landmarks of a witness *)


(** ** The two nearest landmarks of a witness *)

Lemma leaf_call_edge pol depth alpha (l0 l1 : Z) ls (d1 : Q) ds st b st' :
  is_Some (complex st !! [l0]) → is_Some (complex st !! [l1]) →
  Relaxed.add_all_faces_of_dimension pol depth 0 alpha Infinity (d1 :: ds) (l1 :: ls)
    [l0] st = Some (b, st') →
  is_Some (find (complex st') [l0; l1]).
Proof.
  intros H0 H1 Hrun. destruct depth as [|depth]; [done|].
  rewrite add_all_faces_of_dimension_S in Hrun. simpl in Hrun.
  pose proof (all_faces_in_edge (complex st) l0 l1 (Relaxed.relaxation d1 Infinity)
                H0 H1) as Hok.
  destruct (Relaxed.all_faces_in _ _ _) as [ok fv]. simpl in Hok. subst ok.
  match type of Hrun with
  | Some (Relaxed.scan_leaf ?p ?a ?n ?d ?l ?s ?w ?t) = _ =>
      pose proof (scan_leaf_grows p a n d l s w t) as Hgrow;
      assert (Relaxed.scan_leaf p a n d l s w t = (b, st')) as E by congruence;
      rewrite E in Hgrow
  end.
  apply Hgrow. simpl. rewrite lookup_insert_simplex. by rewrite decide_True.
Qed.

Lemma first_round_edge pol depth alpha (l0 l1 : Z) ls (d0 d1 : Q) ds st b st' :
  is_Some (complex st !! [l0]) → is_Some (complex st !! [l1]) →
  Relaxed.add_all_faces_of_dimension pol depth 1 alpha Infinity (d0 :: d1 :: ds)
    (l0 :: l1 :: ls) [] st = Some (b, st') →
  is_Some (find (complex st') [l0; l1]).
Proof.
  intros H0 H1 Hrun. destruct depth as [|depth]; [done|].
  rewrite add_all_faces_of_dimension_S in Hrun.
  remember (l1 :: ls) as ls1 eqn:Hls1. remember (d1 :: ds) as ds1 eqn:Hds1.
  simpl in Hrun.
  rewrite find_vertex in Hrun. destruct H0 as [f0 H0]. rewrite H0 in Hrun.
  destruct (Relaxed.add_all_faces_of_dimension pol depth _ alpha Infinity ds1
              ls1 [l0] st) as [[b1 st1]|] eqn:E1; simpl in Hrun; [|done].
  rewrite Hls1, Hds1 in E1. apply leaf_call_edge in E1; [|by eauto|done].
  destruct (Relaxed.add_all_faces_of_dimension pol depth _ alpha _ ds1
              ls1 [] st1) as [[b2 st2]|] eqn:E2; simpl in Hrun; [|done].
  apply add_all_faces_of_dimension_grows in E2.
  apply scan_inner_grows in Hrun;
    [|intros; by eapply add_all_faces_of_dimension_grows].
  apply Hrun, E2, E1.
Qed.

Lemma witness_pass_edge pol distances knn alpha (active_w : list nat) st active_w' st'
    (w : nat) (l0 l1 : Z) ls (d0 d1 : Q) ds :
  knn !!! w = l0 :: l1 :: ls → distances !!! w = d0 :: d1 :: ds →
  is_Some (complex st !! [l0]) → is_Some (complex st !! [l1]) →
  w ∈ active_w →
  Relaxed.witness_pass pol distances knn 1 alpha active_w st = Some (active_w', st') →
  is_Some (find (complex st') [l0; l1]).
Proof.
  intros Hknn Hdist. revert st active_w' st'.
  induction active_w as [|w' rest IH]; intros st active_w' st' H0 H1 Hin Hrun.
  - by apply elem_of_nil in Hin.
  - rewrite witness_pass_cons in Hrun.
    destruct (Relaxed.add_all_faces_of_dimension _ _ _ _ _ _ _ _ _)
      as [[ok st1]|] eqn:E1; [|done].
    destruct (Relaxed.witness_pass _ _ _ _ _ rest st1) as [[rest' st2]|] eqn:E2;
      [|done].
    simplify_eq.
    apply elem_of_cons in Hin as [->|Hin].
    + rewrite Hknn, Hdist in E1. apply first_round_edge in E1; [|done..].
      apply witness_pass_grows in E2. by apply E2.
    + apply add_all_faces_of_dimension_grows in E1.
      eapply IH; [by apply E1|by apply E1|done|done].
Qed.

(** X10.  A witness whose row holds at least two landmarks, both below
    [nbL], puts the edge of its two nearest landmarks into the complex, as soon
    as one round is run ([limD >= 1], [nbL >= 2]) — whatever [alpha] is, zero
    and negative values included, and whatever the two distances are. *)
Theorem nearest_pair_edge pol distances knn sc_ nbL alpha limD out
    (w : nat) (l0 l1 : Z) ls (d0 d1 : Q) ds :
  knn !! w = Some (l0 :: l1 :: ls) → distances !! w = Some (d0 :: d1 :: ds) →
  0 ≤ l0 < Z.of_nat nbL → 0 ≤ l1 < Z.of_nat nbL →
  1 ≤ limD → (2 ≤ nbL)%nat →
  Relaxed.Relaxed_witness_complex pol distances knn sc_ nbL alpha limD = Some out →
  is_Some (find (complex out) [l0; l1]).
Proof.
  intros Hknn Hdist Hl0 Hl1 Hlim HnbL (k & aw & Hrun)%Relaxed_witness_complex_Some.
  assert (w ∈ seq 0 (length knn)) as Hin.
  { apply elem_of_seq. apply lookup_lt_Some in Hknn. lia. }
  rewrite construction_loop_S in Hrun.
  assert (bool_decide (seq 0 (length knn) ≠ []) && (1 <=? limD) && (1 <? Z.of_nat nbL)
          = true) as Hguard.
  { rewrite !andb_true_iff, bool_decide_eq_true, Z.leb_le, Z.ltb_lt.
    split; [split|]; [|lia..]. intros Hnil. rewrite Hnil in Hin.
    by apply elem_of_nil in Hin. }
  rewrite Hguard in Hrun.
  destruct (Relaxed.witness_pass _ _ _ _ _ _ _) as [[aw1 st1]|] eqn:Hpass; [|done].
  apply construction_loop_grows in Hrun. apply Hrun.
  eapply witness_pass_edge in Hpass; [done| | | | |done].
  - by apply list_lookup_total_correct.
  - by apply list_lookup_total_correct.
  - simpl. rewrite <- (Z2Nat.id l0) by lia. apply insert_landmarks_vertex. lia.
  - simpl. rewrite <- (Z2Nat.id l1) by lia. apply insert_landmarks_vertex. lia.
Qed.

(** ** [Witness_complex_new::add_all_faces_of_dimension] *)

Lemma New_scan_leaf_within pol oracle alpha nd (row : list (Z * Q)) simplex wba st :
  grown_within (complex st)
    (complex (snd (New.scan_leaf pol oracle alpha nd row simplex wba st)))
    (S (length simplex)) (S (length simplex)).
Proof.
  revert nd wba st.
  induction row as [|[l d] row IH]; intros nd wba st; simpl;
    [apply grown_within_refl|].
  destruct (xle (d - alpha) nd); simpl; [|apply grown_within_refl].
  destruct (oracle _ _ _) as [[] fv]; [|apply IH].
  eapply grown_within_trans; [|apply IH|..]; [|reflexivity..].
  simpl. pose proof (grown_within_insert pol (complex st) (simplex ++ [l]) fv) as H.
  rewrite length_app in H. simpl in H.
  by replace (length simplex + 1)%nat with (S (length simplex)) in H by lia.
Qed.

Lemma New_scan_inner_within rec dim alpha nd (row : list (Z * Q)) simplex wba st b st'
    n :
  (∀ nd row l st b st',
     rec (dim - 1) nd row (simplex ++ [l]) st = Some (b, st') →
     grown_within (complex st) (complex st') n n) →
  (∀ nd row st b st',
     rec dim nd row simplex st = Some (b, st') →
     grown_within (complex st) (complex st') n n) →
  New.scan_inner rec dim alpha nd row simplex wba st = Some (b, st') →
  grown_within (complex st) (complex st') n n.
Proof.
  intros Hin Hout. revert nd wba st.
  induction row as [|[l d] row IH]; intros nd wba st Hrun; simpl in Hrun.
  - simplify_eq. apply grown_within_refl.
  - destruct (xle (d - alpha) nd); simpl in Hrun;
      [|simplify_eq; apply grown_within_refl].
    destruct (find (complex st) (simplex ++ [l])) as [f|].
    + destruct (rec (dim - 1) nd row (simplex ++ [l]) st) as [[b1 st1]|] eqn:E1;
        simpl in Hrun; [|done].
      destruct (rec dim _ row simplex st1) as [[b2 st2]|] eqn:E2;
        simpl in Hrun; [|done].
      apply IH in Hrun. apply Hin in E1. apply Hout in E2.
      eapply grown_within_trans; [|exact Hrun|..]; [|reflexivity..].
      eapply grown_within_trans; [exact E1|exact E2|..]; reflexivity.
    + simpl in Hrun.
      destruct (rec dim _ row simplex st) as [[b2 st2]|] eqn:E2;
        simpl in Hrun; [|done].
      apply IH in Hrun. apply Hout in E2.
      eapply grown_within_trans; [exact E2|exact Hrun|..]; reflexivity.
Qed.

(** X11.  In [Witness_complex_new] the branch that skips a landmark recurses
    with [dim], not [dim-1]: a call with dimension [dim] and prefix [simplex]
    inserts only simplices with exactly [length simplex + dim + 1] vertices,
    whatever the closure oracle answers. *)
Theorem New_call_inserts_one_dimension pol oracle depth dim alpha nd
    (row : list (Z * Q)) simplex st b st' :
  New.add_all_faces_of_dimension pol oracle depth dim alpha nd row simplex st
    = Some (b, st') →
  grown_within (complex st) (complex st')
    (S (length simplex) + Z.to_nat dim) (S (length simplex) + Z.to_nat dim).
Proof.
  revert dim nd row simplex st b st'.
  induction depth as [|depth IH]; intros dim nd row simplex st b st' Hrun; [done|].
  rewrite New_add_all_faces_of_dimension_S in Hrun.
  destruct row as [|ld row]; [simplify_eq; apply grown_within_refl|].
  destruct (0 <? dim) eqn:Hdim.
  - apply Z.ltb_lt in Hdim.
    eapply New_scan_inner_within; [| |done].
    + intros nd' row' l' st1 b1 st1' Hrec. cbv beta in Hrec. apply IH in Hrec.
      rewrite length_app in Hrec. simpl in Hrec.
      eapply grown_within_weaken; [exact Hrec|..]; lia.
    + intros nd' row' st1 b1 st1' Hrec. cbv beta in Hrec. by apply IH in Hrec.
  - destruct (dim =? 0) eqn:Hzero; [|simplify_eq; apply grown_within_refl].
    apply Z.eqb_eq in Hzero as ->.
    assert (New.scan_leaf pol oracle alpha nd (ld :: row) simplex false st = (b, st'))
      as E by congruence.
    pose proof (New_scan_leaf_within pol oracle alpha nd (ld :: row) simplex false st)
      as H.
    rewrite E in H.
    eapply grown_within_weaken; [exact H|..]; simpl; lia.
Qed.

Lemma New_scan_leaf_flag pol oracle alpha nd (row : list (Z * Q)) simplex st :
  fst (New.scan_leaf pol oracle alpha nd row simplex true st) = true.
Proof.
  revert nd st. induction row as [|[l d] row IH]; intros nd st; simpl; [done|].
  destruct (xle (d - alpha) nd); simpl; [|done].
  destruct (oracle _ _ _) as [[] fv]; apply IH.
Qed.

Lemma New_scan_leaf_false pol oracle alpha nd (row : list (Z * Q)) simplex wba st :
  fst (New.scan_leaf pol oracle alpha nd row simplex wba st) = false →
  wba = false ∧
  complex (snd (New.scan_leaf pol oracle alpha nd row simplex wba st)) = complex st.
Proof.
  revert nd wba st. induction row as [|[l d] row IH]; intros nd wba st; simpl;
    [done|].
  destruct (xle (d - alpha) nd); simpl; [|done].
  destruct (oracle _ _ _) as [[] fv].
  - by rewrite New_scan_leaf_flag.
  - apply IH.
Qed.

Lemma New_scan_inner_false rec dim alpha nd (row : list (Z * Q)) simplex wba st st' :
  (∀ dim nd row simplex st st',
     rec dim nd row simplex st = Some (false, st') → complex st' = complex st) →
  New.scan_inner rec dim alpha nd row simplex wba st = Some (false, st') →
  wba = false ∧ complex st' = complex st.
Proof.
  intros Hrec. revert nd wba st.
  induction row as [|[l d] row IH]; intros nd wba st Hrun; simpl in Hrun.
  - by simplify_eq.
  - destruct (xle (d - alpha) nd); simpl in Hrun; [|by simplify_eq].
    destruct (find (complex st) (simplex ++ [l])) as [f|].
    + destruct (rec (dim - 1) nd row (simplex ++ [l]) st) as [[b1 st1]|] eqn:E1;
        simpl in Hrun; [|done].
      destruct (rec dim _ row simplex st1) as [[b2 st2]|] eqn:E2;
        simpl in Hrun; [|done].
      apply IH in Hrun as [Hflag Hrun].
      apply orb_false_iff in Hflag as [-> [-> ->]%orb_false_iff].
      split; [done|]. rewrite Hrun.
      rewrite (Hrec _ _ _ _ _ _ E2). by rewrite (Hrec _ _ _ _ _ _ E1).
    + simpl in Hrun.
      destruct (rec dim _ row simplex st) as [[b2 st2]|] eqn:E2;
        simpl in Hrun; [|done].
      apply IH in Hrun as [Hflag Hrun].
      apply orb_false_iff in Hflag as [-> ->].
      split; [done|]. rewrite Hrun. by rewrite (Hrec _ _ _ _ _ _ E2).
Qed.

(** X12.  In [Witness_complex_new] as well, a call of
    [add_all_faces_of_dimension] that returns [false] has inserted nothing,
    whatever the closure oracle is. *)
Theorem New_call_returning_false_inserts_nothing pol oracle depth dim alpha nd
    (row : list (Z * Q)) simplex st st' :
  New.add_all_faces_of_dimension pol oracle depth dim alpha nd row simplex st
    = Some (false, st') →
  complex st' = complex st.
Proof.
  revert dim nd row simplex st st'.
  induction depth as [|depth IH]; intros dim nd row simplex st st' Hrun; [done|].
  rewrite New_add_all_faces_of_dimension_S in Hrun.
  destruct row as [|ld row]; [by simplify_eq|].
  destruct (0 <? dim).
  - eapply New_scan_inner_false; [|done]. intros. cbv beta in *. by eapply IH.
  - destruct (dim =? 0); [|by simplify_eq].
    assert (New.scan_leaf pol oracle alpha nd (ld :: row) simplex false st
            = (false, st')) as E by congruence.
    pose proof (New_scan_leaf_false pol oracle alpha nd (ld :: row) simplex false st)
      as H.
    rewrite E in H. by apply H.
Qed.

(** ** [Witness_complex_new::create_complex] *)

(** X13.  [create_complex] succeeds exactly when the complex it is handed has
    no vertex and [max_alpha_square] is not negative; when it fails it leaves
    the complex as it is; and its result does not depend on
    [limit_dimension]. *)
Theorem create_complex_outcome pol table sc max_alpha_square limit_dimension :
  (fst (New.create_complex pol table sc max_alpha_square limit_dimension) = true ↔
   num_vertices sc = 0%nat ∧ (0 <= max_alpha_square)%Q) ∧
  (fst (New.create_complex pol table sc max_alpha_square limit_dimension) = false →
   snd (New.create_complex pol table sc max_alpha_square limit_dimension) = sc) ∧
  New.create_complex pol table sc max_alpha_square limit_dimension =
  New.create_complex pol table sc max_alpha_square 0%N.
Proof.
  unfold New.create_complex.
  assert ((limit_dimension <? 0)%N = false) as -> by (apply N.ltb_ge; lia).
  change (0 <? 0)%N with false.
  case_bool_decide as Hnum; simpl.
  { split; [|done]. split; [done|]. intros [? _]. lia. }
  destruct (Qle_bool 0 max_alpha_square) eqn:Halpha; simpl.
  - apply Qle_bool_iff in Halpha. split; [|done]. split; [|done].
    intros _. split; [lia|done].
  - split; [|done]. split; [done|]. intros [_ H%Qle_bool_iff]. congruence.
Qed.

Lemma insert_row_vertices_within pol alpha nd fv (row : list (Z * Q)) sc :
  grown_within sc (New.insert_row_vertices pol alpha nd fv row sc) 1 1 ∧
  subcomplex sc (New.insert_row_vertices pol alpha nd fv row sc).
Proof.
  revert nd fv sc. induction row as [|[l d] row IH]; intros nd fv sc; simpl.
  { split; [apply grown_within_refl|apply subcomplex_refl]. }
  destruct (xle (d - alpha) nd); simpl;
    [|split; [apply grown_within_refl|apply subcomplex_refl]].
  match goal with
  | |- context [New.insert_row_vertices pol alpha ?n ?f row ?s] =>
      destruct (IH n f s) as [IH1 IH2]
  end.
  split.
  - eapply grown_within_trans; [|exact IH1|..]; [|reflexivity..].
    apply (grown_within_insert pol sc [l]).
  - eapply subcomplex_trans; [|exact IH2]. apply insert_simplex_subcomplex.
Qed.

Lemma insert_vertex_edges_within pol alpha (v : Z) nd fv (row : list (Z * Q)) sc :
  grown_within sc (New.insert_vertex_edges pol alpha v nd fv row sc) 2 2 ∧
  subcomplex sc (New.insert_vertex_edges pol alpha v nd fv row sc).
Proof.
  revert nd fv sc. induction row as [|[l d] row IH]; intros nd fv sc; simpl.
  { split; [apply grown_within_refl|apply subcomplex_refl]. }
  destruct (xle (d - alpha) nd); simpl;
    [|split; [apply grown_within_refl|apply subcomplex_refl]].
  match goal with
  | |- context [New.insert_vertex_edges pol alpha v ?n ?f row ?s] =>
      destruct (IH n f s) as [IH1 IH2]
  end.
  split.
  - eapply grown_within_trans; [|exact IH1|..]; [|reflexivity..].
    apply (grown_within_insert pol sc [v; l]).
  - eapply subcomplex_trans; [|exact IH2]. apply insert_simplex_subcomplex.
Qed.

Lemma fill_vertices_within pol alpha (table : list (list (Z * Q))) sc :
  grown_within sc (fst (New.fill_vertices pol alpha sc table)) 1 1 ∧
  subcomplex sc (fst (New.fill_vertices pol alpha sc table)).
Proof.
  unfold New.fill_vertices. simpl. revert sc.
  induction table as [|row table IH]; intros sc; simpl.
  { split; [apply grown_within_refl|apply subcomplex_refl]. }
  destruct (insert_row_vertices_within pol alpha Infinity 0%Q row sc) as [H1 H2].
  destruct (IH (New.insert_row_vertices pol alpha Infinity 0%Q row sc)) as [IH1 IH2].
  split.
  - eapply grown_within_trans; [exact H1|exact IH1|..]; reflexivity.
  - eapply subcomplex_trans; [exact H2|exact IH2].
Qed.

Lemma witness_edges_within pol alpha (v : Z) (ws : list New.Witness_for_simplex) sc :
  grown_within sc
    (foldl (fun sc w =>
              New.insert_vertex_edges pol alpha v (New.limit_distance_ w) 0%Q
                (tail (New.last_it_ w)) sc) sc ws) 2 2 ∧
  subcomplex sc
    (foldl (fun sc w =>
              New.insert_vertex_edges pol alpha v (New.limit_distance_ w) 0%Q
                (tail (New.last_it_ w)) sc) sc ws).
Proof.
  revert sc. induction ws as [|w ws IH]; intros sc; simpl.
  { split; [apply grown_within_refl|apply subcomplex_refl]. }
  destruct (insert_vertex_edges_within pol alpha v (New.limit_distance_ w) 0%Q
              (tail (New.last_it_ w)) sc) as [H1 H2].
  match goal with
  | |- context [foldl _ ?s ws] => destruct (IH s) as [IH1 IH2]
  end.
  split.
  - eapply grown_within_trans; [exact H1|exact IH1|..]; reflexivity.
  - eapply subcomplex_trans; [exact H2|exact IH2].
Qed.

Lemma fill_edges_within pol alpha sc
    (dim0_map : list (Z * list New.Witness_for_simplex)) :
  grown_within sc (New.fill_edges pol alpha sc dim0_map) 2 2 ∧
  subcomplex sc (New.fill_edges pol alpha sc dim0_map).
Proof.
  unfold New.fill_edges. revert sc.
  induction dim0_map as [|[v ws] dim0_map IH]; intros sc; simpl.
  { split; [apply grown_within_refl|apply subcomplex_refl]. }
  destruct (witness_edges_within pol alpha v ws sc) as [H1 H2].
  match goal with
  | |- context [foldl _ ?s dim0_map] => destruct (IH s) as [IH1 IH2]
  end.
  split.
  - eapply grown_within_trans; [exact H1|exact IH1|..]; reflexivity.
  - eapply subcomplex_trans; [exact H2|exact IH2].
Qed.

(** X14.  [create_complex] inserts vertices and edges only: every simplex of
    the complex it leaves that was not there before has one or two vertices;
    and it removes nothing.  ([fill_simplices] only prints.) *)
Theorem create_complex_vertices_and_edges pol table sc max_alpha_square
    limit_dimension :
  grown_within sc
    (snd (New.create_complex pol table sc max_alpha_square limit_dimension)) 1 2 ∧
  subcomplex sc
    (snd (New.create_complex pol table sc max_alpha_square limit_dimension)).
Proof.
  unfold New.create_complex.
  destruct (bool_decide _); [split; [apply grown_within_refl|apply subcomplex_refl]|].
  destruct (negb _); [split; [apply grown_within_refl|apply subcomplex_refl]|].
  destruct (_ <? _)%N; [split; [apply grown_within_refl|apply subcomplex_refl]|].
  destruct (New.fill_vertices pol max_alpha_square sc table) as [sc1 m] eqn:E.
  destruct (fill_vertices_within pol max_alpha_square table sc) as [H1 H2].
  rewrite E in H1, H2. simpl in H1, H2.
  destruct (fill_edges_within pol max_alpha_square sc1 m) as [H3 H4].
  simpl. split.
  - eapply grown_within_trans; [exact H1|exact H3|..]; lia.
  - eapply subcomplex_trans; [exact H2|exact H4].
Qed.

(** The witness [w] is recorded for the vertex [v]. *)
Lemma map_emplace_back_new (v : Z) (w : New.Witness_for_simplex) sw_map :
  ∃ ws, (v, ws) ∈ New.map_emplace_back v w sw_map ∧ w ∈ ws.
Proof.
  induction sw_map as [|[v' ws'] sw_map IH]; simpl.
  - exists [w]. split; apply list_elem_of_here.
  - destruct (v <? v'); [exists [w]; split; apply list_elem_of_here|].
    destruct (v =? v') eqn:E.
    + apply Z.eqb_eq in E as <-. exists (ws' ++ [w]).
      split; [apply list_elem_of_here|]. apply elem_of_app. right.
      apply list_elem_of_here.
    + destruct IH as (ws & Hin & Hw). exists ws.
      split; [by apply list_elem_of_further|done].
Qed.

Lemma map_emplace_back_old (v v0 : Z) (w w0 : New.Witness_for_simplex) sw_map :
  (∃ ws, (v0, ws) ∈ sw_map ∧ w0 ∈ ws) →
  ∃ ws, (v0, ws) ∈ New.map_emplace_back v w sw_map ∧ w0 ∈ ws.
Proof.
  induction sw_map as [|[v' ws'] sw_map IH]; intros (ws & Hin & Hw); simpl.
  - by apply elem_of_nil in Hin.
  - destruct (v <? v'); [exists ws; split; [by apply list_elem_of_further|done]|].
    destruct (v =? v') eqn:E.
    + apply elem_of_cons in Hin as [[= <- <-]|Hin].
      * exists (ws ++ [w]). split; [apply list_elem_of_here|].
        apply elem_of_app. by left.
      * exists ws. split; [by apply list_elem_of_further|done].
    + apply elem_of_cons in Hin as [[= <- <-]|Hin].
      * exists ws. split; [apply list_elem_of_here|done].
      * destruct IH as (ws1 & Hin1 & Hw1); [by eauto|].
        exists ws1. split; [by apply list_elem_of_further|done].
Qed.

Lemma record_row_vertices_old alpha nd (row : list (Z * Q)) sw_map
    (v0 : Z) (w0 : New.Witness_for_simplex) :
  (∃ ws, (v0, ws) ∈ sw_map ∧ w0 ∈ ws) →
  ∃ ws, (v0, ws) ∈ New.record_row_vertices alpha nd row sw_map ∧ w0 ∈ ws.
Proof.
  revert nd sw_map. induction row as [|[l d] row IH]; intros nd sw_map H; simpl;
    [done|].
  destruct (xle (d - alpha) nd); simpl; [|done].
  apply IH. by apply map_emplace_back_old.
Qed.

Lemma record_table_first alpha (table : list (list (Z * Q))) sw_map
    (l0 : Z) (d0 : Q) rest :
  ((l0, d0) :: rest) ∈ table →
  ∃ ws, (l0, ws) ∈ foldl (fun sw_map w => New.record_row_vertices alpha Infinity w sw_map)
                       sw_map table ∧
        New.Witness_list ((l0, d0) :: rest) Infinity ∈ ws.
Proof.
  assert (∀ (v0 : Z) (w0 : New.Witness_for_simplex) tbl m,
            (∃ ws, (v0, ws) ∈ m ∧ w0 ∈ ws) →
            ∃ ws, (v0, ws) ∈ foldl (fun sw_map w =>
                                      New.record_row_vertices alpha Infinity w sw_map)
                                   m tbl ∧ w0 ∈ ws) as Hkeep.
  { intros v0 w0 tbl. induction tbl as [|row tbl IH]; intros m H; simpl; [done|].
    apply IH. by apply record_row_vertices_old. }
  revert sw_map. induction table as [|row table IH]; intros sw_map Hin.
  - by apply elem_of_nil in Hin.
  - simpl. apply elem_of_cons in Hin as [<-|Hin]; [|by apply IH].
    apply Hkeep. simpl. apply record_row_vertices_old, map_emplace_back_new.
Qed.

Lemma fill_edges_first pol alpha sc (dim0_map : list (Z * list New.Witness_for_simplex))
    (l0 l1 : Z) (d0 d1 : Q) rest ws :
  (l0, ws) ∈ dim0_map →
  New.Witness_list ((l0, d0) :: (l1, d1) :: rest) Infinity ∈ ws →
  is_Some (find (New.fill_edges pol alpha sc dim0_map) [l0; l1]).
Proof.
  intros Hin Hw. unfold New.fill_edges. revert sc.
  induction dim0_map as [|[v ws'] dim0_map IH]; intros sc.
  - by apply elem_of_nil in Hin.
  - simpl. apply elem_of_cons in Hin as [[= <- <-]|Hin]; [|by apply IH].
    match goal with
    | |- context [foldl _ ?s dim0_map] =>
        destruct (fill_edges_within pol alpha s dim0_map) as [_ Hgrow]
    end.
    apply Hgrow. clear Hgrow IH. revert sc.
    induction ws as [|w ws IHw]; intros sc; [by apply elem_of_nil in Hw|].
    simpl. apply elem_of_cons in Hw as [<-|Hw]; [|by apply IHw].
    match goal with
    | |- context [foldl _ ?s ws] =>
        destruct (witness_edges_within pol alpha l0 ws s) as [_ Hgrow]
    end.
    apply Hgrow. simpl.
    match goal with
    | |- context [New.insert_vertex_edges pol alpha l0 ?n ?f rest ?s] =>
        destruct (insert_vertex_edges_within pol alpha l0 n f rest s) as [_ Hgrow']
    end.
    apply Hgrow'. rewrite lookup_insert_simplex. by rewrite decide_True.
Qed.

Lemma fill_vertices_first pol alpha (table : list (list (Z * Q))) sc
    (l0 : Z) (d0 : Q) rest :
  ((l0, d0) :: rest) ∈ table →
  is_Some (fst (New.fill_vertices pol alpha sc table) !! [l0]).
Proof.
  unfold New.fill_vertices. simpl. revert sc.
  induction table as [|row table IH]; intros sc Hin.
  - by apply elem_of_nil in Hin.
  - simpl. apply elem_of_cons in Hin as [<-|Hin]; [|by apply IH].
    destruct (fill_vertices_within pol alpha table
                (New.insert_row_vertices pol alpha Infinity 0%Q ((l0, d0) :: rest) sc))
      as [_ Hgrow].
    apply Hgrow. simpl.
    match goal with
    | |- context [New.insert_row_vertices pol alpha ?n ?f rest ?s] =>
        destruct (insert_row_vertices_within pol alpha n f rest s) as [_ Hgrow']
    end.
    apply Hgrow'. rewrite lookup_insert_simplex. by rewrite decide_True.
Qed.

(** X15.  Once [create_complex] accepts its arguments, every row of the
    nearest landmark table puts its nearest landmark into the complex as a
    vertex, and a row with at least two entries puts the edge of its two
    nearest landmarks there, whatever the two distances and [max_alpha_square]
    are. *)
Theorem create_complex_nearest_pair pol (table : list (list (Z * Q))) sc
    max_alpha_square limit_dimension (l0 : Z) (d0 : Q) rest :
  num_vertices sc = 0%nat → (0 <= max_alpha_square)%Q →
  ((l0, d0) :: rest) ∈ table →
  is_Some (snd (New.create_complex pol table sc max_alpha_square limit_dimension)
             !! [l0]) ∧
  ∀ (l1 : Z) (d1 : Q) rest', rest = (l1, d1) :: rest' →
    is_Some (find (snd (New.create_complex pol table sc max_alpha_square
                          limit_dimension)) [l0; l1]).
Proof.
  intros Hnum Halpha Hrow. unfold New.create_complex.
  rewrite bool_decide_eq_false_2 by lia.
  apply Qle_bool_iff in Halpha. rewrite Halpha. simpl.
  assert ((limit_dimension <? 0)%N = false) as -> by (apply N.ltb_ge; lia).
  pose proof (fill_vertices_first pol max_alpha_square table sc l0 d0 rest Hrow) as Hv.
  unfold New.fill_vertices in *. simpl in *. split.
  - by apply fill_edges_within.
  - intros l1 d1 rest' ->.
    destruct (record_table_first max_alpha_square table [] l0 d0 _ Hrow)
      as (ws & Hin & Hw).
    by eapply fill_edges_first.
Qed.

(** ** Runs without a round, and raising the dimension limit *)

(** X16.  Without witnesses ([knn] empty), or with at most one landmark, the
    constructor runs no round: the complex it leaves is exactly the initial
    fill of the landmark vertices, and no row is read. *)
Theorem no_round_without_witnesses pol distances knn sc_ nbL alpha limD :
  knn = [] ∨ (nbL ≤ 1)%nat →
  Relaxed.Relaxed_witness_complex pol distances knn sc_ nbL alpha limD
    = Some (Machine (Relaxed.insert_landmarks pol nbL sc_) 0).
Proof.
  intros H. apply Relaxed_witness_complex_Some. eexists _, _.
  apply construction_loop_done. destruct H as [->|H]; [by left|right; right; lia].
Qed.

Lemma construction_loop_limD_mono pol fuel distances knn nbL alpha limD limD' k
    (active_w : list nat) st k1 aw1 st1 k2 aw2 st2 :
  limD ≤ limD' →
  Relaxed.construction_loop pol fuel distances knn nbL alpha limD k active_w st
    = Some (k1, aw1, st1) →
  Relaxed.construction_loop pol fuel distances knn nbL alpha limD' k active_w st
    = Some (k2, aw2, st2) →
  subcomplex (complex st1) (complex st2).
Proof.
  intros Hlim. revert k active_w st.
  induction fuel as [|fuel IH]; intros k active_w st H1 H2; [done|].
  pose proof (construction_loop_grows _ _ _ _ _ _ _ _ _ _ _ _ _ H2) as Hgrow.
  rewrite construction_loop_S in H1, H2.
  destruct (bool_decide (active_w ≠ []) && (k <=? limD) && (k <? Z.of_nat nbL))
    eqn:Hguard; [|by simplify_eq].
  assert (bool_decide (active_w ≠ []) && (k <=? limD') && (k <? Z.of_nat nbL) = true)
    as Hguard'.
  { rewrite !andb_true_iff, Z.leb_le in *. intuition lia. }
  rewrite Hguard' in H2.
  destruct (Relaxed.witness_pass _ _ _ _ _ _ _) as [[aw st0]|]; [|done].
  by eapply IH.
Qed.

(** X17.  Raising the dimension limit only adds simplices: the complex built
    with the limit [limD] is a subcomplex of the one built, from the same
    input, with a limit [limD' >= limD]. *)
Theorem dimension_limit_monotone pol distances knn sc_ nbL alpha limD limD' out out' :
  limD ≤ limD' →
  Relaxed.Relaxed_witness_complex pol distances knn sc_ nbL alpha limD = Some out →
  Relaxed.Relaxed_witness_complex pol distances knn sc_ nbL alpha limD' = Some out' →
  subcomplex (complex out) (complex out').
Proof.
  intros Hlim (k1 & aw1 & H1)%Relaxed_witness_complex_Some
    (k2 & aw2 & H2)%Relaxed_witness_complex_Some.
  by eapply construction_loop_limD_mono.
Qed.

(** ** The values [create_complex] records *)

Lemma relaxed_value_nonneg (nd : xdist) (d fv : Q) :
  (0 <= fv)%Q →
  (0 <= match nd with
        | Finite r => if Qgt_bool d r then d - r else fv
        | Infinity => fv
        end)%Q.
Proof.
  intros Hfv. destruct nd as [r|]; [|done].
  destruct (Qgt_bool d r) eqn:E; [|done]. apply Qgt_bool_true in E. lra.
Qed.

Lemma insert_row_vertices_nonneg pol alpha nd fv (row : list (Z * Q)) sc :
  (0 <= fv)%Q → values_nonneg sc →
  values_nonneg (New.insert_row_vertices pol alpha nd fv row sc).
Proof.
  revert nd fv sc. induction row as [|[l d] row IH]; intros nd fv sc Hfv Hsc; simpl;
    [done|].
  destruct (xle (d - alpha) nd); simpl; [|done].
  pose proof (relaxed_value_nonneg nd d fv Hfv) as Hfv'.
  apply IH; [done|]. by apply values_nonneg_insert.
Qed.

Lemma insert_vertex_edges_nonneg pol alpha (v : Z) nd fv (row : list (Z * Q)) sc :
  (0 <= fv)%Q → values_nonneg sc →
  values_nonneg (New.insert_vertex_edges pol alpha v nd fv row sc).
Proof.
  revert nd fv sc. induction row as [|[l d] row IH]; intros nd fv sc Hfv Hsc; simpl;
    [done|].
  destruct (xle (d - alpha) nd); simpl; [|done].
  pose proof (relaxed_value_nonneg nd d fv Hfv) as Hfv'.
  apply IH; [done|]. by apply values_nonneg_insert.
Qed.

(** X18.  [create_complex] records no negative value: when the complex it is
    handed holds none, the complex it leaves holds none, whatever the
    distances of the table are. *)
Theorem create_complex_values_nonneg pol (table : list (list (Z * Q))) sc
    max_alpha_square limit_dimension :
  values_nonneg sc →
  values_nonneg
    (snd (New.create_complex pol table sc max_alpha_square limit_dimension)).
Proof.
  intros Hsc. unfold New.create_complex.
  destruct (bool_decide _); [done|]. destruct (negb _); [done|].
  destruct (_ <? _)%N; [done|].
  unfold New.fill_vertices, New.fill_edges. simpl.
  generalize (foldl (fun sw_map w =>
                       New.record_row_vertices max_alpha_square Infinity w sw_map)
                [] table) as dim0_map.
  assert (values_nonneg
            (foldl (fun sc w =>
                      New.insert_row_vertices pol max_alpha_square Infinity 0%Q w sc)
               sc table)) as Hv.
  { revert sc Hsc. induction table as [|row table IH]; intros sc Hsc; simpl; [done|].
    apply IH. by apply insert_row_vertices_nonneg. }
  revert Hv. generalize (foldl (fun sc w =>
                      New.insert_row_vertices pol max_alpha_square Infinity 0%Q w sc)
               sc table) as sc1.
  intros sc1 Hv dim0_map. revert sc1 Hv.
  induction dim0_map as [|[v ws] dim0_map IH]; intros sc1 Hv; simpl; [done|].
  apply IH. clear IH. revert sc1 Hv.
  induction ws as [|w ws IHw]; intros sc1 Hv; simpl; [done|].
  apply IHw. by apply insert_vertex_edges_nonneg.
Qed.

(** * The two constructions on the same table *)

(** ** Values only go down *)

Lemma lowered_refl sc : lowered sc sc.
Proof. intros K f H. exists f. split; [done|apply Qle_refl]. Qed.

Lemma lowered_trans sc1 sc2 sc3 : lowered sc1 sc2 → lowered sc2 sc3 → lowered sc1 sc3.
Proof.
  intros H12 H23 K f H. destruct (H12 K f H) as (f2 & H2 & Hle2).
  destruct (H23 K f2 H2) as (f3 & H3 & Hle3).
  exists f3. split; [done|]. by eapply Qle_trans.
Qed.

Lemma lowered_insert pol sc s f : lowered sc (insert_simplex pol sc s f).
Proof.
  intros K f0 H. rewrite lookup_insert_simplex. case_decide as HK.
  - subst K. rewrite H. eexists. split; [done|]. apply recorded_le_old.
  - exists f0. split; [done|apply Qle_refl].
Qed.

Lemma lowered_subcomplex sc sc' : lowered sc sc' → subcomplex sc sc'.
Proof. intros H K [f Hf]. destruct (H K f Hf) as (f' & Hf' & _). eauto. Qed.

Lemma recorded_lower_le old f : (recorded Lower_recorded old f <= f)%Q.
Proof.
  destruct old as [f0|]; simpl; [|apply Qle_refl].
  destruct (Qgt_bool f0 f) eqn:E; [apply Qle_refl|]. by apply Qgt_bool_false in E.
Qed.

Lemma edges_below_lowered V sc G G' :
  edges_below V sc G → lowered G G' → edges_below V sc G'.
Proof.
  intros H HG K f Hlen Hf. destruct (H K f Hlen Hf) as (g & Hg & Hle).
  destruct (HG K g Hg) as (g' & Hg' & Hle').
  exists g'. split; [done|]. intros HV. eapply Qle_trans; [done|auto].
Qed.

Lemma edges_below_insert_other pol V sc G s f :
  length s ≠ 2%nat → edges_below V sc G → edges_below V (insert_simplex pol sc s f) G.
Proof.
  intros Hs H K f0 Hlen. rewrite lookup_insert_simplex. case_decide as HK; [|by apply H].
  subst K. by rewrite sorted_key_length in Hlen.
Qed.

Lemma edges_below_insert pol V sc G s f g :
  G !! sorted_key s = Some g → (V → (g <= f)%Q) →
  edges_below V sc G → edges_below V (insert_simplex pol sc s f) G.
Proof.
  intros Hg Hle H K f0 Hlen. rewrite lookup_insert_simplex.
  case_decide as HK; [|by apply H]. subst K. intros [= <-].
  destruct (recorded_cases pol (sc !! sorted_key s) f) as [->|(f1 & Hold & -> & _)].
  - eauto.
  - by apply H.
Qed.

(** ** The bounds as numbers *)

Lemma xlt_xeq q x y : xeq x y → xlt q x = xlt q y.
Proof.
  destruct x as [a|], y as [b|]; simpl; try done. intros Hab. f_equal.
  apply eq_true_iff_eq. rewrite !Qle_bool_iff. by rewrite Hab.
Qed.

Lemma relaxation_xeq d x y :
  xeq x y → (Relaxed.relaxation d x == Relaxed.relaxation d y)%Q.
Proof.
  destruct x as [a|], y as [b|]; simpl; try done. intros Hab.
  assert (Qgt_bool d a = Qgt_bool d b) as ->.
  { unfold Qgt_bool. f_equal. apply eq_true_iff_eq. rewrite !Qle_bool_iff.
    by rewrite Hab. }
  destruct (Qgt_bool d b); [by rewrite Hab|done].
Qed.

Lemma edge_good_xeq alpha G V v nd nd' suf :
  xeq nd nd' → edge_good alpha G V v nd suf → edge_good alpha G V v nd' suf.
Proof.
  revert nd nd'. induction suf as [|[l d] suf IH]; intros nd nd' Hnd H; [done|].
  simpl in *. rewrite <- (xle_xeq _ _ _ Hnd). intros Hadm.
  destruct (H Hadm) as [(g & Hg & Hle) Hrest]. split.
  - exists g. split; [done|]. intros HV.
    rewrite <- (relaxation_xeq d nd nd' Hnd). auto.
  - eapply IH; [|done]. by apply norelax_after_xeq.
Qed.

Lemma top_good_xeq alpha G V nd nd' suf :
  xeq nd nd' → top_good alpha G V nd suf → top_good alpha G V nd' suf.
Proof.
  revert nd nd'. induction suf as [|[l d] suf IH]; intros nd nd' Hnd H; [done|].
  simpl in *. rewrite <- (xle_xeq _ _ _ Hnd). intros Hadm.
  destruct (H Hadm) as [Hedge Hrest]. split.
  - by eapply edge_good_xeq.
  - eapply IH; [|done]. by apply norelax_after_xeq.
Qed.

Lemma state_good_xeq alpha G V simplex nd nd' suf :
  xeq nd nd' → state_good alpha G V simplex nd suf → state_good alpha G V simplex nd' suf.
Proof.
  intros Hnd. destruct simplex as [|v [|v' simplex]]; simpl; [| |done].
  - by apply top_good_xeq.
  - by apply edge_good_xeq.
Qed.

Lemma edge_good_lowered alpha G G' V v nd suf :
  lowered G G' → edge_good alpha G V v nd suf → edge_good alpha G' V v nd suf.
Proof.
  intros HG. revert nd. induction suf as [|[l d] suf IH]; intros nd H; [done|].
  simpl in *. intros Hadm. destruct (H Hadm) as [(g & Hg & Hle) Hrest].
  split; [|by apply IH].
  destruct (HG _ _ Hg) as (g' & Hg' & Hle'). exists g'. split; [done|].
  intros HV. eapply Qle_trans; [done|auto].
Qed.

Lemma top_good_lowered alpha G G' V nd suf :
  lowered G G' → top_good alpha G V nd suf → top_good alpha G' V nd suf.
Proof.
  intros HG. revert nd. induction suf as [|[l d] suf IH]; intros nd H; [done|].
  simpl in *. intros Hadm. destruct (H Hadm) as [Hedge Hrest].
  split; [by eapply edge_good_lowered | by apply IH].
Qed.

(** ** The rescanning construction inserts no edge beyond the good ones *)

Lemma state_good_step alpha G V simplex nd (l : Z) (d : Q) suf :
  state_good alpha G V simplex nd ((l, d) :: suf) → xle (d - alpha)%Q nd = true →
  state_good alpha G V simplex (norelax_after nd d) suf.
Proof.
  destruct simplex as [|v [|v' simplex]]; simpl; [| |done]; intros H Hadm;
    by destruct (H Hadm).
Qed.

Lemma state_good_include alpha G V simplex nd (l : Z) (d : Q) suf :
  state_good alpha G V simplex nd ((l, d) :: suf) → xle (d - alpha)%Q nd = true →
  state_good alpha G V (simplex ++ [l]) nd suf.
Proof.
  destruct simplex as [|v [|v' simplex]]; simpl; [|done..].
  intros H Hadm. by destruct (H Hadm).
Qed.

Lemma state_good_insert pol alpha G V simplex nd (l : Z) (d fv : Q) suf sc :
  state_good alpha G V simplex nd ((l, d) :: suf) → xle (d - alpha)%Q nd = true →
  (Relaxed.relaxation d nd <= fv)%Q →
  edges_below V sc G → edges_below V (insert_simplex pol sc (simplex ++ [l]) fv) G.
Proof.
  destruct simplex as [|v [|v' simplex]]; simpl; intros H Hadm Hfv Hsc.
  - by apply edges_below_insert_other.
  - destruct (H Hadm) as [(g & Hg & Hle) _].
    eapply edges_below_insert; [done| |done].
    intros HV. eapply Qle_trans; [auto|done].
  - apply edges_below_insert_other; [|done]. simpl. rewrite length_app. simpl. lia.
Qed.

Lemma scan_leaf_edges pol alpha G V simplex nd (suf : list (Z * Q)) wba st :
  state_good alpha G V simplex nd suf → edges_below V (complex st) G →
  edges_below V
    (complex (snd (Relaxed.scan_leaf pol alpha nd (suf.*2) (suf.*1) simplex wba st))) G.
Proof.
  revert nd wba st. induction suf as [|[l d] suf IH]; intros nd wba st Hgood Hst;
    [done|].
  cbn [fmap list_fmap fst snd]. simpl.
  destruct (xle (d - alpha) nd) eqn:Hadm; simpl; [|done].
  assert (state_good alpha G V simplex (if xlt d nd then Finite d else nd) suf)
    as Hnext.
  { eapply state_good_xeq; [apply xeq_sym, leaf_update_norelax|].
    by eapply state_good_step. }
  destruct (Relaxed.all_faces_in _ _ _) as [[] fv] eqn:E; [|by apply IH].
  apply IH; [done|]. simpl.
  apply all_faces_in_true in E as [Hfv _].
  by eapply state_good_insert.
Qed.

Lemma scan_inner_edges rec alpha G V simplex nd (suf : list (Z * Q)) wba st b st' :
  (∀ nd (suf : list (Z * Q)) simplex st b st',
     state_good alpha G V simplex nd suf → edges_below V (complex st) G →
     rec nd (suf.*2) (suf.*1) simplex st = Some (b, st') →
     edges_below V (complex st') G) →
  state_good alpha G V simplex nd suf → edges_below V (complex st) G →
  Relaxed.scan_inner rec alpha nd (suf.*2) (suf.*1) simplex wba st = Some (b, st') →
  edges_below V (complex st') G.
Proof.
  intros Hrec. revert nd wba st.
  induction suf as [|[l d] suf IH]; intros nd wba st Hgood Hst Hrun.
  { simpl in Hrun. by simplify_eq. }
  cbn [fmap list_fmap fst snd] in Hrun. simpl in Hrun.
  destruct (xle (d - alpha) nd) eqn:Hadm; simpl in Hrun; [|by simplify_eq].
  pose proof (state_good_step _ _ _ _ _ _ _ _ Hgood Hadm) as Hskip.
  pose proof (state_good_include _ _ _ _ _ _ _ _ Hgood Hadm) as Hincl.
  unfold norelax_after in Hskip.
  destruct (find (complex st) (simplex ++ [l])) as [f|].
  - destruct (rec nd (suf.*2) (suf.*1) (simplex ++ [l]) st) as [[b1 st1]|] eqn:E1;
      simpl in Hrun; [|done].
    destruct (rec _ (suf.*2) (suf.*1) simplex st1) as [[b2 st2]|] eqn:E2;
      simpl in Hrun; [|done].
    eapply IH; [exact Hskip| |exact Hrun].
    eapply Hrec; [exact Hskip| |exact E2]. by eapply Hrec; [exact Hincl| |exact E1].
  - simpl in Hrun.
    destruct (rec _ (suf.*2) (suf.*1) simplex st) as [[b2 st2]|] eqn:E2;
      simpl in Hrun; [|done].
    eapply IH; [exact Hskip| |exact Hrun].
    by eapply Hrec; [exact Hskip| |exact E2].
Qed.

Lemma add_all_faces_of_dimension_edges pol alpha G V depth dim simplex nd
    (suf : list (Z * Q)) st b st' :
  state_good alpha G V simplex nd suf → edges_below V (complex st) G →
  Relaxed.add_all_faces_of_dimension pol depth dim alpha nd (suf.*2) (suf.*1) simplex st
    = Some (b, st') →
  edges_below V (complex st') G.
Proof.
  revert dim simplex nd suf st b st'.
  induction depth as [|depth IH]; intros dim simplex nd suf st b st' Hgood Hst Hrun;
    [done|].
  rewrite add_all_faces_of_dimension_S in Hrun.
  destruct (suf.*1) as [|l ls] eqn:Hls; [by simplify_eq|]. rewrite <- Hls in Hrun.
  destruct (0 <? dim).
  - eapply scan_inner_edges; [|exact Hgood|exact Hst|exact Hrun].
    intros. by eapply IH.
  - destruct (dim =? 0); [|by simplify_eq].
    pose proof (scan_leaf_edges pol alpha G V simplex nd suf false st Hgood Hst) as H.
    destruct (Relaxed.scan_leaf _ _ _ _ _ _ _ _) as [b0 st0]. by simplify_eq.
Qed.

Lemma witness_pass_edges pol alpha G V (table : list (list (Z * Q))) k
    (active_w : list nat) st active_w' st' :
  (∀ row, row ∈ table → top_good alpha G V Infinity row) →
  edges_below V (complex st) G →
  Relaxed.witness_pass pol ((fun row => row.*2) <$> table)
    ((fun row => row.*1) <$> table) k alpha active_w st = Some (active_w', st') →
  edges_below V (complex st') G.
Proof.
  intros Hrows. revert st active_w' st'.
  induction active_w as [|w rest IH]; intros st active_w' st' Hst Hrun.
  { by inversion Hrun; subst. }
  rewrite witness_pass_cons in Hrun.
  assert (∃ row : list (Z * Q),
            ((fun row => row.*1) <$> table) !!! w = row.*1 ∧
            ((fun row => row.*2) <$> table) !!! w = row.*2 ∧
            top_good alpha G V Infinity row) as (row & Hk & Hd & Hrow).
  { destruct (table !! w) as [row|] eqn:E.
    - exists row. split; [|split].
      + apply list_lookup_total_correct. by rewrite list_lookup_fmap, E.
      + apply list_lookup_total_correct. by rewrite list_lookup_fmap, E.
      + apply Hrows. by eapply list_elem_of_lookup_2.
    - exists []. split; [|split; [|done]].
      + rewrite list_lookup_total_alt, list_lookup_fmap, E. done.
      + rewrite list_lookup_total_alt, list_lookup_fmap, E. done. }
  rewrite Hk, Hd in Hrun.
  destruct (Relaxed.add_all_faces_of_dimension _ _ _ _ _ _ _ _ _)
    as [[ok st1]|] eqn:E1; [|done].
  destruct (Relaxed.witness_pass _ _ _ _ _ rest st1) as [[rest' st2]|] eqn:E2; [|done].
  simplify_eq. eapply IH; [|exact E2].
  eapply (add_all_faces_of_dimension_edges pol alpha G V _ _ [] Infinity row);
    [exact Hrow|exact Hst|exact E1].
Qed.

Lemma construction_loop_edges pol alpha G V (table : list (list (Z * Q))) fuel nbL limD k
    (active_w : list nat) st k' active_w' st' :
  (∀ row, row ∈ table → top_good alpha G V Infinity row) →
  edges_below V (complex st) G →
  Relaxed.construction_loop pol fuel ((fun row => row.*2) <$> table)
    ((fun row => row.*1) <$> table) nbL alpha limD k active_w st
    = Some (k', active_w', st') →
  edges_below V (complex st') G.
Proof.
  intros Hrows. revert k active_w st.
  induction fuel as [|fuel IH]; intros k active_w st Hst Hrun; [done|].
  rewrite construction_loop_S in Hrun.
  destruct (_ && _); [|by simplify_eq].
  destruct (Relaxed.witness_pass _ _ _ _ _ _ _) as [[aw1 st1]|] eqn:Hpass; [|done].
  eapply IH; [|exact Hrun]. by eapply witness_pass_edges.
Qed.

(** ** The map from vertices to witnesses *)

Lemma map_emplace_back_inv (v v0 : Z) (w w0 : New.Witness_for_simplex) sw_map ws :
  (v0, ws) ∈ New.map_emplace_back v w sw_map → w0 ∈ ws →
  v0 = v ∧ w0 = w ∨ ∃ ws', (v0, ws') ∈ sw_map ∧ w0 ∈ ws'.
Proof.
  revert ws. induction sw_map as [|[v' ws'] sw_map IH]; intros ws Hin Hw; simpl in Hin.
  - apply list_elem_of_singleton in Hin as [= -> ->].
    apply list_elem_of_singleton in Hw. by left.
  - destruct (v <? v').
    { apply elem_of_cons in Hin as [[= -> ->]|Hin]; [|right; eauto].
      apply list_elem_of_singleton in Hw. by left. }
    destruct (v =? v') eqn:E.
    + apply Z.eqb_eq in E as <-.
      apply elem_of_cons in Hin as [[= -> ->]|Hin].
      * apply elem_of_app in Hw as [Hw|Hw%list_elem_of_singleton]; [|by left].
        right. exists ws'. split; [apply list_elem_of_here|done].
      * right. exists ws. split; [by apply list_elem_of_further|done].
    + apply elem_of_cons in Hin as [[= -> ->]|Hin].
      * right. exists ws'. split; [apply list_elem_of_here|done].
      * destruct (IH _ Hin Hw) as [?|(ws1 & Hin1 & Hw1)]; [by left|].
        right. exists ws1. split; [by apply list_elem_of_further|done].
Qed.

Lemma map_emplace_back_all Qw (v : Z) (w : New.Witness_for_simplex) sw_map :
  Qw v w → all_entries Qw sw_map → all_entries Qw (New.map_emplace_back v w sw_map).
Proof.
  intros Hw Hall v0 ws w0 Hin Hw0.
  destruct (map_emplace_back_inv _ _ _ _ _ _ Hin Hw0) as [[-> ->]|(ws' & Hin' & Hw')];
    [done|by eapply Hall].
Qed.

(** Each step of the second traversal of [fill_vertices] records a witness
    that satisfies [Qw], when the cursor and the bound satisfy [Inv]. *)
Lemma record_row_all (Inv : xdist → list (Z * Q) → Prop) Qw alpha nd
    (suf : list (Z * Q)) sw_map :
  (∀ nd l d suf, Inv nd ((l, d) :: suf) → xle (d - alpha)%Q nd = true →
     Qw l (New.Witness_list ((l, d) :: suf) nd) ∧
     Inv (if xlt d nd then Finite d else nd) suf) →
  Inv nd suf → all_entries Qw sw_map →
  all_entries Qw (New.record_row_vertices alpha nd suf sw_map).
Proof.
  intros Hstep. revert nd sw_map.
  induction suf as [|[l d] suf IH]; intros nd sw_map Hinv Hall; simpl; [done|].
  destruct (xle (d - alpha) nd) eqn:Hadm; simpl; [|done].
  destruct (Hstep _ _ _ _ Hinv Hadm) as [Hw Hnext].
  apply IH; [done|]. by apply map_emplace_back_all.
Qed.

Lemma record_table_all (Inv : xdist → list (Z * Q) → Prop) Qw alpha
    (table : list (list (Z * Q))) sw_map :
  (∀ nd l d suf, Inv nd ((l, d) :: suf) → xle (d - alpha)%Q nd = true →
     Qw l (New.Witness_list ((l, d) :: suf) nd) ∧
     Inv (if xlt d nd then Finite d else nd) suf) →
  (∀ row, row ∈ table → Inv Infinity row) → all_entries Qw sw_map →
  all_entries Qw
    (foldl (fun sw_map w => New.record_row_vertices alpha Infinity w sw_map)
       sw_map table).
Proof.
  intros Hstep. revert sw_map.
  induction table as [|row table IH]; intros sw_map Hrows Hall; simpl; [done|].
  apply IH; [intros; apply Hrows; by right|].
  eapply record_row_all; [exact Hstep| |done]. apply Hrows. by left.
Qed.

Lemma record_table_old alpha (table : list (list (Z * Q))) sw_map
    (v0 : Z) (w0 : New.Witness_for_simplex) :
  (∃ ws, (v0, ws) ∈ sw_map ∧ w0 ∈ ws) →
  ∃ ws, (v0, ws) ∈ foldl (fun sw_map w =>
                            New.record_row_vertices alpha Infinity w sw_map)
                         sw_map table ∧ w0 ∈ ws.
Proof.
  revert sw_map. induction table as [|row table IH]; intros sw_map H; simpl; [done|].
  apply IH. by apply record_row_vertices_old.
Qed.

(** A property of the recorded witnesses gives [top_good] of the rows. *)
Lemma record_row_top_good alpha G V nd nd' (suf : list (Z * Q)) sw_map :
  xeq nd nd' →
  (∀ v w, (∃ ws, (v, ws) ∈ New.record_row_vertices alpha nd suf sw_map ∧ w ∈ ws) →
     edge_good alpha G V v (New.limit_distance_ w) (tail (New.last_it_ w))) →
  top_good alpha G V nd' suf.
Proof.
  revert nd nd' sw_map.
  induction suf as [|[l d] suf IH]; intros nd nd' sw_map Hnd Hall; [done|].
  simpl. simpl in Hall. rewrite <- (xle_xeq _ _ _ Hnd). intros Hadm.
  rewrite Hadm in Hall. simpl in Hall. split.
  - eapply edge_good_xeq; [exact Hnd|].
    apply (Hall l (New.Witness_list ((l, d) :: suf) nd)).
    apply record_row_vertices_old, map_emplace_back_new.
  - eapply IH; [|exact Hall].
    eapply xeq_trans; [apply leaf_update_norelax|]. by apply norelax_after_xeq.
Qed.

Lemma record_table_top_good alpha G V (table : list (list (Z * Q))) sw_map :
  (∀ v w,
     (∃ ws, (v, ws) ∈ foldl (fun sw_map w =>
                               New.record_row_vertices alpha Infinity w sw_map)
                            sw_map table ∧ w ∈ ws) →
     edge_good alpha G V v (New.limit_distance_ w) (tail (New.last_it_ w))) →
  ∀ row, row ∈ table → top_good alpha G V Infinity row.
Proof.
  revert sw_map. induction table as [|row0 table IH]; intros sw_map Hall row Hrow.
  { by apply elem_of_nil in Hrow. }
  simpl in Hall. apply elem_of_cons in Hrow as [->|Hrow]; [|by eapply IH].
  eapply (record_row_top_good alpha G V Infinity Infinity row0 sw_map); [done|].
  intros v w Hw. apply Hall. by apply record_table_old.
Qed.

(** ** The values [fill_edges] records *)

Lemma fresh_value_step nd fv (l : Z) (d : Q) (suf : list (Z * Q)) :
  StronglySorted Qle (((l, d) :: suf).*2) → fresh_value nd fv ((l, d) :: suf) →
  (match nd with
   | Finite r => if Qgt_bool d r then d - r else fv
   | Infinity => fv
   end == Relaxed.relaxation d nd)%Q ∧
  fresh_value (norelax_after nd d)
    (match nd with
     | Finite r => if Qgt_bool d r then d - r else fv
     | Infinity => fv
     end) suf.
Proof.
  cbn [fmap list_fmap snd]. intros [Hsorted Hhd]%StronglySorted_inv Hfresh.
  assert (xle d nd = true → (fv == 0)%Q) as Hzero.
  { intros Hle. destruct Hfresh as [?|Hall]; [done|].
    rewrite Hall in Hle; [done|]. cbn [fmap list_fmap snd]. apply list_elem_of_here. }
  destruct nd as [r|]; simpl.
  - unfold norelax_after. simpl in Hzero. simpl.
    destruct (Qgt_bool d r) eqn:E.
    + apply Qgt_bool_true in E. split; [done|]. right.
      assert (Qle_bool d r = false) as ->.
      { apply not_true_iff_false. rewrite Qle_bool_iff. lra. }
      intros d' Hd'. simpl. apply not_true_iff_false. rewrite Qle_bool_iff.
      rewrite Forall_forall in Hhd. specialize (Hhd _ Hd'). lra.
    + apply Qgt_bool_false in E. apply Qle_bool_iff in E.
      split; [by apply Hzero|]. left. by apply Hzero.
  - split; [by apply Hzero|]. left. by apply Hzero.
Qed.

Lemma insert_vertex_edges_lowered pol alpha (v : Z) nd fv (row : list (Z * Q)) sc :
  lowered sc (New.insert_vertex_edges pol alpha v nd fv row sc).
Proof.
  revert nd fv sc. induction row as [|[l d] row IH]; intros nd fv sc; simpl;
    [apply lowered_refl|].
  destruct (xle (d - alpha) nd); simpl; [|apply lowered_refl].
  eapply lowered_trans; [apply lowered_insert|apply IH].
Qed.

Lemma witness_edges_lowered pol alpha (v : Z) (ws : list New.Witness_for_simplex) sc :
  lowered sc
    (foldl (fun sc w =>
              New.insert_vertex_edges pol alpha v (New.limit_distance_ w) 0%Q
                (tail (New.last_it_ w)) sc) sc ws).
Proof.
  revert sc. induction ws as [|w ws IH]; intros sc; simpl; [apply lowered_refl|].
  eapply lowered_trans; [apply insert_vertex_edges_lowered|apply IH].
Qed.

Lemma fill_edges_lowered pol alpha sc
    (dim0_map : list (Z * list New.Witness_for_simplex)) :
  lowered sc (New.fill_edges pol alpha sc dim0_map).
Proof.
  unfold New.fill_edges. revert sc.
  induction dim0_map as [|[v ws] dim0_map IH]; intros sc; simpl; [apply lowered_refl|].
  eapply lowered_trans; [apply witness_edges_lowered|apply IH].
Qed.

(** The edges [fill_edges] inserts from one recorded witness. *)
Lemma insert_vertex_edges_edge_good pol alpha V (v : Z) nd fv (suf : list (Z * Q)) sc :
  (V → pol = Lower_recorded ∧ StronglySorted Qle (suf.*2) ∧ fresh_value nd fv suf) →
  edge_good alpha (New.insert_vertex_edges pol alpha v nd fv suf sc) V v nd suf.
Proof.
  revert nd fv sc. induction suf as [|[l d] suf IH]; intros nd fv sc HV; [done|].
  simpl. intros Hadm. rewrite Hadm. simpl. rewrite keep_update_norelax.
  set (fv' := match nd with
              | Finite r => if Qgt_bool d r then (d - r)%Q else fv
              | Infinity => fv
              end).
  split.
  - destruct (insert_vertex_edges_lowered pol alpha v (norelax_after nd d) fv' suf
                (insert_simplex pol sc [v; l] fv') (sorted_key [v; l])
                (recorded pol (sc !! sorted_key [v; l]) fv')) as (g & Hg & Hle).
    { rewrite lookup_insert_simplex. by rewrite decide_True. }
    exists g. split; [done|]. intros HV'.
    destruct (HV HV') as (-> & Hsorted & Hfresh).
    destruct (fresh_value_step nd fv l d suf Hsorted Hfresh) as [Heq _].
    fold fv' in Heq. rewrite <- Heq.
    eapply Qle_trans; [exact Hle|apply recorded_lower_le].
  - apply IH. intros HV'. destruct (HV HV') as (-> & Hsorted & Hfresh).
    split; [done|].
    destruct (fresh_value_step nd fv l d suf Hsorted Hfresh) as [_ Hnext].
    split; [|exact Hnext].
    cbn [fmap list_fmap snd] in Hsorted. by apply StronglySorted_inv in Hsorted as [? _].
Qed.

Lemma fill_edges_entries pol alpha V sc
    (dim0_map : list (Z * list New.Witness_for_simplex)) :
  all_entries
    (fun _ w => V → pol = Lower_recorded ∧
                    StronglySorted Qle ((tail (New.last_it_ w)).*2)) dim0_map →
  all_entries
    (fun v w =>
       edge_good alpha (New.fill_edges pol alpha sc dim0_map) V v
         (New.limit_distance_ w) (tail (New.last_it_ w))) dim0_map.
Proof.
  unfold New.fill_edges. revert sc.
  induction dim0_map as [|[v0 ws0] dim0_map IH]; intros sc Hsorted v ws w Hin Hw.
  { by apply elem_of_nil in Hin. }
  simpl. apply elem_of_cons in Hin as [[= -> ->]|Hin].
  - eapply edge_good_lowered; [apply (fill_edges_lowered pol alpha _ dim0_map)|].
    assert (∀ w', w' ∈ ws0 →
              V → pol = Lower_recorded ∧
                  StronglySorted Qle ((tail (New.last_it_ w')).*2)) as Hws.
    { intros w' Hw'. eapply (Hsorted v0 ws0 w'); [apply list_elem_of_here|done]. }
    clear Hsorted IH. revert sc.
    induction ws0 as [|w0 ws0 IHw]; intros sc; [by apply elem_of_nil in Hw|].
    simpl. apply elem_of_cons in Hw as [->|Hw].
    + eapply edge_good_lowered; [apply witness_edges_lowered|].
      apply insert_vertex_edges_edge_good. intros HV.
      destruct (Hws w0 (list_elem_of_here _ _) HV) as [Hpol Hs].
      split; [done|]. split; [done|]. by left.
    + apply IHw; [done|]. intros w' Hw'. apply Hws. by right.
  - eapply IH; [|exact Hin|exact Hw].
    intros v' ws' w' Hin' Hw'. eapply Hsorted; [|exact Hw']. by right.
Qed.

(** ** [fill_edges] inserts no edge beyond the good ones *)

Lemma insert_vertex_edges_below pol alpha V G (v : Z) nd fv (suf : list (Z * Q)) sc :
  edge_good alpha G V v nd suf →
  (V → StronglySorted Qle (suf.*2) ∧ fresh_value nd fv suf) →
  edges_below V sc G →
  edges_below V (New.insert_vertex_edges pol alpha v nd fv suf sc) G.
Proof.
  revert nd fv sc. induction suf as [|[l d] suf IH]; intros nd fv sc Hgood HV Hsc;
    [done|].
  simpl. destruct (xle (d - alpha) nd) eqn:Hadm; simpl; [|done].
  simpl in Hgood. destruct (Hgood Hadm) as [(g & Hg & Hle) Hrest].
  rewrite keep_update_norelax. apply IH; [done| |].
  - intros HV'. destruct (HV HV') as [Hsorted Hfresh].
    destruct (fresh_value_step nd fv l d suf Hsorted Hfresh) as [_ Hnext].
    split; [|exact Hnext].
    cbn [fmap list_fmap snd] in Hsorted. by apply StronglySorted_inv in Hsorted as [? _].
  - eapply (edges_below_insert pol V sc G [v; l]); [exact Hg| |exact Hsc].
    intros HV'. destruct (HV HV') as [Hsorted Hfresh].
    destruct (fresh_value_step nd fv l d suf Hsorted Hfresh) as [Heq _].
    rewrite Heq. auto.
Qed.

Lemma fill_edges_below pol alpha V G sc
    (dim0_map : list (Z * list New.Witness_for_simplex)) :
  all_entries
    (fun v w =>
       edge_good alpha G V v (New.limit_distance_ w) (tail (New.last_it_ w)) ∧
       (V → StronglySorted Qle ((tail (New.last_it_ w)).*2))) dim0_map →
  edges_below V sc G →
  edges_below V (New.fill_edges pol alpha sc dim0_map) G.
Proof.
  unfold New.fill_edges. revert sc.
  induction dim0_map as [|[v ws] dim0_map IH]; intros sc Hall Hsc; [done|].
  simpl. apply IH.
  { intros v' ws' w' Hin Hw. eapply Hall; [|exact Hw]. by right. }
  assert (∀ w, w ∈ ws →
            edge_good alpha G V v (New.limit_distance_ w) (tail (New.last_it_ w)) ∧
            (V → StronglySorted Qle ((tail (New.last_it_ w)).*2))) as Hws.
  { intros w Hw. eapply (Hall v ws w); [apply list_elem_of_here|done]. }
  clear Hall IH. revert sc Hsc.
  induction ws as [|w ws IHw]; intros sc Hsc; [done|].
  simpl. apply IHw; [intros; apply Hws; by right|].
  destruct (Hws w (list_elem_of_here _ _)) as [Hgood Hsorted].
  apply insert_vertex_edges_below; [done| |done].
  intros HV. split; [auto|by left].
Qed.

(** ** The edges the first round of the rescanning construction inserts *)

Lemma all_faces_in_edge_value sc (v l : Z) (fv0 : Q) :
  vertices_at_zero sc → is_Some (sc !! [v]) → is_Some (sc !! [l]) → (0 <= fv0)%Q →
  Relaxed.all_faces_in sc [v; l] fv0 = (true, fv0).
Proof.
  intros [_ Hzero] [fv Hv] [fl Hl] Hfv0.
  rewrite (Hzero _ _ Hv) in Hv. rewrite (Hzero _ _ Hl) in Hl.
  unfold Relaxed.all_faces_in. simpl. rewrite !find_vertex, Hl, Hv.
  assert (Qgt_bool 0 fv0 = false) as E by (by apply Qgt_bool_false).
  by rewrite !E.
Qed.

Lemma scan_leaf_lowered pol alpha nd ds ls simplex wba st :
  lowered (complex st)
    (complex (snd (Relaxed.scan_leaf pol alpha nd ds ls simplex wba st))).
Proof.
  apply (scan_leaf_preserves pol (lowered (complex st))); [|apply lowered_refl].
  intros sc cand fv0 fv _ _ H. eapply lowered_trans; [done|apply lowered_insert].
Qed.

Lemma add_all_faces_of_dimension_lowered pol depth dim alpha nd ds ls simplex st b st' :
  Relaxed.add_all_faces_of_dimension pol depth dim alpha nd ds ls simplex st
    = Some (b, st') →
  lowered (complex st) (complex st').
Proof.
  intros Hrun.
  eapply (add_all_faces_of_dimension_preserves pol (lowered (complex st)));
    [|done|apply lowered_refl].
  intros sc cand fv0 fv _ _ H. eapply lowered_trans; [done|apply lowered_insert].
Qed.

Lemma scan_inner_lowered rec alpha nd ds ls simplex wba st b st' :
  (∀ nd ds ls simplex st b st',
     rec nd ds ls simplex st = Some (b, st') → lowered (complex st) (complex st')) →
  Relaxed.scan_inner rec alpha nd ds ls simplex wba st = Some (b, st') →
  lowered (complex st) (complex st').
Proof.
  intros Hrec Hrun.
  eapply (scan_inner_preserves (lowered (complex st))); [|done|apply lowered_refl].
  intros ???????? H. eapply lowered_trans; [done | by eapply Hrec].
Qed.

Lemma witness_pass_lowered pol distances knn k alpha active_w st active_w' st' :
  Relaxed.witness_pass pol distances knn k alpha active_w st = Some (active_w', st') →
  lowered (complex st) (complex st').
Proof.
  intros Hrun.
  eapply (witness_pass_preserves pol (lowered (complex st)));
    [|done|apply lowered_refl].
  intros sc cand fv0 fv _ _ H. eapply lowered_trans; [done|apply lowered_insert].
Qed.

Lemma construction_loop_lowered pol fuel distances knn nbL alpha limD k active_w st
    k' active_w' st' :
  Relaxed.construction_loop pol fuel distances knn nbL alpha limD k active_w st
    = Some (k', active_w', st') →
  lowered (complex st) (complex st').
Proof.
  intros Hrun.
  eapply (construction_loop_preserves pol (lowered (complex st)));
    [|done|apply lowered_refl].
  intros sc cand fv0 fv _ _ H. eapply lowered_trans; [done|apply lowered_insert].
Qed.

Lemma scan_leaf_edge_good pol alpha V (v : Z) nd (suf : list (Z * Q)) wba st :
  (V → pol = Lower_recorded) →
  vertices_at_zero (complex st) → is_Some (complex st !! [v]) →
  (∀ l, l ∈ suf.*1 → is_Some (complex st !! [l])) →
  edge_good alpha
    (complex (snd (Relaxed.scan_leaf pol alpha nd (suf.*2) (suf.*1) [v] wba st))) V
    v nd suf.
Proof.
  intros HV. revert nd wba st.
  induction suf as [|[l d] suf IH]; intros nd wba st Hzero Hv Hls; [done|].
  cbn [fmap list_fmap fst snd] in *. simpl. intros Hadm. rewrite Hadm. simpl.
  rewrite (all_faces_in_edge_value (complex st) v l (Relaxed.relaxation d nd));
    [|done|done|apply Hls, list_elem_of_here|apply relaxation_nonneg].
  set (st1 := with_complex st
                (insert_simplex pol (complex st) [v; l] (Relaxed.relaxation d nd))).
  assert (subcomplex (complex st) (complex st1)) as Hgrow
    by apply insert_simplex_subcomplex.
  split.
  - destruct (scan_leaf_lowered pol alpha (if xlt d nd then Finite d else nd) (suf.*2)
                (suf.*1) [v] true st1 (sorted_key [v; l])
                (recorded pol (complex st !! sorted_key [v; l])
                   (Relaxed.relaxation d nd))) as (g & Hg & Hle).
    { simpl. rewrite lookup_insert_simplex. by rewrite decide_True. }
    exists g. split; [done|]. intros HV'. rewrite (HV HV') in Hle.
    eapply Qle_trans; [exact Hle|apply recorded_lower_le].
  - eapply edge_good_xeq; [apply leaf_update_norelax|].
    apply IH.
    + simpl. eapply vertices_stay_zero_insert; [done| |done].
      apply (all_faces_in_edge_value (complex st) v l (Relaxed.relaxation d nd));
        [done|done|apply Hls, list_elem_of_here|apply relaxation_nonneg].
    + by apply Hgrow.
    + intros l' Hl'. apply Hgrow, Hls. by right.
Qed.

Lemma add_all_faces_of_dimension_zero pol depth dim alpha nd ds ls simplex st b st' :
  Relaxed.add_all_faces_of_dimension pol depth dim alpha nd ds ls simplex st
    = Some (b, st') →
  vertices_at_zero (complex st) → vertices_at_zero (complex st').
Proof.
  intros Hrun.
  eapply (add_all_faces_of_dimension_preserves pol vertices_at_zero); [|done].
  intros. by eapply vertices_stay_zero_insert.
Qed.

Lemma scan_inner_top_good pol alpha V depth nd (suf : list (Z * Q)) wba st b st' :
  (V → pol = Lower_recorded) →
  vertices_at_zero (complex st) →
  (∀ l, l ∈ suf.*1 → is_Some (complex st !! [l])) →
  Relaxed.scan_inner (Relaxed.add_all_faces_of_dimension pol depth 0 alpha)
    alpha nd (suf.*2) (suf.*1) [] wba st = Some (b, st') →
  top_good alpha (complex st') V nd suf.
Proof.
  intros HV. revert nd wba st.
  induction suf as [|[l d] suf IH]; intros nd wba st Hzero Hls Hrun; [done|].
  cbn [fmap list_fmap fst snd] in Hrun, Hls. simpl in Hrun. simpl. intros Hadm.
  rewrite Hadm in Hrun. simpl in Hrun.
  assert (is_Some (complex st !! [l])) as Hl by (apply Hls; by left).
  rewrite find_vertex in Hrun. destruct Hl as [fl Hfl]. rewrite Hfl in Hrun.
  destruct (Relaxed.add_all_faces_of_dimension pol depth 0 alpha nd _ _ [l] st)
    as [[b1 st1]|] eqn:R1; simpl in Hrun; [|done].
  destruct (Relaxed.add_all_faces_of_dimension pol depth 0 alpha _ _ _ [] st1)
    as [[b2 st2]|] eqn:R2; simpl in Hrun; [|done].
  pose proof (add_all_faces_of_dimension_lowered _ _ _ _ _ _ _ _ _ _ _ R2) as Hl2.
  pose proof (add_all_faces_of_dimension_grows _ _ _ _ _ _ _ _ _ _ _ R1) as Hg1.
  pose proof (add_all_faces_of_dimension_grows _ _ _ _ _ _ _ _ _ _ _ R2) as Hg2.
  assert (lowered (complex st2) (complex st')) as Hl3.
  { eapply scan_inner_lowered; [|exact Hrun].
    intros. by eapply add_all_faces_of_dimension_lowered. }
  split.
  - eapply edge_good_lowered; [exact Hl3|].
    eapply edge_good_lowered; [exact Hl2|].
    apply add_all_faces_of_dimension_leaf in R1 as [[Hnil _]|R1].
    + by destruct suf.
    + pose proof (scan_leaf_edge_good pol alpha V l nd suf false st HV Hzero) as H.
      rewrite <- R1 in H. apply H; [by eauto|]. intros l' Hl'. apply Hls. by right.
  - eapply (IH _ _ st2); [| |exact Hrun].
    + eapply add_all_faces_of_dimension_zero; [exact R2|].
      by eapply add_all_faces_of_dimension_zero; [exact R1|].
    + intros l' Hl'. apply Hg2, Hg1, Hls. by right.
Qed.

Lemma witness_pass_top_good pol alpha V G (table : list (list (Z * Q))) n j st aw' st' :
  (V → pol = Lower_recorded) →
  (j + n = length table)%nat →
  Relaxed.witness_pass pol ((fun row => row.*2) <$> table)
    ((fun row => row.*1) <$> table) 1 alpha (seq j n) st = Some (aw', st') →
  vertices_at_zero (complex st) →
  (∀ row l, row ∈ table → l ∈ row.*1 → is_Some (complex st !! [l])) →
  lowered (complex st') G →
  ∀ row, row ∈ drop j table → top_good alpha G V Infinity row.
Proof.
  intros HV. revert j st aw'.
  induction n as [|n IH]; intros j st aw' Hlen Hrun Hzero Hpresent HG row Hin.
  { rewrite drop_ge in Hin; [by apply elem_of_nil in Hin|lia]. }
  destruct (lookup_lt_is_Some_2 table j) as [row0 Hrow0]; [lia|].
  rewrite (drop_S _ _ _ Hrow0) in Hin. cbn [seq] in Hrun.
  rewrite witness_pass_cons in Hrun.
  rewrite (list_lookup_total_correct ((fun row => row.*1) <$> table) j (row0.*1)) in Hrun
    by (by rewrite list_lookup_fmap, Hrow0).
  rewrite (list_lookup_total_correct ((fun row => row.*2) <$> table) j (row0.*2)) in Hrun
    by (by rewrite list_lookup_fmap, Hrow0).
  destruct (Relaxed.add_all_faces_of_dimension _ _ _ _ _ _ _ _ _)
    as [[ok st1]|] eqn:E1; [|done].
  destruct (Relaxed.witness_pass _ _ _ _ _ _ st1) as [[rest st2]|] eqn:E2; [|done].
  assert (st2 = st') as -> by congruence.
  pose proof (add_all_faces_of_dimension_grows _ _ _ _ _ _ _ _ _ _ _ E1) as Hg1.
  pose proof (witness_pass_lowered _ _ _ _ _ _ _ _ _ E2) as Hl2.
  apply elem_of_cons in Hin as [->|Hin].
  - eapply top_good_lowered; [exact HG|]. eapply top_good_lowered; [exact Hl2|].
    rewrite add_all_faces_of_dimension_S in E1.
    destruct row0 as [|[l d] row0]; [done|].
    cbn [fmap list_fmap fst snd] in E1.
    change (0 <? 1) with true in E1. change (1 - 1) with 0 in E1. cbv iota in E1.
    eapply (scan_inner_top_good pol alpha V _ Infinity ((l, d) :: row0) false st);
      [done|done| |exact E1].
    intros l' Hl'. eapply Hpresent; [|done]. by eapply list_elem_of_lookup_2.
  - eapply (IH (S j) st1); [lia|exact E2| | |done|done].
    + by eapply add_all_faces_of_dimension_zero.
    + intros row' l Hrow' Hl. apply Hg1. by eapply Hpresent.
Qed.

(** ** The vertices [create_complex] inserts *)

Lemma insert_row_vertices_vertex pol alpha nd fv (row : list (Z * Q)) sc (l : Z) :
  is_Some (New.insert_row_vertices pol alpha nd fv row sc !! [l]) ↔
  is_Some (sc !! [l]) ∨ l ∈ admitted alpha nd row.
Proof.
  revert nd fv sc. induction row as [|[l' d] row IH]; intros nd fv sc; simpl.
  { split; [by left|]. intros [H1|H]; [done|by apply elem_of_nil in H]. }
  destruct (xle (d - alpha) nd); simpl.
  - rewrite keep_update_norelax, IH, elem_of_cons.
    assert (is_Some (insert_simplex pol sc [l'] (match nd with
                                                 | Finite r =>
                                                     if Qgt_bool d r then (d - r)%Q else fv
                                                 | Infinity => fv
                                                 end) !! [l]) ↔
            is_Some (sc !! [l]) ∨ l = l') as ->; [|tauto].
    rewrite lookup_insert_simplex, sorted_key_singleton.
    destruct (decide ([l'] = [l])) as [Heq|Hne]; [injection Heq as ->|].
    + split; [by right|by eauto].
    + split; [by left|]. intros [H1 | ->]; [done|by destruct Hne].
  - split; [by left|]. intros [H1|H]; [done|by apply elem_of_nil in H].
Qed.

Lemma fill_vertices_vertex pol alpha (table : list (list (Z * Q))) sc (l : Z) :
  is_Some (fst (New.fill_vertices pol alpha sc table) !! [l]) ↔
  is_Some (sc !! [l]) ∨ ∃ row, row ∈ table ∧ l ∈ admitted alpha Infinity row.
Proof.
  unfold New.fill_vertices. simpl. revert sc.
  induction table as [|row table IH]; intros sc; simpl.
  { split; [by left|]. intros [H1|(row & H & _)]; [done|by apply elem_of_nil in H]. }
  rewrite IH, insert_row_vertices_vertex. split.
  - intros [[H1|H1]|(row' & Hin & Hl)]; [by left| |].
    + right. exists row. split; [apply list_elem_of_here|done].
    + right. exists row'. split; [by apply list_elem_of_further|done].
  - intros [H1|(row' & Hin & Hl)]; [by left; left|].
    apply elem_of_cons in Hin as [->|Hin]; [by left; right|].
    right. by exists row'.
Qed.

(** ** The two complexes *)

Lemma fill_values_nonneg pol alpha (table : list (list (Z * Q))) sc :
  values_nonneg sc →
  values_nonneg
    (New.fill_edges pol alpha (fst (New.fill_vertices pol alpha sc table))
       (snd (New.fill_vertices pol alpha sc table))).
Proof.
  intros Hsc. unfold New.fill_vertices, New.fill_edges. cbn [fst snd].
  assert (∀ (tbl : list (list (Z * Q))) sc0,
            values_nonneg sc0 →
            values_nonneg
              (foldl (fun sc w => New.insert_row_vertices pol alpha Infinity 0%Q w sc)
                 sc0 tbl)) as Hv.
  { induction tbl as [|row tbl IH]; intros sc0 H0; simpl; [done|].
    apply IH. by apply insert_row_vertices_nonneg. }
  specialize (Hv table sc Hsc). revert Hv.
  generalize (foldl (fun sc w => New.insert_row_vertices pol alpha Infinity 0%Q w sc)
                sc table) as sc1.
  generalize (foldl (fun sw_map w => New.record_row_vertices alpha Infinity w sw_map)
                [] table) as dim0_map.
  induction dim0_map as [|[v ws] dim0_map IH]; intros sc1 Hv; simpl; [done|].
  apply IH. clear IH. revert sc1 Hv.
  induction ws as [|w ws IHw]; intros sc1 Hv; simpl; [done|].
  apply IHw. by apply insert_vertex_edges_nonneg.
Qed.

Lemma create_complex_empty pol (table : list (list (Z * Q))) alpha limit_dimension :
  (0 <= alpha)%Q →
  snd (New.create_complex pol table ∅ alpha limit_dimension) =
  New.fill_edges pol alpha (fst (New.fill_vertices pol alpha ∅ table))
    (snd (New.fill_vertices pol alpha ∅ table)).
Proof.
  intros Halpha. unfold New.create_complex, num_vertices.
  rewrite map_to_list_empty. simpl.
  apply Qle_bool_iff in Halpha. rewrite Halpha. simpl.
  assert ((limit_dimension <? 0)%N = false) as -> by (apply N.ltb_ge; lia).
  done.
Qed.

Lemma edges_below_no_edges V sc G :
  grown_within ∅ sc 1 1 → edges_below V sc G.
Proof.
  intros H K f Hlen Hf. destruct (H K) as [[? Habs]|?]; [by eauto| |lia].
  by rewrite lookup_empty in Habs.
Qed.

Lemma insert_landmarks_no_edges pol nbL :
  grown_within ∅ (Relaxed.insert_landmarks pol nbL ∅) 1 1.
Proof.
  apply (insert_landmarks_preserves pol (fun sc => grown_within ∅ sc 1 1));
    [|apply grown_within_refl].
  intros sc v H.
  eapply grown_within_trans; [exact H|apply grown_within_insert|..]; simpl; lia.
Qed.

(** The complex [create_complex] builds from the empty one holds the edges
    the first traversal of each row calls for. *)
Lemma create_complex_top_good pol alpha V (table : list (list (Z * Q))) sc :
  (V → pol = Lower_recorded ∧ rows_sorted table) →
  ∀ row, row ∈ table →
    top_good alpha
      (New.fill_edges pol alpha sc (snd (New.fill_vertices pol alpha ∅ table)))
      V Infinity row.
Proof.
  intros HV. unfold New.fill_vertices. cbn [snd].
  apply (record_table_top_good alpha _ V table []).
  intros v w (ws & Hin & Hw).
  refine (fill_edges_entries pol alpha V sc _ _ v ws w Hin Hw).
  apply (record_table_all (fun _ suf => V → StronglySorted Qle (suf.*2))).
  - intros nd l d suf Hinv Hadm. split.
    + intros HV'. split; [by apply HV|]. simpl. specialize (Hinv HV').
      cbn [fmap list_fmap snd] in Hinv. by apply StronglySorted_inv in Hinv as [? _].
    + intros HV'. specialize (Hinv HV').
      cbn [fmap list_fmap snd] in Hinv. by apply StronglySorted_inv in Hinv as [? _].
  - intros row Hrow HV'. by apply HV.
  - intros v' ws' w' Hin'. by apply elem_of_nil in Hin'.
Qed.

(** The edges of [create_complex] are edges of any complex that holds the
    edges the first traversal of each row calls for. *)
Lemma create_complex_edges_below pol alpha V G (table : list (list (Z * Q))) :
  (V → rows_sorted table) →
  (∀ row, row ∈ table → top_good alpha G V Infinity row) →
  edges_below V
    (New.fill_edges pol alpha (fst (New.fill_vertices pol alpha ∅ table))
       (snd (New.fill_vertices pol alpha ∅ table))) G.
Proof.
  intros HV Hrows. apply fill_edges_below.
  - unfold New.fill_vertices. cbn [snd].
    apply (record_table_all
             (fun nd suf => (∃ nd', xeq nd nd' ∧ top_good alpha G V nd' suf) ∧
                            (V → StronglySorted Qle (suf.*2)))).
    + intros nd l d suf [(nd' & Hnd & Htop) Hsorted] Hadm.
      simpl in Htop. rewrite <- (xle_xeq _ _ _ Hnd) in Htop.
      destruct (Htop Hadm) as [Hedge Hnext].
      assert (V → StronglySorted Qle (suf.*2)) as Hsorted'.
      { intros HV'. specialize (Hsorted HV').
        cbn [fmap list_fmap snd] in Hsorted.
        by apply StronglySorted_inv in Hsorted as [? _]. }
      split; [split; [|done]|split; [|done]].
      * simpl. eapply edge_good_xeq; [apply xeq_sym, Hnd|done].
      * exists (norelax_after nd' d). split; [|done].
        eapply xeq_trans; [apply leaf_update_norelax|]. by apply norelax_after_xeq.
    + intros row Hrow. split; [|intros HV'; by apply HV].
      exists Infinity. split; [done|by apply Hrows].
    + intros v' ws' w' Hin'. by apply elem_of_nil in Hin'.
  - apply edges_below_no_edges. by apply fill_vertices_within.
Qed.

(** C5, as the code has it.  On a table whose landmark ids are below [nbL],
    with at least two landmarks, a dimension limit of at least 1 and
    [alpha >= 0], [create_complex] run on the empty complex and
    [Relaxed_witness_complex] produce the same edges; when re-insertion lowers
    the recorded value and every row is sorted by distance, with the same
    values.  They differ on the vertices: [Relaxed_witness_complex] holds
    every landmark below [nbL] with the value 0, [create_complex] holds
    exactly the landmarks the guarded scan of some row reaches, with values
    that are not negative.  And [create_complex] holds nothing but vertices
    and edges, all of them simplices of the other complex. *)
Theorem strategies_agree_on_edges pol (table : list (list (Z * Q))) nbL alpha limD
    limit_dimension out :
  (∀ row l, row ∈ table → l ∈ row.*1 → 0 ≤ l < Z.of_nat nbL) →
  1 ≤ limD → (2 ≤ nbL)%nat → (0 <= alpha)%Q →
  Relaxed.Relaxed_witness_complex pol ((fun row => row.*2) <$> table)
    ((fun row => row.*1) <$> table) ∅ nbL alpha limD = Some out →
  same_edges (snd (New.create_complex pol table ∅ alpha limit_dimension)) (complex out) ∧
  (pol = Lower_recorded → rows_sorted table →
   same_edge_values (snd (New.create_complex pol table ∅ alpha limit_dimension))
     (complex out)) ∧
  (∀ i : nat, (i < nbL)%nat → complex out !! [Z.of_nat i] = Some 0%Q) ∧
  (∀ l : Z,
     is_Some (snd (New.create_complex pol table ∅ alpha limit_dimension) !! [l]) ↔
     ∃ row, row ∈ table ∧ l ∈ admitted alpha Infinity row) ∧
  values_nonneg (snd (New.create_complex pol table ∅ alpha limit_dimension)) ∧
  grown_within ∅ (snd (New.create_complex pol table ∅ alpha limit_dimension)) 1 2 ∧
  subcomplex (snd (New.create_complex pol table ∅ alpha limit_dimension)) (complex out).
Proof.
  intros Hids Hlim HnbL Halpha Hrun.
  destruct (create_complex_within_relaxed pol table nbL alpha limD limit_dimension out
              Hids Hlim HnbL Hrun) as [Hsub Hzero].
  set (V := pol = Lower_recorded ∧ rows_sorted table).
  rewrite (create_complex_empty pol table alpha limit_dimension Halpha) in *.
  set (C := New.fill_edges pol alpha (fst (New.fill_vertices pol alpha ∅ table))
              (snd (New.fill_vertices pol alpha ∅ table))) in *.
  apply Relaxed_witness_complex_Some in Hrun as (k & aw & Hrun).
  set (st0 := Machine (Relaxed.insert_landmarks pol nbL ∅) 0) in Hrun.
  (* the edges the rows call for are in both complexes *)
  assert (∀ row, row ∈ table → top_good alpha C V Infinity row) as HC.
  { apply create_complex_top_good. by intros [? ?]. }
  assert (∀ row, row ∈ table → top_good alpha (complex out) V Infinity row) as HG.
  { destruct (decide (table = [])) as [->|Hne].
    { intros row Hrow. by apply elem_of_nil in Hrow. }
    pose proof Hrun as Hrun'. rewrite construction_loop_S in Hrun'.
    assert (bool_decide (seq 0 (length ((fun row => row.*1) <$> table)) ≠ [])
            && (1 <=? limD) && (1 <? Z.of_nat nbL) = true) as Hguard.
    { rewrite !andb_true_iff, bool_decide_eq_true, Z.leb_le, Z.ltb_lt.
      split; [split|]; [|lia..].
      rewrite length_fmap. by destruct table. }
    rewrite Hguard in Hrun'.
    destruct (Relaxed.witness_pass _ _ _ _ _ _ _) as [[aw1 st1]|] eqn:Hpass; [|done].
    rewrite length_fmap in Hpass.
    apply (witness_pass_top_good pol alpha V (complex out) table (length table) 0 st0
             aw1 st1); [by intros [? ?]|lia|exact Hpass| | |].
    - simpl. apply insert_landmarks_preserves; [|apply vertices_at_zero_empty].
      intros. by apply vertices_stay_zero_landmark.
    - intros row l Hrow Hl. destruct (Hids row l Hrow Hl) as [H0 HL].
      simpl. rewrite <- (Z2Nat.id l) by done. apply insert_landmarks_vertex. lia.
    - by eapply construction_loop_lowered. }
  assert (edges_below V (complex out) C) as Hout.
  { eapply construction_loop_edges; [exact HC| |exact Hrun].
    apply edges_below_no_edges, insert_landmarks_no_edges. }
  assert (edges_below V C (complex out)) as Hin.
  { apply create_complex_edges_below; [by intros [? ?]|exact HG]. }
  split; [|split; [|split; [|split; [|split; [|split]]]]].
  - intros K HK. split; intros [f Hf].
    + destruct (Hin K f HK Hf) as (g & Hg & _). eauto.
    + destruct (Hout K f HK Hf) as (g & Hg & _). eauto.
  - intros Hpol Hsorted K f1 f2 HK Hf1 Hf2.
    assert V as HV by done.
    destruct (Hin K f1 HK Hf1) as (g & Hg & Hle1).
    destruct (Hout K f2 HK Hf2) as (g' & Hg' & Hle2).
    simplify_eq. apply Qle_antisym; auto.
  - exact Hzero.
  - intros l.
    destruct (fill_edges_within pol alpha (fst (New.fill_vertices pol alpha ∅ table))
                (snd (New.fill_vertices pol alpha ∅ table))) as [Hwithin Hgrow].
    pose proof (fill_vertices_vertex pol alpha table ∅ l) as Hv.
    split.
    + intros HCl. destruct (Hwithin [l] HCl) as [H1|H1]; [|simpl in H1; lia].
      apply Hv in H1 as [[? H1]|H1]; [by rewrite lookup_empty in H1|done].
    + intros H1. apply Hgrow, Hv. by right.
  - apply fill_values_nonneg. intros S f H. by rewrite lookup_empty in H.
  - destruct (fill_vertices_within pol alpha table ∅) as [H1 _].
    destruct (fill_edges_within pol alpha (fst (New.fill_vertices pol alpha ∅ table))
                (snd (New.fill_vertices pol alpha ∅ table))) as [H2 _].
    eapply grown_within_trans; [exact H1|exact H2|..]; lia.
  - exact Hsub.
Qed.

(** C5, as stated, fails, under either reading of re-insertion: in the
    relaxation-window scenario the rescanning construction holds the vertex
    {2}, which [create_complex] never inserts (and the vertex {1} has the
    value 0 in the one and 0.2 in the other).  The two constructions also part
    (a) above dimension 1: with three landmarks at the same distance the
    rescanning construction builds the triangle, [create_complex] stops at
    the edges; (b) on the value of an edge when the first insertion is kept:
    two witnesses reach the edge {0,1} at different relaxations, in a different
    order in the two constructions; (c) on the value of an edge when a row is
    not sorted: [fill_edges] carries a relaxation over to a later landmark that
    is within the bound; (d) with a dimension limit below 1, where the
    rescanning construction runs no round and [create_complex] inserts its
    edges all the same; (e) with a negative [alpha], which [create_complex]
    refuses and the rescanning construction takes; (f) on a landmark id that
    is not below the landmark count, which has no vertex in the rescanning
    construction and so no edge; (g) with a single landmark, where the
    rescanning construction runs no round. *)
Lemma strategies_equivalent_counterexample :
  ¬ strategies_equivalent Keep_recorded ∧
  ¬ strategies_equivalent Lower_recorded ∧
  (naive_value Keep_recorded tie_table 3 0 2 [0; 1; 2] = Some 0%Q ∧
   incremental_value Keep_recorded tie_table 0 [0; 1; 2] = None) ∧
  (naive_value Keep_recorded order_table 3 1 1 [0; 1] = Some 0%Q ∧
   incremental_value Keep_recorded order_table 1 [0; 1] = Some 1%Q) ∧
  (naive_value Lower_recorded stale_table 4 1 1 [0; 3] = Some 0%Q ∧
   incremental_value Lower_recorded stale_table 1 [0; 3] = Some 1%Q) ∧
  (naive_value Keep_recorded window_table 3 (1 # 2) 0 [0; 1] = None ∧
   incremental_value Keep_recorded window_table (1 # 2) [0; 1] = Some 0%Q) ∧
  (naive_value Keep_recorded window_table 3 (-1) 1 [0; 1] = Some 0%Q ∧
   incremental_value Keep_recorded window_table (-1) [0; 1] = None) ∧
  (naive_value Keep_recorded stray_table 2 0 1 [0; 5] = None ∧
   incremental_value Keep_recorded stray_table 0 [0; 5] = Some 0%Q) ∧
  (naive_value Keep_recorded repeat_table 1 0 1 [0; 0] = None ∧
   incremental_value Keep_recorded repeat_table 0 [0; 0] = Some 0%Q).
Proof.
  assert (∀ pol, ¬ strategies_equivalent pol) as Hneg.
  { intros pol H.
    destruct (Relaxed.Relaxed_witness_complex pol
                ((fun row => row.*2) <$> window_table)
                ((fun row => row.*1) <$> window_table) ∅ 3 (1 # 2)%Q 2)
      as [out|] eqn:E; [|destruct pol; vm_compute in E; discriminate].
    specialize (H window_table 3%nat (1 # 2)%Q 2 out ltac:(lia) E [2]).
    destruct pol; vm_compute in E; injection E as <-; vm_compute in H; exact H. }
  split; [apply Hneg|]. split; [apply Hneg|].
  repeat split; vm_compute; reflexivity.
Qed.

(** * The further theorems at concrete inputs *)

Lemma values_nonneg_empty : values_nonneg ∅.
Proof. intros S f H. by rewrite lookup_empty in H. Qed.

Lemma is_face_iff_sublist_witness :
  decreasing [3; 2; 1] ∧ (is_face [3; 1] [3; 2; 1] = true ↔ [3; 1] `sublist_of` [3; 2; 1]).
Proof.
  assert (decreasing [3; 2; 1]) as Hdec.
  { unfold decreasing. repeat constructor; lia. }
  split; [exact Hdec|]. exact (is_face_iff_sublist [3; 1] [3; 2; 1] Hdec).
Defined.

Lemma inactive_call_changes_nothing_witness :
  ∃ st',
    Relaxed.add_all_faces_of_dimension Keep_recorded 2 0 0%Q Infinity [1%Q] [0] []
      (Machine ∅ 0) = Some (false, st') ∧
    complex st' = complex (Machine ∅ 0).
Proof.
  eexists. split; [vm_compute; reflexivity|].
  eapply (inactive_call_changes_nothing Keep_recorded 2 0 0%Q Infinity [1%Q] [0] []
           (Machine ∅ 0)).
  vm_compute; reflexivity.
Defined.

Lemma pool_shrinks_rounds_bounded_witness :
  ∃ k' active_w' st',
    Relaxed.construction_loop Keep_recorded 4 tie_distances tie_knn 3 0%Q 2 1 [0%nat]
      (Machine (Relaxed.insert_landmarks Keep_recorded 3 ∅) 0)
      = Some (k', active_w', st') ∧
    active_w' `sublist_of` [0%nat] ∧
    1 ≤ k' ∧ (k' = 1 ∨ k' ≤ 2 + 1 ∧ k' ≤ Z.of_nat 3).
Proof.
  eexists _, _, _. split; [vm_compute; reflexivity|].
  eapply (pool_shrinks_rounds_bounded Keep_recorded 4 tie_distances tie_knn 3 0%Q 2 1
           [0%nat] (Machine (Relaxed.insert_landmarks Keep_recorded 3 ∅) 0)).
  vm_compute; reflexivity.
Defined.

Lemma values_stay_nonneg_witness :
  ∃ out,
    Relaxed.Relaxed_witness_complex Keep_recorded window_distances window_knn ∅ 3
      (1 # 2)%Q 2 = Some out ∧
    values_nonneg (complex out).
Proof.
  eexists. split; [vm_compute; reflexivity|].
  apply (values_stay_nonneg Keep_recorded window_distances window_knn ∅ 3 (1 # 2)%Q 2).
  - apply values_nonneg_empty.
  - vm_compute; reflexivity.
Defined.

Lemma dimension_of_output_witness :
  ∃ out,
    Relaxed.Relaxed_witness_complex Keep_recorded tie_distances tie_knn ∅ 3 0%Q 1
      = Some out ∧
    grown_within ∅ (complex out) 1
      (Z.to_nat (Z.max 1 (Z.min (1 + 1) (Z.of_nat 3)))).
Proof.
  eexists. split; [vm_compute; reflexivity|].
  apply (dimension_of_output Keep_recorded tie_distances tie_knn ∅ 3 0%Q 1).
  vm_compute; reflexivity.
Defined.

Lemma vertices_of_output_witness :
  ∃ out,
    Relaxed.Relaxed_witness_complex Keep_recorded tie_distances tie_knn ∅ 3 0%Q 2
      = Some out ∧
    complex out !! [1] =
      if bool_decide (0 ≤ 1 < Z.of_nat 3)
      then Some (recorded Keep_recorded ((∅ : gmap (list Z) Q) !! [1]) 0%Q)
      else (∅ : gmap (list Z) Q) !! [1].
Proof.
  eexists. split; [vm_compute; reflexivity|].
  apply (vertices_of_output Keep_recorded tie_distances tie_knn ∅ 3 0%Q 2 _ 1).
  - reflexivity.
  - vm_compute; reflexivity.
Defined.

Lemma simplices_on_landmarks_witness :
  ∃ out,
    Relaxed.Relaxed_witness_complex Keep_recorded tie_distances tie_knn ∅ 3 0%Q 2
      = Some out ∧
    is_Some (complex out !! [0; 1; 2]) ∧ 0 ≤ 2 < Z.of_nat 3.
Proof.
  eexists. split; [vm_compute; reflexivity|].
  assert (is_Some
            (complex
               (default (Machine ∅ 0)
                  (Relaxed.Relaxed_witness_complex Keep_recorded tie_distances tie_knn
                     ∅ 3 0%Q 2)) !! [0; 1; 2])) as Hin.
  { vm_compute. eexists. reflexivity. }
  split; [exact Hin|].
  eapply (simplices_on_landmarks Keep_recorded tie_distances tie_knn 3 0%Q 2 _
           [0; 1; 2] 2).
  - vm_compute; reflexivity.
  - exact Hin.
  - apply list_elem_of_further, list_elem_of_further, list_elem_of_here.
Defined.

Lemma dimension_limit_saturates_witness :
  complex <$> Relaxed.Relaxed_witness_complex Keep_recorded tie_distances tie_knn ∅ 3
                0%Q 2 =
  complex <$> Relaxed.Relaxed_witness_complex Keep_recorded tie_distances tie_knn ∅ 3
                0%Q 5.
Proof.
  apply (dimension_limit_saturates Keep_recorded tie_distances tie_knn ∅ 3 0%Q 2 5);
    lia.
Defined.

Lemma nearest_pair_edge_witness :
  ∃ out,
    Relaxed.Relaxed_witness_complex Keep_recorded window_distances window_knn ∅ 3
      (-1)%Q 1 = Some out ∧
    is_Some (find (complex out) [0; 1]).
Proof.
  eexists. split; [vm_compute; reflexivity|].
  apply (nearest_pair_edge Keep_recorded window_distances window_knn ∅ 3 (-1)%Q 1 _
           0%nat 0 1 [2] 1%Q (12 # 10)%Q [5%Q]).
  - reflexivity.
  - reflexivity.
  - lia.
  - lia.
  - lia.
  - lia.
  - vm_compute; reflexivity.
Defined.

Lemma New_call_inserts_one_dimension_witness :
  ∃ b st',
    New.add_all_faces_of_dimension Keep_recorded
      (fun s f sc => Relaxed.all_faces_in sc s f) 3 1 0%Q Infinity
      [(0, 1%Q); (1, 1%Q)] []
      (Machine (Relaxed.insert_landmarks Keep_recorded 2 ∅) 0) = Some (b, st') ∧
    grown_within (Relaxed.insert_landmarks Keep_recorded 2 ∅) (complex st')
      (S (length (@nil Z)) + Z.to_nat 1) (S (length (@nil Z)) + Z.to_nat 1).
Proof.
  eexists _, _. split; [vm_compute; reflexivity|].
  eapply (New_call_inserts_one_dimension Keep_recorded
           (fun s f sc => Relaxed.all_faces_in sc s f) 3 1 0%Q Infinity
           [(0, 1%Q); (1, 1%Q)] []
           (Machine (Relaxed.insert_landmarks Keep_recorded 2 ∅) 0)).
  vm_compute; reflexivity.
Defined.

Lemma New_call_returning_false_inserts_nothing_witness :
  ∃ st',
    New.add_all_faces_of_dimension Keep_recorded
      (fun s f sc => Relaxed.all_faces_in sc s f) 2 0 0%Q Infinity [(0, 1%Q)] []
      (Machine ∅ 0) = Some (false, st') ∧
    complex st' = complex (Machine ∅ 0).
Proof.
  eexists. split; [vm_compute; reflexivity|].
  eapply (New_call_returning_false_inserts_nothing Keep_recorded
           (fun s f sc => Relaxed.all_faces_in sc s f) 2 0 0%Q Infinity [(0, 1%Q)] []
           (Machine ∅ 0)).
  vm_compute; reflexivity.
Defined.

Lemma create_complex_nearest_pair_witness :
  is_Some (snd (New.create_complex Keep_recorded window_table ∅ (1 # 2)%Q 2) !! [0]) ∧
  ∀ (l1 : Z) (d1 : Q) rest',
    [(1, (12 # 10)%Q); (2, 5%Q)] = (l1, d1) :: rest' →
    is_Some (find (snd (New.create_complex Keep_recorded window_table ∅ (1 # 2)%Q 2))
               [0; l1]).
Proof.
  apply (create_complex_nearest_pair Keep_recorded window_table ∅ (1 # 2)%Q 2 0 1%Q
           [(1, (12 # 10)%Q); (2, 5%Q)]).
  - vm_compute; reflexivity.
  - vm_compute. discriminate.
  - apply list_elem_of_here.
Defined.

Lemma no_round_without_witnesses_witness :
  Relaxed.Relaxed_witness_complex Keep_recorded [] [] ∅ 3 0%Q 2
    = Some (Machine (Relaxed.insert_landmarks Keep_recorded 3 ∅) 0).
Proof.
  apply (no_round_without_witnesses Keep_recorded [] [] ∅ 3 0%Q 2).
  left. reflexivity.
Defined.

Lemma dimension_limit_monotone_witness :
  ∃ out out',
    Relaxed.Relaxed_witness_complex Keep_recorded tie_distances tie_knn ∅ 3 0%Q 1
      = Some out ∧
    Relaxed.Relaxed_witness_complex Keep_recorded tie_distances tie_knn ∅ 3 0%Q 2
      = Some out' ∧
    subcomplex (complex out) (complex out').
Proof.
  eexists _, _. split; [vm_compute; reflexivity|]. split; [vm_compute; reflexivity|].
  apply (dimension_limit_monotone Keep_recorded tie_distances tie_knn ∅ 3 0%Q 1 2).
  - lia.
  - vm_compute; reflexivity.
  - vm_compute; reflexivity.
Defined.

Lemma create_complex_values_nonneg_witness :
  values_nonneg (snd (New.create_complex Keep_recorded window_table ∅ (1 # 2)%Q 2)).
Proof.
  apply (create_complex_values_nonneg Keep_recorded window_table ∅ (1 # 2)%Q 2).
  apply values_nonneg_empty.
Defined.

Lemma strategies_agree_on_edges_witness :
  ∃ out,
    Relaxed.Relaxed_witness_complex Lower_recorded
      ((fun row => row.*2) <$> window_table) ((fun row => row.*1) <$> window_table)
      ∅ 3 (1 # 2)%Q 2 = Some out ∧
    same_edges (snd (New.create_complex Lower_recorded window_table ∅ (1 # 2)%Q 2))
      (complex out) ∧
    (Lower_recorded = Lower_recorded → rows_sorted window_table →
     same_edge_values
       (snd (New.create_complex Lower_recorded window_table ∅ (1 # 2)%Q 2))
       (complex out)) ∧
    (∀ i : nat, (i < 3)%nat → complex out !! [Z.of_nat i] = Some 0%Q) ∧
    (∀ l : Z,
       is_Some (snd (New.create_complex Lower_recorded window_table ∅ (1 # 2)%Q 2)
                  !! [l]) ↔
       ∃ row, row ∈ window_table ∧ l ∈ admitted (1 # 2) Infinity row) ∧
    values_nonneg
      (snd (New.create_complex Lower_recorded window_table ∅ (1 # 2)%Q 2)) ∧
    grown_within ∅
      (snd (New.create_complex Lower_recorded window_table ∅ (1 # 2)%Q 2)) 1 2 ∧
    subcomplex (snd (New.create_complex Lower_recorded window_table ∅ (1 # 2)%Q 2))
      (complex out).
Proof.
  eexists. split; [vm_compute; reflexivity|].
  apply (strategies_agree_on_edges Lower_recorded window_table 3 (1 # 2)%Q 2 2).
  - intros row l Hrow Hl. apply list_elem_of_singleton in Hrow. subst row.
    simpl in Hl.
    repeat (apply elem_of_cons in Hl as [->|Hl]; [lia|]).
    by apply elem_of_nil in Hl.
  - lia.
  - lia.
  - vm_compute. discriminate.
  - vm_compute; reflexivity.
Defined.
